(** * Horror House: progression gating and encounter resolution

    A shallow embedding of [game.py] (the [Game] class with its [Room],
    [Item], [Player] and [Creature] records) and the properties of its
    turn loop and encounter resolver.

    Conventions of the embedding.
    - Python objects that the game compares by identity become references:
      a room is its index in [Game.rooms], an item is an address (a [nat]) into
      the object store [heap] of the game.
    - The random module is an oracle: an infinite tape [rng] of integers with
      a read position; every call of [random.random], [random.randint] or
      [random.choice] reads one cell.
    - The terminal is a list of already stripped input lines [stdin] and a
      log [stdout] of the narration lines printed by [atmospheric_print].
      Menus, item listings and prompts are not logged.
    - [sys.exit] and exceptions end a computation with a [Halt] value. *)

From Stdlib Require Import ZArith Lia String Ascii DecimalString.
From stdpp Require Import base decidable option list gmap strings pretty.

Local Open Scope string_scope.
Local Open Scope Z_scope.

(** ** Strings *)

(** [str.lower] on the ASCII letters. *)
Definition lower_ascii (c : ascii) : ascii :=
  let n := nat_of_ascii c in
  if ((65 <=? n)%nat && (n <=? 90)%nat)%bool then ascii_of_nat (n + 32) else c.

Fixpoint lower (s : string) : string :=
  match s with
  | EmptyString => EmptyString
  | String c t => String (lower_ascii c) (lower t)
  end.

Definition startswith (s p : string) : bool := String.prefix p s.

(** [str(i)] and [int(s)] for non-negative integers. *)
Definition str (i : nat) : string := pretty i.

Definition int (s : string) : option nat :=
  Nat.of_uint <$> NilZero.uint_of_string s.

(** ** Items *)

(** The three item classes share [name] and [desc]; the subclass fields are
    the payload of [kind]. *)
Inductive ItemKind :=
| Plain
| Stun (strength durability : Z)
| Key (part_id : Z) (backstory : string).

Module Item.
Record t := mk { name : string; desc : string; kind : ItemKind }.
End Item.

Definition mkItem (name desc : string) : Item.t := Item.mk name desc Plain.

Definition mkStunItem (name desc : string) (strength durability : Z) : Item.t :=
  Item.mk name desc (Stun strength durability).

Definition mkKeyPart (part_id : Z) (desc backstory : string) : Item.t :=
  Item.mk ("KeyPart" ++ pretty part_id) desc (Key part_id backstory).

Definition is_StunItem (it : Item.t) : bool :=
  match Item.kind it with Stun _ _ => true | _ => false end.

Definition is_KeyPart (it : Item.t) : bool :=
  match Item.kind it with Key _ _ => true | _ => false end.

Definition durability (it : Item.t) : Z :=
  match Item.kind it with Stun _ d => d | _ => 0 end.

Definition strength_of (it : Item.t) : Z :=
  match Item.kind it with Stun s _ => s | _ => 0 end.

Definition part_id_of (it : Item.t) : option Z :=
  match Item.kind it with Key p _ => Some p | _ => None end.

Definition set_durability (d : Z) (it : Item.t) : Item.t :=
  match Item.kind it with
  | Stun s _ => Item.mk (Item.name it) (Item.desc it) (Stun s d)
  | _ => it
  end.

(** [StunItem.use]: the item after the call and the returned flag. *)
Definition StunItem_use (it : Item.t) : Item.t * bool :=
  if durability it <=? 0 then (it, false)
  else (set_durability (durability it - 1) it, true).

(** ** Rooms *)

Module Room.
Record t := mk {
  name : string;
  short_desc : string;
  long_desc : string;
  items : list nat;
  hiding_spots : Z;
  adjacent : list (string * nat);
  required_unlock_part : option Z;
  reveal_text : option string
}.
End Room.

Definition mkRoom (name short_desc long_desc : string) (hiding_spots : Z) : Room.t :=
  Room.mk name short_desc long_desc [] hiding_spots [] None None.

Definition Room_set_items (l : list nat) (r : Room.t) : Room.t :=
  Room.mk (Room.name r) (Room.short_desc r) (Room.long_desc r) l
    (Room.hiding_spots r) (Room.adjacent r) (Room.required_unlock_part r)
    (Room.reveal_text r).

Definition Room_set_adjacent (adj : list (string * nat)) (r : Room.t) : Room.t :=
  Room.mk (Room.name r) (Room.short_desc r) (Room.long_desc r) (Room.items r)
    (Room.hiding_spots r) adj (Room.required_unlock_part r) (Room.reveal_text r).

Definition Room_set_required (p : option Z) (r : Room.t) : Room.t :=
  Room.mk (Room.name r) (Room.short_desc r) (Room.long_desc r) (Room.items r)
    (Room.hiding_spots r) (Room.adjacent r) p (Room.reveal_text r).

Definition Room_set_reveal_text (t : option string) (r : Room.t) : Room.t :=
  Room.mk (Room.name r) (Room.short_desc r) (Room.long_desc r) (Room.items r)
    (Room.hiding_spots r) (Room.adjacent r) (Room.required_unlock_part r) t.

(** Assignment [d[k] = v] on an insertion-ordered dict. *)
Fixpoint dict_set {V} (k : string) (v : V) (d : list (string * V)) : list (string * V) :=
  match d with
  | [] => [(k, v)]
  | (k', v') :: t => if decide (k' = k) then (k, v) :: t else (k', v') :: dict_set k v t
  end.

Fixpoint dict_get {V} (k : string) (d : list (string * V)) : option V :=
  match d with
  | [] => None
  | (k', v) :: t => if decide (k' = k) then Some v else dict_get k t
  end.

Definition keys {V} (d : list (string * V)) : list string := d.*1.
Definition values {V} (d : list (string * V)) : list V := d.*2.

Definition Room_link (other : nat) (direction : string) (r : Room.t) : Room.t :=
  Room_set_adjacent (dict_set direction other (Room.adjacent r)) r.

Definition Room_add_item (a : nat) (r : Room.t) : Room.t :=
  Room_set_items (Room.items r ++ [a]) r.

(** [list.remove(x)]: drops the first occurrence; [None] is the ValueError. *)
Fixpoint list_remove (a : nat) (l : list nat) : option (list nat) :=
  match l with
  | [] => None
  | x :: t => if decide (x = a) then Some t else (x ::.) <$> list_remove a t
  end.

Definition Room_remove_item (a : nat) (r : Room.t) : Room.t :=
  match list_remove a (Room.items r) with
  | Some l => Room_set_items l r
  | None => r
  end.

Definition is_accessible (r : Room.t) (found_parts : gset Z) : bool :=
  match Room.required_unlock_part r with
  | None => true
  | Some p => bool_decide (p ∈ found_parts)
  end.

(** ** Player and creature *)

Module Player.
Record t := mk {
  name : string;
  character_class : string;
  strength : Z;
  agility : Z;
  magic : Z;
  max_hp : Z;
  hp : Z;
  inventory : list nat;
  key_parts : list nat;
  current_room : nat;
  is_hiding : bool
}.
End Player.

Definition Player_set_hp (v : Z) (p : Player.t) : Player.t :=
  Player.mk (Player.name p) (Player.character_class p) (Player.strength p)
    (Player.agility p) (Player.magic p) (Player.max_hp p) v
    (Player.inventory p) (Player.key_parts p) (Player.current_room p)
    (Player.is_hiding p).

Definition Player_set_inventory (l : list nat) (p : Player.t) : Player.t :=
  Player.mk (Player.name p) (Player.character_class p) (Player.strength p)
    (Player.agility p) (Player.magic p) (Player.max_hp p) (Player.hp p)
    l (Player.key_parts p) (Player.current_room p) (Player.is_hiding p).

Definition Player_set_key_parts (l : list nat) (p : Player.t) : Player.t :=
  Player.mk (Player.name p) (Player.character_class p) (Player.strength p)
    (Player.agility p) (Player.magic p) (Player.max_hp p) (Player.hp p)
    (Player.inventory p) l (Player.current_room p) (Player.is_hiding p).

Definition Player_set_current_room (r : nat) (p : Player.t) : Player.t :=
  Player.mk (Player.name p) (Player.character_class p) (Player.strength p)
    (Player.agility p) (Player.magic p) (Player.max_hp p) (Player.hp p)
    (Player.inventory p) (Player.key_parts p) r (Player.is_hiding p).

Definition Player_set_is_hiding (b : bool) (p : Player.t) : Player.t :=
  Player.mk (Player.name p) (Player.character_class p) (Player.strength p)
    (Player.agility p) (Player.magic p) (Player.max_hp p) (Player.hp p)
    (Player.inventory p) (Player.key_parts p) (Player.current_room p) b.

(** [Player.assign_class_stats]: strength, agility, magic, max_hp. *)
Definition class_stats (character_class : string) : Z * Z * Z * Z :=
  if decide (lower character_class = "warrior") then (7, 3, 2, 14)
  else if decide (lower character_class = "mage") then (2, 4, 8, 10)
  else if decide (lower character_class = "rogue") then (4, 8, 2, 11)
  else (5, 5, 5, 12).

(** [Player(name, character_class)] placed in [room]. *)
Definition mkPlayer (name character_class : string) (room : nat) : Player.t :=
  let '(s, a, m, mx) := class_stats character_class in
  Player.mk name character_class s a m mx mx [] [] room false.

Module Creature.
Record t := mk {
  name : string;
  difficulty : Z;
  base_detection : Z;
  attack_power : Z;
  hp : Z;
  cooldown : Z
}.
End Creature.

Definition mkCreature (difficulty : Z) : Creature.t :=
  Creature.mk "The Crawling Thing" difficulty (8 + difficulty * 2)
    (1 + difficulty) (10 + difficulty * 5) 0.

Definition Creature_set_difficulty (d : Z) (c : Creature.t) : Creature.t :=
  Creature.mk (Creature.name c) d (Creature.base_detection c)
    (Creature.attack_power c) (Creature.hp c) (Creature.cooldown c).

Definition Creature_set_cooldown (v : Z) (c : Creature.t) : Creature.t :=
  Creature.mk (Creature.name c) (Creature.difficulty c) (Creature.base_detection c)
    (Creature.attack_power c) (Creature.hp c) v.

(** [Creature.tick] *)
Definition Creature_tick (c : Creature.t) : Creature.t :=
  if 0 <? Creature.cooldown c then Creature_set_cooldown (Creature.cooldown c - 1) c
  else c.

(** ** Narration *)

(** One constructor per narration line of the game; numbers and names that
    the line interpolates are its arguments. [MsgReveal] also records the
    room whose reveal text is shown. *)
Inductive Msg :=
| MsgCaught | MsgAtFrontDoor | MsgUseKeyQuestion | MsgLockClicks | MsgStayLonger
| MsgReveal (room : nat) (text : string)
| MsgYouAreIn (name short_desc : string) | MsgLongDesc (text : string)
| MsgNoticeItems | MsgNoItems | MsgExits (exits : list string) | MsgNoExits
| MsgNoAccessibleExits | MsgWhereTo | MsgYouMoveTo (name : string)
| MsgFoundRustyKey | MsgFoundNothing | MsgWhichPickUp | MsgLeaveUntouched
| MsgFoundKeyPiece (desc : string) | MsgBackstory (text : string)
| MsgDistantClick | MsgPickUp (name : string)
| MsgStepOut | MsgNowhereToHide | MsgHideOk | MsgHideFail
| MsgInventoryEmpty | MsgInventory | MsgKeyPartsCollected
| MsgNoItemsToUse | MsgWhichUse | MsgUseNothing | MsgInvalidSelection
| MsgHoldReady (name : string) | MsgPotion (heal_amount : Z) | MsgNothingHappens
| MsgStatusHP (hp max_hp : Z) | MsgStatusStats (s a m : Z) | MsgStatusKeys (ids : list Z)
| MsgChooseAction | MsgSureQuit | MsgActionError
| MsgCreatureHere | MsgRolls (c_roll p_hide : Z) | MsgSpotsYou | MsgOptions
| MsgNothingToStun | MsgWhichStun | MsgStunned | MsgStunFailed (dmg : Z)
| MsgAttemptHide (roll : Z) | MsgHideSuccess | MsgHidingFails | MsgSlash (dmg : Z)
| MsgTryMove (roll : Z) | MsgBolt (name : string) | MsgNowhereToRun
| MsgAttackDeals (dmg : Z) | MsgFailEscape (dmg : Z) | MsgAcceptFate
| MsgInvalidChoice | MsgNotNoticed
| MsgDepleted | MsgStunRolls (player_roll creature_defense : Z) | MsgStaggers
| MsgLongStun | MsgShakesOff
| MsgStrangePull
| MsgGameOver | MsgCongratulations | MsgSecretEnding | MsgThankYou.

Global Instance Msg_eq_dec : EqDecision Msg.
Proof. solve_decision. Defined.

(** ** The game state *)

Record Game := mkGame {
  start_room : nat;
  rooms : list Room.t;
  creature : Creature.t;
  player : Player.t;
  found_parts : gset Z;
  secret_key_spawned : bool;
  creature_room_index : option nat;
  heap : list Item.t;
  stdin : list string;
  rng : nat -> Z;
  rng_pos : nat;
  stdout : list Msg
}.

Definition set_rooms (v : list Room.t) (g : Game) : Game :=
  mkGame (start_room g) v (creature g) (player g) (found_parts g)
    (secret_key_spawned g) (creature_room_index g) (heap g) (stdin g) (rng g)
    (rng_pos g) (stdout g).

Definition set_creature (v : Creature.t) (g : Game) : Game :=
  mkGame (start_room g) (rooms g) v (player g) (found_parts g)
    (secret_key_spawned g) (creature_room_index g) (heap g) (stdin g) (rng g)
    (rng_pos g) (stdout g).

Definition set_player (v : Player.t) (g : Game) : Game :=
  mkGame (start_room g) (rooms g) (creature g) v (found_parts g)
    (secret_key_spawned g) (creature_room_index g) (heap g) (stdin g) (rng g)
    (rng_pos g) (stdout g).

Definition set_found_parts (v : gset Z) (g : Game) : Game :=
  mkGame (start_room g) (rooms g) (creature g) (player g) v
    (secret_key_spawned g) (creature_room_index g) (heap g) (stdin g) (rng g)
    (rng_pos g) (stdout g).

Definition set_secret_key_spawned (v : bool) (g : Game) : Game :=
  mkGame (start_room g) (rooms g) (creature g) (player g) (found_parts g)
    v (creature_room_index g) (heap g) (stdin g) (rng g) (rng_pos g) (stdout g).

Definition set_creature_room_index (v : option nat) (g : Game) : Game :=
  mkGame (start_room g) (rooms g) (creature g) (player g) (found_parts g)
    (secret_key_spawned g) v (heap g) (stdin g) (rng g) (rng_pos g) (stdout g).

Definition set_heap (v : list Item.t) (g : Game) : Game :=
  mkGame (start_room g) (rooms g) (creature g) (player g) (found_parts g)
    (secret_key_spawned g) (creature_room_index g) v (stdin g) (rng g)
    (rng_pos g) (stdout g).

Definition set_stdin (v : list string) (g : Game) : Game :=
  mkGame (start_room g) (rooms g) (creature g) (player g) (found_parts g)
    (secret_key_spawned g) (creature_room_index g) (heap g) v (rng g)
    (rng_pos g) (stdout g).

Definition set_rng_pos (v : nat) (g : Game) : Game :=
  mkGame (start_room g) (rooms g) (creature g) (player g) (found_parts g)
    (secret_key_spawned g) (creature_room_index g) (heap g) (stdin g) (rng g)
    v (stdout g).

Definition set_stdout (v : list Msg) (g : Game) : Game :=
  mkGame (start_room g) (rooms g) (creature g) (player g) (found_parts g)
    (secret_key_spawned g) (creature_room_index g) (heap g) (stdin g) (rng g)
    (rng_pos g) v.

Global Instance Room_inhabited : Inhabited Room.t := populate (mkRoom "" "" "" 0).
Global Instance Item_inhabited : Inhabited Item.t := populate (mkItem "" "").

(** The room object behind a room reference, the item behind an address. *)
Definition room_at (g : Game) (i : nat) : Room.t := rooms g !!! i.
Definition item_at (g : Game) (a : nat) : Item.t := heap g !!! a.

(** ** Computations *)

(** How a run of the process ends: [end_game(lost=False)], [end_game(lost=True)],
    or end of input in [choose]; the exit status is 0 in all three. *)
Inductive Ending := Won | Lost | Quit.

Inductive Exn := ValueError | IndexError | KeyError.

(** [Starved] is the embedding's own: a loop that ran out of fuel. *)
Inductive Halt := SystemExit (e : Ending) | Raised (x : Exn) | Starved.

Inductive Outcome (A : Type) :=
| Ret (a : A) (g : Game)
| Stop (h : Halt) (g : Game).
Arguments Ret {A} a g.
Arguments Stop {A} h g.

Definition M (A : Type) := Game -> Outcome A.

Definition ret {A} (a : A) : M A := fun g => Ret a g.

Definition bind {A B} (m : M A) (k : A -> M B) : M B :=
  fun g => match m g with
           | Ret a g' => k a g'
           | Stop h g' => Stop h g'
           end.

Declare Scope game_scope.
Delimit Scope game_scope with game.
Notation "x <- m ;; k" := (bind m (fun x => k))
  (at level 100, m at next level, k at level 200, right associativity) : game_scope.
Notation "m ;; k" := (bind m (fun _ => k))
  (at level 100, k at level 200, right associativity) : game_scope.
Local Open Scope game_scope.

Definition final {A} (o : Outcome A) : Game :=
  match o with Ret _ g => g | Stop _ g => g end.

Definition halt_of {A} (o : Outcome A) : option Halt :=
  match o with Ret _ _ => None | Stop h _ => Some h end.

Definition gets {A} (f : Game -> A) : M A := fun g => Ret (f g) g.
Definition modify (f : Game -> Game) : M unit := fun g => Ret tt (f g).
Definition raise {A} (x : Exn) : M A := fun g => Stop (Raised x) g.
Definition sys_exit {A} (e : Ending) : M A := fun g => Stop (SystemExit e) g.
Definition starve {A} : M A := fun g => Stop Starved g.

(** [try: m  except E: handler], with [catches] telling which exceptions
    the clause names. *)
Definition try_except {A} (m : M A) (catches : Exn -> bool) (handler : M A) : M A :=
  fun g => match m g with
           | Stop (Raised x) g' => if catches x then handler g' else Stop (Raised x) g'
           | o => o
           end.

Definition Exception (x : Exn) : bool := true.

Definition only_ValueError (x : Exn) : bool :=
  match x with ValueError => true | _ => false end.

Definition when (b : bool) (m : M unit) : M unit := if b then m else ret tt.

(** [atmospheric_print] *)
Definition present (m : Msg) : M unit :=
  modify (fun g => set_stdout (stdout g ++ [m]) g).

Definition modify_player (f : Player.t -> Player.t) : M unit :=
  modify (fun g => set_player (f (player g)) g).

Definition modify_creature (f : Creature.t -> Creature.t) : M unit :=
  modify (fun g => set_creature (f (creature g)) g).

Definition modify_room (i : nat) (f : Room.t -> Room.t) : M unit :=
  modify (fun g => set_rooms (alter f i (rooms g)) g).

Definition modify_item (a : nat) (f : Item.t -> Item.t) : M unit :=
  modify (fun g => set_heap (alter f a (heap g)) g).

(** Object creation: the new item gets the next free address. *)
Definition alloc (it : Item.t) : M nat :=
  fun g => Ret (length (heap g)) (set_heap (heap g ++ [it]) g).

(** *** The random source *)

Definition next_random : M Z :=
  fun g => Ret (rng g (rng_pos g)) (set_rng_pos (S (rng_pos g)) g).

(** A double as an exact fraction [num / 2^exp2]. *)
Record dyadic := mkDyadic { num : Z; exp2 : Z }.

Definition dyadic_ltb (a b : dyadic) : bool :=
  num a * 2 ^ exp2 b <? num b * 2 ^ exp2 a.

(** The literals 0.6, 0.5 and 0.2 as the doubles Python reads them as. *)
Definition float_0_6 : dyadic := mkDyadic 5404319552844595 53.
Definition float_0_5 : dyadic := mkDyadic 1 1.
Definition float_0_2 : dyadic := mkDyadic 3602879701896397 54.

(** [random.random()]: a multiple of 2^-53 in [0, 1). *)
Definition random_random : M dyadic :=
  k <- next_random ;; ret (mkDyadic (k mod 2 ^ 53) 53).

(** [random.randint(a, b)]: ValueError on an empty range. *)
Definition randint (a b : Z) : M Z :=
  if b <? a then raise ValueError
  else k <- next_random ;; ret (a + k mod (b - a + 1)).

(** [random.choice(seq)]: IndexError on an empty sequence. *)
Definition random_choice {A} (seq : list A) : M A :=
  match seq with
  | [] => raise IndexError
  | x :: _ => k <- next_random ;;
              ret (nth (Z.to_nat (k mod Z.of_nat (length seq))) seq x)
  end.

Definition roll_dice (n : Z) : M Z :=
  if n <? 1 then ret 1 else randint 1 n.

(** *** Input *)

(** [choose]: reads lines until one is an option; end of input quits. *)
Fixpoint choose_from (options : list string) (lines : list string)
  : option (string * list string) :=
  match lines with
  | [] => None
  | choice :: rest =>
      if decide (choice = "") then choose_from options rest
      else if decide (choice ∈ options) then Some (choice, rest)
      else choose_from options rest
  end.

Definition choose (options : list string) : M string :=
  fun g => match choose_from options (stdin g) with
           | Some (choice, rest) => Ret choice (set_stdin rest g)
           | None => Stop (SystemExit Quit) (set_stdin [] g)
           end.

(** *** Loops *)

Inductive Ctl := Continue | Break | Return.

Fixpoint loop (fuel : nat) (body : M Ctl) : M Ctl :=
  match fuel with
  | O => starve
  | S n => c <- body ;;
           match c with
           | Continue => loop n body
           | _ => ret c
           end
  end.

(** [while True: body]. Every iteration of the game's two loops reads a
    line of input, so the lines left bound the iterations. *)
Definition while_true (body : M Ctl) : M Ctl :=
  fun g => loop (S (length (stdin g))) body g.

Fixpoint for_each {A} (l : list A) (f : A -> M unit) : M unit :=
  match l with
  | [] => ret tt
  | x :: t => f x ;; for_each t f
  end.

(** [l[i]] with Python's negative indices; [None] is the IndexError. *)
Definition list_getitem {A} (l : list A) (i : Z) : option A :=
  if (0 <=? i) && (i <? Z.of_nat (length l)) then l !! Z.to_nat i
  else if (- Z.of_nat (length l) <=? i) && (i <? 0) then l !! Z.to_nat (Z.of_nat (length l) + i)
  else None.

(** [self.rooms[i]] and [self.rooms.index(room)] on room references. *)
Definition rooms_getitem (i : nat) : M nat :=
  g <- gets id ;;
  if (i <? length (rooms g))%nat then ret i else raise IndexError.

Definition rooms_index (room : nat) : M nat :=
  g <- gets id ;;
  if (room <? length (rooms g))%nat then ret room else raise ValueError.

(** [self.player.inventory.remove(item)] *)
Definition inventory_remove (a : nat) : M unit :=
  g <- gets id ;;
  match list_remove a (Player.inventory (player g)) with
  | Some l => modify_player (Player_set_inventory l)
  | None => raise ValueError
  end.

(** ** Player methods *)

Definition Player_pickup (a : nat) : M unit :=
  modify_player (fun p => Player_set_inventory (Player.inventory p ++ [a]) p).

Definition stun_items (g : Game) : list nat :=
  List.filter (fun a => is_StunItem (item_at g a)) (Player.inventory (player g)).

Definition part_ids (g : Game) : gset Z :=
  list_to_set (omap (fun a => part_id_of (item_at g a)) (Player.key_parts (player g))).

Definition has_all_main_keys (g : Game) : bool :=
  bool_decide ({[1; 2; 3]} ⊆ part_ids g).

(** ** Creature methods *)

(** [Creature.detect_player] once the two dice have been rolled. *)
Definition detect_player_with (d20 d6 : Z) (c : Creature.t) (p : Player.t) (r : Room.t)
  : bool * Z * Z :=
  let creature_roll := d20 + Creature.difficulty c * 2 in
  let player_hide_score := Player.agility p + Room.hiding_spots r * 1 in
  let player_hide_score :=
    if Player.is_hiding p then player_hide_score + 4 else player_hide_score in
  let player_hide_score := player_hide_score + d6 in
  (creature_roll >? player_hide_score, creature_roll, player_hide_score).

Definition Creature_detect_player (room : nat) : M (bool * Z * Z) :=
  d20 <- roll_dice 20 ;;
  g <- gets id ;;
  d6 <- roll_dice 6 ;;
  ret (detect_player_with d20 d6 (creature g) (player g) (room_at g room)).

Definition Creature_attack : M Z :=
  c <- gets creature ;;
  r <- randint 0 (Creature.difficulty c) ;;
  let damage := Creature.attack_power c + r in
  modify_player (fun p => Player_set_hp (Z.max 0 (Player.hp p - damage)) p) ;;
  ret damage.

Definition Creature_special_move : M (option (string * Z)) :=
  c <- gets creature ;;
  if 0 <? Creature.cooldown c then ret None
  else
    modify_creature (Creature_set_cooldown (3 + Creature.difficulty c)) ;;
    let damage := Z.max 1 (Creature.attack_power c / 2) in
    modify_player (fun p => Player_set_hp (Z.max 0 (Player.hp p - damage)) p) ;;
    ret (Some ("pounce", damage)).

(** ** Game methods *)

Definition BACKSTORIES (part_id : Z) : string :=
  if part_id =? 1 then
    "Key Part 1: A smeared drawing of the creature. It was once someone you knew."
  else if part_id =? 2 then
    "Key Part 2: A note: 'It keeps the house sealed. It remembers.'"
  else if part_id =? 3 then
    "Key Part 3: A photograph of the family at the doorway - the edges charred."
  else
    "Secret Key: Etched into the metal: 'Choice - leave, or stay and learn.'".

Definition end_game (lost : bool) : M unit :=
  (if lost then present MsgGameOver
   else
     present MsgCongratulations ;;
     g <- gets id ;;
     when (existsb (fun a => bool_decide (part_id_of (item_at g a) = Some 4))
             (Player.key_parts (player g)))
       (present MsgSecretEnding)) ;;
  present MsgThankYou ;;
  sys_exit (if lost then Lost else Won).

Definition get_creature_location : M nat :=
  g <- gets id ;;
  i <- match creature_room_index g with
       | Some i => ret i
       | None =>
           let possible :=
             List.filter (fun i => negb (i =? Player.current_room (player g))%nat)
               (seq 0 (length (rooms g))) in
           i <- random_choice possible ;;
           modify (set_creature_room_index (Some i)) ;;
           ret i
       end ;;
  rooms_getitem i.

(** The step that the source writes out at each place where the creature
    leaves [room]: if the room has exits, it goes to a random one. *)
Definition wander_from (room : nat) : M unit :=
  adj <- gets (fun g => Room.adjacent (room_at g room)) ;;
  match adj with
  | [] => ret tt
  | _ :: _ =>
      target <- random_choice (values adj) ;;
      i <- rooms_index target ;;
      modify (set_creature_room_index (Some i))
  end.

Definition creature_tick : M unit :=
  x <- random_random ;;
  when (dyadic_ltb x float_0_5)
    (cur <- get_creature_location ;; wander_from cur).

Definition truthy_part (o : option Z) : bool :=
  match o with Some p => negb (p =? 0) | None => false end.

Definition truthy_text (o : option string) : bool :=
  match o with Some t => negb (bool_decide (t = "")) | None => false end.

Definition describe_current_room : M unit :=
  g <- gets id ;;
  let room := Player.current_room (player g) in
  let r := room_at g room in
  (match Room.required_unlock_part r, Room.reveal_text r with
   | Some p, Some t =>
       if truthy_part (Some p) && bool_decide (p ∈ found_parts g) && truthy_text (Some t)
       then present (MsgReveal room t) ;; modify_room room (Room_set_reveal_text None)
       else ret tt
   | _, _ => ret tt
   end) ;;
  present (MsgYouAreIn (Room.name r) (Room.short_desc r)) ;;
  present (MsgLongDesc (Room.long_desc r)) ;;
  (match Room.items r with
   | [] => present MsgNoItems
   | _ :: _ => present MsgNoticeItems
   end) ;;
  match keys (Room.adjacent r) with
  | [] => present MsgNoExits
  | exits => present (MsgExits exits)
  end.

(** The dict [accessible] of [action_move]: "1", "2", ... for the exits that
    are accessible, in the order of the adjacency dict. *)
Definition accessible_exits (g : Game) (room : nat) : list (string * (string * nat)) :=
  imap (fun i x => (str (S i), x))
    (List.filter (fun x => is_accessible (room_at g x.2) (found_parts g))
       (Room.adjacent (room_at g room))).

Definition action_move : M unit :=
  g <- gets id ;;
  let accessible := accessible_exits g (Player.current_room (player g)) in
  match accessible with
  | [] => present MsgNoAccessibleExits
  | _ :: _ =>
      present MsgWhereTo ;;
      choice <- choose (keys accessible) ;;
      match dict_get choice accessible with
      | None => raise KeyError
      | Some (_, chosen) =>
          modify_player (Player_set_current_room chosen) ;;
          modify_player (Player_set_is_hiding false) ;;
          present (MsgYouMoveTo (Room.name (room_at g chosen)))
      end
  end.

Definition action_search : M unit :=
  g <- gets id ;;
  let room := Player.current_room (player g) in
  match Room.items (room_at g room) with
  | [] =>
      x <- random_random ;;
      if dyadic_ltb x float_0_2 then
        found <- alloc (mkItem "Rusty Key" "Probably not the escape key, but something.") ;;
        modify_room room (Room_add_item found) ;;
        present MsgFoundRustyKey
      else present MsgFoundNothing
  | its =>
      let options := imap (fun i it => (str (S i), it)) its in
      present MsgWhichPickUp ;;
      choice <- choose (keys options ++ ["0"]) ;;
      if decide (choice = "0") then present MsgLeaveUntouched
      else
        match dict_get choice options with
        | None => raise KeyError
        | Some item =>
            let it := item_at g item in
            match Item.kind it with
            | Key part_id backstory =>
                Player_pickup item ;;
                modify_player
                  (fun p => Player_set_key_parts (Player.key_parts p ++ [item]) p) ;;
                modify (fun g => set_found_parts ({[part_id]} ∪ found_parts g) g) ;;
                present (MsgFoundKeyPiece (Item.desc it)) ;;
                present (MsgBackstory backstory) ;;
                modify_room room (Room_remove_item item) ;;
                for_each (seq 0 (length (rooms g)))
                  (fun i =>
                     g' <- gets id ;;
                     if bool_decide
                          (Room.required_unlock_part (room_at g' i) = Some part_id)
                     then
                       modify_room i
                         (fun r => Room_set_reveal_text (Room.reveal_text r) r) ;;
                       present MsgDistantClick
                     else ret tt)
            | _ =>
                Player_pickup item ;;
                present (MsgPickUp (Item.name it)) ;;
                modify_room room (Room_remove_item item)
            end
        end
  end.

Definition action_hide : M unit :=
  g <- gets id ;;
  let room := room_at g (Player.current_room (player g)) in
  if Player.is_hiding (player g) then
    modify_player (Player_set_is_hiding false) ;; present MsgStepOut
  else if Room.hiding_spots room <=? 0 then present MsgNowhereToHide
  else
    d6 <- roll_dice 6 ;;
    let hide_roll := Player.agility (player g) + d6 in
    let hide_roll :=
      if decide (lower (Player.character_class (player g)) = "rogue")
      then hide_roll + 2 else hide_roll in
    if hide_roll >=? 6 then
      modify_player (Player_set_is_hiding true) ;; present MsgHideOk
    else
      present MsgHideFail ;; modify_player (Player_set_is_hiding false).

Definition show_inventory : M unit :=
  g <- gets id ;;
  match Player.inventory (player g) with
  | [] => present MsgInventoryEmpty
  | _ :: _ =>
      present MsgInventory ;;
      match Player.key_parts (player g) with
      | [] => ret tt
      | _ :: _ => present MsgKeyPartsCollected
      end
  end.

Definition show_status : M unit :=
  g <- gets id ;;
  let p := player g in
  present (MsgStatusHP (Player.hp p) (Player.max_hp p)) ;;
  present (MsgStatusStats (Player.strength p) (Player.agility p) (Player.magic p)) ;;
  present (MsgStatusKeys (omap (fun a => part_id_of (item_at g a)) (Player.key_parts p))).

(** The check and removal that closes both branches of [attempt_stun]. *)
Definition remove_if_used_up (stun_item : nat) : M unit :=
  try_except
    (g <- gets id ;;
     if durability (item_at g stun_item) <=? 0 then inventory_remove stun_item
     else ret tt)
    only_ValueError (ret tt).

Definition attempt_stun (stun_item : nat) : M bool :=
  g <- gets id ;;
  let (used, usable) := StunItem_use (item_at g stun_item) in
  modify_item stun_item (fun _ => used) ;;
  if negb usable then
    present MsgDepleted ;;
    try_except (inventory_remove stun_item) only_ValueError (ret tt) ;;
    ret false
  else
    d20 <- roll_dice 20 ;;
    let player_roll := d20 + strength_of used + Player.strength (player g) / 2 in
    d6 <- roll_dice 6 ;;
    let creature_defense := 12 + Creature.difficulty (creature g) * 3 + d6 in
    present (MsgStunRolls player_roll creature_defense) ;;
    if player_roll >=? creature_defense then
      present MsgStaggers ;;
      (if (player_roll >=? creature_defense + 8) || (Player.magic (player g) >? 6) then
         present MsgLongStun ;;
         loc <- get_creature_location ;;
         adj <- gets (fun g => Room.adjacent (room_at g loc)) ;;
         match adj with
         | [] => ret tt
         | _ :: _ =>
             loc' <- get_creature_location ;;
             adj' <- gets (fun g => Room.adjacent (room_at g loc')) ;;
             target <- random_choice (values adj') ;;
             i <- rooms_index target ;;
             modify (set_creature_room_index (Some i))
         end
       else ret tt) ;;
      remove_if_used_up stun_item ;;
      ret true
    else
      present MsgShakesOff ;;
      remove_if_used_up stun_item ;;
      ret false.

Definition action_use_item : M unit :=
  g <- gets id ;;
  let inv := Player.inventory (player g) in
  match inv with
  | [] => present MsgNoItemsToUse
  | _ :: _ =>
      present MsgWhichUse ;;
      choice <- choose (str <$> seq 0 (length inv + 1)) ;;
      if decide (choice = "0") then present MsgUseNothing
      else
        match int choice with
        | None => raise ValueError
        | Some n =>
            let idx := Z.of_nat n - 1 in
            if (idx <? 0) || (idx >=? Z.of_nat (length inv)) then
              present MsgInvalidSelection
            else
              match list_getitem inv idx with
              | None => raise IndexError
              | Some item =>
                  let it := item_at g item in
                  if is_StunItem it then
                    loc <- get_creature_location ;;
                    if (Player.current_room (player g) =? loc)%nat then
                      success <- attempt_stun item ;;
                      g' <- gets id ;;
                      if durability (item_at g' item) <=? 0 then inventory_remove item
                      else ret tt
                    else present (MsgHoldReady (Item.name it))
                  else if startswith (lower (Item.name it)) "health" then
                    d4 <- roll_dice 4 ;;
                    let heal_amount := 3 + d4 in
                    modify_player
                      (fun p => Player_set_hp
                                  (Z.min (Player.max_hp p) (Player.hp p + heal_amount)) p) ;;
                    present (MsgPotion heal_amount) ;;
                    inventory_remove item
                  else present MsgNothingHappens
              end
        end
  end.

(** The dispatch of [player_turn] on the chosen action. *)
Definition player_action (choice : string) : M unit :=
  if decide (choice = "1") then action_move
  else if decide (choice = "2") then action_search
  else if decide (choice = "3") then action_hide
  else if decide (choice = "4") then show_inventory
  else if decide (choice = "5") then action_use_item
  else if decide (choice = "6") then show_status
  else if decide (choice = "7") then
    present MsgSureQuit ;;
    answer <- choose ["y"; "n"] ;;
    if decide (answer = "y") then end_game true ;; sys_exit Lost
    else ret tt
  else ret tt.

Definition player_turn : M unit :=
  present MsgChooseAction ;;
  choice <- choose ["1"; "2"; "3"; "4"; "5"; "6"; "7"] ;;
  try_except (player_action choice) Exception (present MsgActionError).

(** What follows a creature attack inside the encounter loop:
    [if self.player.hp <= 0: return] and then [continue]. *)
Definition after_attack : M Ctl :=
  g <- gets id ;;
  if Player.hp (player g) <=? 0 then ret Return else ret Continue.

(** The dispatch of the encounter loop on the chosen option; [room] and
    [creature_room] are the locals bound before the loop. *)
Definition encounter_tactic (room creature_room : nat) (choice : string) : M Ctl :=
  if decide (choice = "1") then
    g <- gets id ;;
    let stun_items := stun_items g in
    match stun_items with
    | [] => present MsgNothingToStun ;; ret Continue
    | _ :: _ =>
        present MsgWhichStun ;;
        pick <- choose (str <$> seq 1 (length stun_items)) ;;
        match int pick with
        | None => raise ValueError
        | Some n =>
            match list_getitem stun_items (Z.of_nat n - 1) with
            | None => raise IndexError
            | Some stun_item =>
                success <- attempt_stun stun_item ;;
                if success then
                  present MsgStunned ;;
                  wander_from creature_room ;;
                  ret Break
                else
                  dmg <- Creature_attack ;;
                  present (MsgStunFailed dmg) ;;
                  after_attack
            end
        end
    end
  else if decide (choice = "2") then
    g <- gets id ;;
    d6 <- roll_dice 6 ;;
    let hide_roll := Player.agility (player g) + d6 in
    let hide_roll :=
      if decide (lower (Player.character_class (player g)) = "rogue")
      then hide_roll + 2 else hide_roll in
    let hide_roll := hide_roll + Room.hiding_spots (room_at g room) in
    present (MsgAttemptHide hide_roll) ;;
    if hide_roll >=? 8 + Creature.difficulty (creature g) * 2 then
      modify_player (Player_set_is_hiding true) ;;
      present MsgHideSuccess ;;
      x <- random_random ;;
      when (dyadic_ltb x float_0_5) (wander_from creature_room) ;;
      ret Break
    else
      present MsgHidingFails ;;
      dmg <- Creature_attack ;;
      present (MsgSlash dmg) ;;
      after_attack
  else if decide (choice = "3") then
    g <- gets id ;;
    d6 <- roll_dice 6 ;;
    let escape_roll := Player.agility (player g) + d6 in
    present (MsgTryMove escape_roll) ;;
    if escape_roll >? 10 + Creature.difficulty (creature g) then
      match Room.adjacent (room_at g room) with
      | _ :: _ =>
          dest <- random_choice (values (Room.adjacent (room_at g room))) ;;
          modify_player (Player_set_current_room dest) ;;
          modify_player (Player_set_is_hiding false) ;;
          present (MsgBolt (Room.name (room_at g dest))) ;;
          x <- random_random ;;
          when (dyadic_ltb x float_0_6)
            (i <- rooms_index dest ;; modify (set_creature_room_index (Some i))) ;;
          ret Break
      | [] =>
          present MsgNowhereToRun ;;
          dmg <- Creature_attack ;;
          present (MsgAttackDeals dmg) ;;
          after_attack
      end
    else
      dmg <- Creature_attack ;;
      present (MsgFailEscape dmg) ;;
      after_attack
  else if decide (choice = "4") then
    action_use_item ;; ret Continue
  else if decide (choice = "5") then
    present MsgAcceptFate ;;
    end_game true ;;
    sys_exit Lost
  else
    present MsgInvalidChoice ;; ret Continue.

(** One pass through the body of the [while True] of [handle_encounter]. *)
Definition encounter_round (room creature_room : nat) : M Ctl :=
  present MsgOptions ;;
  choice <- choose ["1"; "2"; "3"; "4"; "5"] ;;
  encounter_tactic room creature_room choice.

Definition handle_encounter : M unit :=
  g <- gets id ;;
  let room := Player.current_room (player g) in
  creature_room <- get_creature_location ;;
  if negb (room =? creature_room)%nat then ret tt
  else
    present MsgCreatureHere ;;
    r <- Creature_detect_player room ;;
    let '(detected, c_roll, p_hide) := r in
    present (MsgRolls c_roll p_hide) ;;
    if detected then
      present MsgSpotsYou ;;
      while_true (encounter_round room creature_room) ;;
      ret tt
    else
      present MsgNotNoticed ;;
      x <- random_random ;;
      when (dyadic_ltb x float_0_2) (wander_from creature_room).

Definition spawn_secret_key : M unit :=
  g <- gets id ;;
  let candidate_rooms :=
    List.filter (fun i => negb (i =? start_room g)%nat) (seq 0 (length (rooms g))) in
  room <- random_choice candidate_rooms ;;
  secret <- alloc (mkKeyPart 4 "A cold, ornate key that hums faintly." (BACKSTORIES 4)) ;;
  modify_room room (Room_add_item secret) ;;
  modify (set_secret_key_spawned true) ;;
  present MsgStrangePull.

(** The win check at the head of the loop of [run]: [Break] after a
    confirmed escape, [Continue] when the turn goes on. *)
Definition win_check : M Ctl :=
  g <- gets id ;;
  if has_all_main_keys g then
    if (Player.current_room (player g) =? start_room g)%nat then
      present MsgAtFrontDoor ;;
      present MsgUseKeyQuestion ;;
      choice <- choose ["1"; "2"] ;;
      if decide (choice = "1") then
        present MsgLockClicks ;;
        end_game false ;;
        ret Break
      else
        present MsgStayLonger ;; ret Continue
    else ret Continue
  else ret Continue.

(** The secret key check that closes a turn. *)
Definition secret_key_check : M unit :=
  g <- gets id ;;
  if has_all_main_keys g && negb (secret_key_spawned g) then
    x <- random_random ;;
    when (dyadic_ltb x float_0_6) spawn_secret_key
  else ret tt.

(** The turn from the room description to the secret key check. *)
Definition play_turn : M unit :=
  describe_current_room ;;
  creature_tick ;;
  player_turn ;;
  g <- gets id ;;
  loc <- get_creature_location ;;
  when (Player.current_room (player g) =? loc)%nat handle_encounter ;;
  modify_creature Creature_tick ;;
  secret_key_check.

(** The body of the [while True] of [run]. *)
Definition run_turn : M Ctl :=
  g <- gets id ;;
  if Player.hp (player g) <=? 0 then
    present MsgCaught ;;
    end_game true ;;
    ret Break
  else
    c <- win_check ;;
    match c with
    | Continue => play_turn ;; ret Continue
    | _ => ret c
    end.

Definition run : M Ctl := while_true run_turn.

(** ** The house *)

(** [create_world]: the seven rooms, in the order of the list [rooms]
    (Foyer 0, Living Room 1, Kitchen 2, Basement 3, Bedroom 4, Attic 5,
    Study 6); the start room is the first. *)
Definition create_world : list Room.t :=
  let foyer := 0%nat in let living := 1%nat in let kitchen := 2%nat in
  let basement := 3%nat in let bedroom := 4%nat in let attic := 5%nat in
  let study := 6%nat in
  let rooms :=
    [ mkRoom "Foyer" "A dim foyer with a coat rack and a cracked mirror."
        "The foyer smells faintly of dust and old smoke. The front door is barred from the outside." 1;
      mkRoom "Living Room" "A cluttered living room with overturned furniture."
        "Old newspapers pile in corners. There's an eerie silence; the TV is cold." 2;
      mkRoom "Kitchen" "A tiled kitchen with broken plates."
        "Cabinets hang open; a faint trail of dried liquid leads under the sink." 1;
      mkRoom "Basement" "A cold basement with a humming furnace."
        "The basement is dark and low-ceilinged. Ducts scrape above you." 2;
      mkRoom "Bedroom" "A master bedroom with a canopy bed."
        "The bed is unmade as though someone left in a hurry. The closet door creaks." 1;
      mkRoom "Attic" "A dusty attic accessible by ladder."
        "The attic is full of trunks and old toys. Something seems to have been moved recently." 3;
      mkRoom "Study" "A small study lined with books."
        "A journal lies open on the desk. The window looks out over the street." 1 ] in
  let rooms := alter (Room_link living "north") foyer rooms in
  let rooms := alter (Room_link foyer "south") living rooms in
  let rooms := alter (Room_link kitchen "east") living rooms in
  let rooms := alter (Room_link living "west") kitchen rooms in
  let rooms := alter (Room_link study "west") living rooms in
  let rooms := alter (Room_link living "east") study rooms in
  let rooms := alter (Room_link basement "down") kitchen rooms in
  let rooms := alter (Room_link kitchen "up") basement rooms in
  let rooms := alter (Room_link bedroom "north") living rooms in
  let rooms := alter (Room_link living "south") bedroom rooms in
  let rooms := alter (Room_link attic "up") bedroom rooms in
  let rooms := alter (Room_link bedroom "down") attic rooms in
  let rooms := alter (Room_set_required (Some 1)) basement rooms in
  let rooms :=
    alter (Room_set_reveal_text
             (Some "You discover a hatch in the kitchen floor that leads down. The keypart you found whispers the way."))
      basement rooms in
  let rooms := alter (Room_set_required (Some 2)) attic rooms in
  let rooms :=
    alter (Room_set_reveal_text
             (Some "With the second key part a loose board creaks; a ladder descends to the attic."))
      attic rooms in
  let rooms := alter (Room_set_required (Some 3)) study rooms in
  let rooms :=
    alter (Room_set_reveal_text
             (Some "The third keypiece hums and a shelf slides aside, revealing the study."))
      study rooms in
  rooms.

(** [Game.__init__] with the player that [new_game] creates, reading
    [lines] and the random tape [tape]. *)
Definition Game_init (name chosen_class : string) (lines : list string)
    (tape : nat -> Z) : Game :=
  mkGame 0 create_world (mkCreature 1) (mkPlayer name chosen_class 0) ∅ false None
    [] lines tape 0 [].

Definition stun_item_defs : list (string * string * Z * Z) :=
  [ ("Fire Extinguisher", "A heavy canister. A good blunt stun.", 8, 1);
    ("Metal Lamp", "A bedside lamp; swing it to daze.", 5, 2);
    ("Stun Spray", "A small chemical canister; temporarily stuns.", 10, 1);
    ("Rock", "A crude rock found in the yard.", 3, 3) ].

(** [scatter_items_and_keys], given what its shuffles and its choice came to:
    [rooms_copy] is the shuffled room list, [potion_room] the room chosen for
    the potion and [candidate_rooms] the rooms that get the key parts. *)
Definition scatter_items_and_keys (rooms_copy : list nat) (potion_room : nat)
    (candidate_rooms : list nat) : M unit :=
  for_each (imap pair stun_item_defs)
    (fun '(i, (n, d, s, dur)) =>
       match rooms_copy !! (i mod length rooms_copy)%nat with
       | None => raise IndexError
       | Some room => a <- alloc (mkStunItem n d s dur) ;; modify_room room (Room_add_item a)
       end) ;;
  potion <- alloc (mkItem "Health Potion" "Restores some health when used.") ;;
  modify_room potion_room (Room_add_item potion) ;;
  for_each (imap pair candidate_rooms)
    (fun '(i, room) =>
       let idx := Z.of_nat (S i) in
       kp <- alloc (mkKeyPart idx ("A tarnished key fragment (" ++ pretty idx ++ ")")
                      (BACKSTORIES idx)) ;;
       modify_room room (Room_add_item kp)).

(** The part of [new_game] after the class and the name have been read. *)
Definition new_game (chosen_class : string) (rooms_copy : list nat)
    (potion_room : nat) (candidate_rooms : list nat) : M unit :=
  (if decide (chosen_class = "Warrior") then modify_creature (Creature_set_difficulty 1)
   else if decide (chosen_class = "Mage") then modify_creature (Creature_set_difficulty 1)
   else if decide (chosen_class = "Rogue") then modify_creature (Creature_set_difficulty 2)
   else ret tt) ;;
  scatter_items_and_keys rooms_copy potion_room candidate_rooms.

(** ** Sample games *)

Definition tape_of (l : list Z) : nat -> Z := fun n => nth n l 0.

(** A rogue; stun items in the Kitchen, Bedroom, Basement and Foyer, the
    potion in the Living Room, the key parts in Foyer, Living Room, Kitchen. *)
Definition rogue_game (lines : list string) (draws : list Z) : Game :=
  final (new_game "Rogue" [2; 4; 3; 0; 1; 5; 6]%nat 1%nat [0; 1; 2]%nat
           (Game_init "Ada" "Rogue" lines (tape_of draws))).

Definition warrior_game (lines : list string) (draws : list Z) : Game :=
  final (new_game "Warrior" [2; 4; 3; 0; 1; 5; 6]%nat 1%nat [0; 1; 2]%nat
           (Game_init "Bo" "Warrior" lines (tape_of draws))).

(** A game that has just been set up. *)
Definition fresh_game : Game := rogue_game [] [3].

(** A house of two rooms without any exit, the rogue and the creature both
    in the first. *)
Definition sealed_rooms : list Room.t :=
  [ mkRoom "Cell" "A bare cell." "Four walls and no door." 1;
    mkRoom "Vault" "A locked vault." "Nothing moves here." 0 ].

Definition sealed_game (lines : list string) (draws : list Z) : Game :=
  mkGame 0 sealed_rooms (Creature_set_difficulty 2 (mkCreature 1))
    (mkPlayer "Ada" "Rogue" 0) ∅ false (Some 0%nat) [] lines (tape_of draws) 0 [].

(** The rogue in the Foyer, about to run from the creature. *)
Definition flee_game : Game := rogue_game ["3"] [4; 1; 0].

(** The rogue cornered in the cell: a low roll, and a high roll. *)
Definition cornered_low : Game := sealed_game ["3"] [0; 0].
Definition cornered_high : Game := sealed_game ["3"] [4; 0].

(** The rogue cornered with empty hands, picking Stun and picking Use Item. *)
Definition empty_handed_stun : Game := sealed_game ["1"] [].
Definition empty_handed_use : Game := sealed_game ["4"] [].

(** A draw that [random.random] turns into exactly 0.5. *)
Definition half : Z := 4503599627370496.

(** The warrior after three turns: north to the Living Room, east to the
    Kitchen, and the Fire Extinguisher (one use) picked up there; the
    creature has just been placed in the Foyer. *)
Definition armed_game : Game :=
  final (loop 3 run_turn
           (warrior_game ["1"; "1"; "1"; "2"; "2"; "1"] [half; 0; half; half; 11; 0])).

(** Two games of a warrior who picks up the Rock in the Foyer and is joined
    there by the creature on the second turn. In the first the warrior then
    uses the Rock from the action menu; in the second the warrior looks at
    the status, is spotted, and uses the Rock with the Stun option of the
    encounter. The stun rolls are the same: 18 against 16. *)
Definition stun_by_use_item : Game :=
  warrior_game ["2"; "1"; "5"; "1"] [half; 0; 0; 0; 11; 0; 19; 0].

Definition stun_by_tactic : Game :=
  warrior_game ["2"; "1"; "6"; "1"; "1"] [half; 0; 0; 0; 19; 0; 11; 0; 0].

(** The inventory after a removal that tolerates a missing item. *)
Definition without (a : nat) (l : list nat) : list nat :=
  default l (list_remove a l).

(** ** Well-formed houses *)

(** Every exit leads to a room of the house. *)
Definition links_ok (g : Game) : bool :=
  forallb (fun r => forallb (fun x => (x.2 <? length (rooms g))%nat) (Room.adjacent r))
    (rooms g).

(** The creature has been given a room of the house. *)
Definition creature_placed (g : Game) : bool :=
  match creature_room_index g with
  | Some c => (c <? length (rooms g))%nat
  | None => false
  end.

(** ** What a run preserves *)

Definition count (f : Msg -> bool) (l : list Msg) : nat := length (List.filter f l).

Definition is_pull (m : Msg) : bool :=
  match m with MsgStrangePull => true | _ => false end.

Definition is_potion (m : Msg) : bool :=
  match m with MsgPotion _ => true | _ => false end.

Definition is_reveal (i : nat) (m : Msg) : bool :=
  match m with MsgReveal j _ => (i =? j)%nat | _ => false end.

(** How often the secret key has been announced, a potion been drunk, and
    the reveal text of room [i] been shown. *)
Definition pulls (g : Game) : nat := count is_pull (stdout g).
Definition potions (g : Game) : nat := count is_potion (stdout g).
Definition reveals (i : nat) (g : Game) : nat := count (is_reveal i) (stdout g).

Definition b2n (b : bool) : nat := if b then 1%nat else 0%nat.

(** Room [i] still holds a reveal text that can be shown. *)
Definition armed (i : nat) (g : Game) : nat :=
  b2n (truthy_text (Room.reveal_text (room_at g i))).

(** A narration line that none of the counters counts. *)
Definition plain (m : Msg) : Prop :=
  is_pull m = false /\ is_potion m = false /\ forall i, is_reveal i m = false.

(** The invariant of the game state. *)
Record Inv (g : Game) : Prop := mkInv {
  inv_hp : 0 <= Player.hp (player g) <= Player.max_hp (player g);
  inv_attack_power : 0 <= Creature.attack_power (creature g);
  inv_difficulty : 0 <= Creature.difficulty (creature g);
  inv_durability : Forall (fun it => 0 <= durability it) (heap g);
  inv_room_items :
    Forall (fun r => Forall (fun a => (a < length (heap g))%nat) (Room.items r)) (rooms g);
  inv_key_parts :
    Forall (fun a => (a < length (heap g))%nat) (Player.key_parts (player g));
  inv_start_room :
    Forall (fun a => part_id_of (item_at g a) <> Some 4)
      (Room.items (room_at g (start_room g)))
}.

(** [Step g g']: what holds between a state [g] and any later state [g']. *)
Record Step (g g' : Game) : Prop := mkStep {
  step_stdin : (length (stdin g') <= length (stdin g))%nat;
  step_hp :
    Player.hp (player g') <= Player.hp (player g) \/ (potions g < potions g')%nat;
  step_potions : (potions g <= potions g')%nat;
  step_max_hp : Player.max_hp (player g') = Player.max_hp (player g);
  step_flag : secret_key_spawned g = true -> secret_key_spawned g' = true;
  step_pulls :
    (pulls g' + b2n (secret_key_spawned g) = pulls g + b2n (secret_key_spawned g'))%nat;
  step_earned :
    secret_key_spawned g = false -> secret_key_spawned g' = true ->
    has_all_main_keys g' = true;
  step_parts : part_ids g ⊆ part_ids g';
  step_found : found_parts g ⊆ found_parts g';
  step_reveals :
    forall i, (reveals i g' + armed i g' = reveals i g + armed i g)%nat;
  step_start : start_room g' = start_room g;
  step_heap : (length (heap g) <= length (heap g'))%nat;
  step_required :
    forall i, Room.required_unlock_part (room_at g' i)
              = Room.required_unlock_part (room_at g i);
  step_reveals_mono : forall i, (reveals i g <= reveals i g')%nat;
  step_shown :
    forall i, (reveals i g < reveals i g')%nat ->
      exists f, Room.required_unlock_part (room_at g' i) = Some f /\
                f <> 0 /\ f ∈ found_parts g'
}.

(** A halt that is neither a won game nor a loop out of fuel. *)
Definition nowin (h : Halt) : Prop := h <> SystemExit Won /\ h <> Starved.

(** The judgement on an outcome: from [g0] the computation has kept the
    invariant, made a [Step], and if it halted, halted as [H] allows. *)
Definition post {A} (H : Halt -> Prop) (g0 : Game) (o : Outcome A) : Prop :=
  Inv (final o) /\ Step g0 (final o) /\
  match o with Ret _ _ => True | Stop h _ => H h end.

Definition holds {A} (H : Halt -> Prop) (m : M A) : Prop :=
  forall g, Inv g -> post H g (m g).

(** [g'] keeps the invariant and is a later state of [g]. *)
Definition ok (g g' : Game) : Prop := Inv g' /\ Step g g'.

(** [g'] differs from [g] only in fields that neither the invariant nor the
    step relation looks at. *)
Record same_core (g g' : Game) : Prop := mkSame {
  same_hp : Player.hp (player g') = Player.hp (player g);
  same_max_hp : Player.max_hp (player g') = Player.max_hp (player g);
  same_key_parts : Player.key_parts (player g') = Player.key_parts (player g);
  same_attack_power : Creature.attack_power (creature g') = Creature.attack_power (creature g);
  same_difficulty : Creature.difficulty (creature g') = Creature.difficulty (creature g);
  same_heap : heap g' = heap g;
  same_rooms : rooms g' = rooms g;
  same_flag : secret_key_spawned g' = secret_key_spawned g;
  same_start : start_room g' = start_room g;
  same_found : found_parts g ⊆ found_parts g';
  same_pulls : pulls g' = pulls g;
  same_potions : potions g' = potions g;
  same_reveals : forall i, reveals i g' = reveals i g
}.

(** ** More sample games *)

(** A draw that [random.random] turns into the largest double below 1. *)
Definition big : Z := 9007199254740991.

(** The rogue after two turns, holding the Health Potion of the Living
    Room and about to pick it in the Use Item menu. *)
Definition potion_game : Game :=
  final (loop 2 run_turn (rogue_game ["1"; "1"; "2"; "1"; "1"] [half; 0; half; 2])).

(** The condition of the win check in [run]: all main parts held, and the
    player in the start room. *)
Definition at_exit_with_keys (g : Game) : bool :=
  has_all_main_keys g && (Player.current_room (player g) =? start_room g)%nat.

(** The rogue back in the Foyer with the three parts, about to answer the
    question at the door. *)
Definition at_the_door (answer : string) : Game :=
  final (loop 7 run_turn
           (rogue_game
              ["2"; "2"; "1"; "1"; "2"; "2"; "1"; "2"; "2"; "2"; "1"; "1"; "1"; "1"; answer]
              [half; 5; half; half; half; half; big; half; big; half; big])).

(** The condition under which [describe_current_room] shows the reveal
    text of the room the player is in. *)
Definition reveal_due (g : Game) : bool :=
  let r := room_at g (Player.current_room (player g)) in
  match Room.required_unlock_part r with
  | Some p =>
      truthy_part (Some p) && bool_decide (p ∈ found_parts g)
      && truthy_text (Room.reveal_text r)
  | None => false
  end.

(** A rogue in the Foyer about to pick up key part 1. *)
Definition search_game : Game := rogue_game ["2"] [].

(** The rogue takes key part 1, walks to the Kitchen and down into the
    Basement, runs into the creature there and bolts back up at once; then
    goes down a second time and stays. *)
Definition hasty_visit : Game :=
  rogue_game ["2"; "2"; "1"; "1"; "1"; "2"; "1"; "2"; "3"; "1"; "2"; "6"]
    [half; 2; half; half; half; 19; 0; 4; 0; big; half; 0; 0; big; half; 0; 0; big].

(** The rogue picks up the three key parts in the Foyer, the Living Room and
    the Kitchen; at the end of the fifth turn the secret key appears in the
    Bedroom; two more turns follow. *)
Definition key_hunt : Game :=
  rogue_game ["2"; "2"; "1"; "1"; "2"; "2"; "1"; "2"; "2"; "2"; "6"; "6"]
    [half; 5; half; half; half; half; 0; 3; half; half].

(** The warrior who has picked up the Fire Extinguisher (one use) in the
    Kitchen, with the creature put into the Kitchen too; [lines] is the input
    left and [draws] what the random tape holds next. *)
Definition cornered_warrior (lines : list string) (draws : list Z) : Game :=
  set_stdin lines
    (set_creature_room_index (Some 2%nat)
       (final (loop 3 run_turn
                 (warrior_game ["1"; "1"; "1"; "2"; "2"; "1"]
                    ([half; 0; half; half] ++ draws))))).

(** The cornered warrior about to pick Use Item in the encounter and then
    the Fire Extinguisher. *)
Definition last_charge_game : Game := cornered_warrior ["4"; "1"] [11; 0].

(** The same from the start of a game: the warrior takes the Fire
    Extinguisher in the Kitchen and waits; the creature comes in from the
    Living Room and spots the warrior, who picks Use Item and the Fire
    Extinguisher. *)
Definition crash_game : Game :=
  warrior_game ["1"; "1"; "1"; "2"; "2"; "1"; "6"; "6"; "4"; "1"]
    [half; 0; half; half; 0; 0; 0; 1; 19; 0; 0; 0].

(** * Properties *)

(** ** Equations of the primitives *)

(** Unfolds the monad and the primitive state updates. *)
Ltac msimpl :=
  cbv beta iota delta
    [bind ret gets modify raise sys_exit starve present when id
     modify_player modify_creature modify_room modify_item].

(** Reduces the fields of an updated game. *)
Ltac gsimpl :=
  unfold room_at, item_at;
  cbn [start_room rooms creature player found_parts secret_key_spawned
       creature_room_index heap stdin rng rng_pos stdout
       set_rooms set_creature set_player set_found_parts set_secret_key_spawned
       set_creature_room_index set_heap set_stdin set_rng_pos set_stdout].

(** Decides the comparisons of a chosen option with string literals. *)
Ltac pick_option :=
  repeat match goal with
    | |- context [decide (String ?a ?x = String ?b ?y)] =>
        destruct (decide (String a x = String b y)) as [?|?]; [try discriminate|try done]
    end.

Section equations.
Context {A B : Type}.
Implicit Types (g : Game) (k : A -> M B).

Lemma bind_ret (a : A) k g : bind (ret a) k g = k a g.
Proof. reflexivity. Qed.

Lemma bind_gets (f : Game -> A) k g : bind (gets f) k g = k (f g) g.
Proof. reflexivity. Qed.

Lemma bind_modify (f : Game -> Game) (k : unit -> M B) g :
  bind (modify f) k g = k tt (f g).
Proof. reflexivity. Qed.

Lemma bind_present (m : Msg) (k : unit -> M B) g :
  bind (present m) k g = k tt (set_stdout (stdout g ++ [m]) g).
Proof. reflexivity. Qed.

Lemma bind_stop (m : M A) k g h g' : m g = Stop h g' -> bind m k g = Stop h g'.
Proof. unfold bind. now intros ->. Qed.

Lemma bind_step (m : M A) k g a g' : m g = Ret a g' -> bind m k g = k a g'.
Proof. unfold bind. now intros ->. Qed.
End equations.

Lemma bind_assoc {A B C} (m : M A) (k : A -> M B) (k' : B -> M C) g :
  bind (bind m k) k' g = bind m (fun a => bind (k a) k') g.
Proof. unfold bind. now destruct (m g). Qed.

(** A roll of a real die reads one cell of the tape. *)
Lemma roll_dice_eq (n : Z) g :
  1 <= n ->
  roll_dice n g = Ret (1 + rng g (rng_pos g) mod n) (set_rng_pos (S (rng_pos g)) g).
Proof.
  intros Hn. unfold roll_dice, randint.
  destruct (n <? 1) eqn:E1; [lia|].
  destruct (n <? 1) eqn:E2; [lia|].
  cbn. do 3 f_equal. lia.
Qed.

Lemma roll_dice_range (n : Z) g a g' :
  1 <= n -> roll_dice n g = Ret a g' -> 1 <= a <= n.
Proof.
  intros Hn. rewrite roll_dice_eq by done. intros [= <- _].
  pose proof (Z.mod_pos_bound (rng g (rng_pos g)) n). lia.
Qed.

Lemma random_choice_eq {A} (seq : list A) (d : A) g :
  seq <> [] ->
  random_choice seq g =
    Ret (nth (Z.to_nat (rng g (rng_pos g) mod Z.of_nat (length seq))) seq d)
      (set_rng_pos (S (rng_pos g)) g).
Proof.
  destruct seq as [|x t]; [done|]. intros _. cbn -[nth Z.of_nat Z.modulo].
  f_equal. apply nth_indep.
  pose proof (Z.mod_pos_bound (rng g (rng_pos g)) (Z.of_nat (length (x :: t)))).
  cbn [length] in *. lia.
Qed.

Lemma random_choice_In {A} (seq : list A) g a g' :
  random_choice seq g = Ret a g' -> In a seq /\ g' = set_rng_pos (S (rng_pos g)) g.
Proof.
  destruct seq as [|x t]; [done|].
  rewrite (random_choice_eq _ x) by done.
  set (n := Z.to_nat _). intros Heq.
  assert (a = nth n (x :: t) x) as -> by congruence.
  split; [|congruence].
  apply nth_In. subst n.
  pose proof (Z.mod_pos_bound (rng g (rng_pos g)) (Z.of_nat (length (x :: t)))).
  cbn [length] in *. lia.
Qed.

(** ** Detection *)

(** C2: detection is a function of the two rolled dice: the creature
    detects the player exactly when d20 + difficulty*2 exceeds
    agility + hiding_spots*1 + (4 when hiding) + d6; [detect_player] rolls
    the d20 and then the d6 and does nothing else; and with a creature roll
    of 15 (a 13 on the d20 at difficulty 1), agility 5, two hiding spots, a
    hiding player and a 3 on the d6 the hide score is 14 and the player is
    detected. *)
Theorem detection_is_deterministic :
  (forall d20 d6 c p r,
     detect_player_with d20 d6 c p r =
       (bool_decide
          (d20 + Creature.difficulty c * 2 >
           Player.agility p + Room.hiding_spots r * 1
           + (if Player.is_hiding p then 4 else 0) + d6),
        d20 + Creature.difficulty c * 2,
        Player.agility p + Room.hiding_spots r * 1
        + (if Player.is_hiding p then 4 else 0) + d6)) /\
  (forall room g,
     Creature_detect_player room g =
       Ret (detect_player_with (1 + rng g (rng_pos g) mod 20)
              (1 + rng g (S (rng_pos g)) mod 6)
              (creature g) (player g) (room_at g room))
         (set_rng_pos (S (S (rng_pos g))) g)) /\
  (forall c p r,
     Creature.difficulty c = 1 -> Player.agility p = 5 ->
     Room.hiding_spots r = 2 -> Player.is_hiding p = true ->
     detect_player_with 13 3 c p r = (true, 15, 14)).
Proof.
  split; [|split].
  - intros. unfold detect_player_with.
    assert (Hgt : forall a b, (a >? b) = bool_decide (a > b)).
    { intros a b. case_bool_decide.
      - apply Z.gtb_lt. lia.
      - rewrite Z.gtb_ltb. apply Z.ltb_ge. lia. }
    rewrite Hgt. destruct (Player.is_hiding p); [done|].
    now rewrite Z.add_0_r.
  - intros. unfold Creature_detect_player.
    erewrite bind_step by (apply roll_dice_eq; lia).
    rewrite bind_gets.
    erewrite bind_step by (apply roll_dice_eq; lia).
    reflexivity.
  - intros c p r Hd Ha Hh Hi. unfold detect_player_with.
    rewrite Hd, Ha, Hh, Hi. reflexivity.
Qed.

Lemma detection_is_deterministic_witness :
  detect_player_with 13 3 (mkCreature 1) (Player_set_is_hiding true (mkPlayer "Eve" "Scout" 0))
    (mkRoom "Living Room" "" "" 2) = (true, 15, 14).
Proof.
  apply (proj2 (proj2 detection_is_deterministic)); reflexivity.
Defined.

(** ** The creature's first location *)

Lemma possible_nonempty (cur n : nat) :
  (2 <= n)%nat ->
  List.filter (fun i => negb (i =? cur)%nat) (seq 0 n) <> [].
Proof.
  intros Hn Hnil.
  assert (Hin : forall i, In i (seq 0 n) -> i = cur).
  { intros i Hi. destruct (decide (i = cur)) as [|Hne]; [done|].
    assert (In i (List.filter (fun i => negb (i =? cur)%nat) (seq 0 n))) as Hf.
    { apply filter_In. split; [done|]. apply negb_true_iff, Nat.eqb_neq. done. }
    rewrite Hnil in Hf. destruct Hf. }
  assert (0%nat = cur) by (apply Hin, in_seq; lia).
  assert (1%nat = cur) by (apply Hin, in_seq; lia).
  lia.
Qed.

(** C10: the first query of the creature's position, in a house of at least
    two rooms, draws once, returns a room of the house that is not the
    player's current room, and remembers it; a later query returns the
    remembered room and draws nothing. *)
Theorem creature_starts_elsewhere (g : Game) :
  creature_room_index g = None ->
  (2 <= length (rooms g))%nat ->
  exists i,
    get_creature_location g =
      Ret i (set_creature_room_index (Some i) (set_rng_pos (S (rng_pos g)) g)) /\
    i <> Player.current_room (player g) /\
    (i < length (rooms g))%nat /\
    get_creature_location
      (set_creature_room_index (Some i) (set_rng_pos (S (rng_pos g)) g)) =
      Ret i (set_creature_room_index (Some i) (set_rng_pos (S (rng_pos g)) g)).
Proof.
  intros Hnone Hlen.
  set (possible := List.filter (fun i => negb (i =? Player.current_room (player g))%nat)
                     (seq 0 (length (rooms g)))).
  assert (Hne : possible <> []) by (apply possible_nonempty; done).
  destruct (random_choice possible g) as [i g'|h g'] eqn:Hc.
  2:{ destruct possible; [done|]. discriminate Hc. }
  pose proof Hc as Hc'.
  apply random_choice_In in Hc' as [Hin ->].
  apply filter_In in Hin as [Hseq Hneq].
  apply in_seq in Hseq. apply negb_true_iff, Nat.eqb_neq in Hneq.
  exists i.
  assert (Hlt : (i <? length (rooms g))%nat = true) by (apply Nat.ltb_lt; lia).
  split; [|split; [done|split; [lia|]]].
  - unfold get_creature_location, rooms_getitem. msimpl.
    rewrite Hnone. fold possible. rewrite Hc. simpl.
    now rewrite Hlt.
  - unfold get_creature_location, rooms_getitem. msimpl. simpl.
    now rewrite Hlt.
Qed.

Lemma creature_starts_elsewhere_witness :
  exists i,
    get_creature_location fresh_game =
      Ret i (set_creature_room_index (Some i)
               (set_rng_pos (S (rng_pos fresh_game)) fresh_game)) /\
    i <> Player.current_room (player fresh_game) /\
    (i < length (rooms fresh_game))%nat /\
    get_creature_location
      (set_creature_room_index (Some i)
         (set_rng_pos (S (rng_pos fresh_game)) fresh_game)) =
      Ret i (set_creature_room_index (Some i)
               (set_rng_pos (S (rng_pos fresh_game)) fresh_game)).
Proof.
  apply (creature_starts_elsewhere fresh_game).
  - reflexivity.
  - vm_compute. lia.
Defined.

(** ** Stepping through the encounter *)

(** Runs the primitive steps at the head of a computation. *)
Ltac mstep :=
  unfold modify_player, modify_creature, modify_room, modify_item, id;
  repeat (progress (rewrite ?bind_assoc, ?bind_gets, ?bind_modify, ?bind_present, ?bind_ret));
  gsimpl.

Lemma length_values {V} (d : list (string * V)) : length (values d) = length d.
Proof. unfold values. apply length_fmap. Qed.

Lemma choose_head options choice rest g :
  stdin g = choice :: rest -> choice <> "" -> choice ∈ options ->
  choose options g = Ret choice (set_stdin rest g).
Proof.
  intros Hs Hne Hin. unfold choose. rewrite Hs. cbn.
  destruct (decide (choice = "")); [done|].
  destruct (decide (choice ∈ options)); [done|done].
Qed.

Lemma random_random_eq g :
  random_random g =
    Ret (mkDyadic (rng g (rng_pos g) mod 2 ^ 53) 53) (set_rng_pos (S (rng_pos g)) g).
Proof. reflexivity. Qed.

Lemma Creature_attack_eq g :
  0 <= Creature.difficulty (creature g) ->
  Creature_attack g =
    let dmg := Creature.attack_power (creature g)
               + rng g (rng_pos g) mod (Creature.difficulty (creature g) + 1) in
    Ret dmg (set_player (Player_set_hp (Z.max 0 (Player.hp (player g) - dmg)) (player g))
               (set_rng_pos (S (rng_pos g)) g)).
Proof.
  intros Hd. unfold Creature_attack, randint. rewrite bind_gets.
  destruct (Z.ltb_spec (Creature.difficulty (creature g)) 0); [lia|].
  msimpl. unfold next_random. cbn -[Z.add Z.sub Z.modulo Z.max].
  now rewrite Z.sub_0_r.
Qed.

Lemma after_attack_eq g :
  after_attack g = Ret (if Player.hp (player g) <=? 0 then Return else Continue) g.
Proof. unfold after_attack. msimpl. now destruct (_ <=? _). Qed.

Lemma rooms_index_eq room g :
  (room < length (rooms g))%nat -> rooms_index room g = Ret room g.
Proof.
  intros H. unfold rooms_index. msimpl.
  now destruct (Nat.ltb_spec room (length (rooms g))); [|lia].
Qed.

Lemma links_ok_target g room dest :
  links_ok g = true -> In dest (values (Room.adjacent (room_at g room))) ->
  (dest < length (rooms g))%nat.
Proof.
  unfold links_ok, room_at. intros Hok Hin.
  rewrite forallb_forall in Hok.
  destruct (rooms g !! room) as [r|] eqn:Hr.
  - rewrite (list_lookup_total_correct _ _ _ Hr) in Hin.
    assert (Hr' : In r (rooms g)).
    { apply list_elem_of_In, list_elem_of_lookup. eauto. }
    specialize (Hok r Hr'). rewrite forallb_forall in Hok.
    unfold values in Hin. apply list_elem_of_In, list_elem_of_fmap in Hin as [x [-> Hx]].
    apply list_elem_of_In, Hok in Hx. now apply Nat.ltb_lt in Hx.
  - rewrite list_lookup_total_alt, Hr in Hin. destruct Hin.
Qed.

(** ** Flee *)

(** C6, as amended: when the player picks Flee (option 3), the roll is
    agility + d6 against 10 + difficulty. If the roll is higher and the room
    has an exit, the player moves to the exit picked by the next draw, the
    hiding flag is cleared, the round leaves the loop, and the creature is
    put in that same room exactly when the draw after that is below 0.6.
    If the roll is higher and the room has no exit, the game reports that
    there is nowhere to run and the creature lands an ordinary attack. If the
    roll is not higher, with or without exits, the game reports the failed
    escape (and not that there is nowhere to run) and the creature lands an
    ordinary attack. *)
Theorem flee_tactic (g : Game) (room creature_room : nat) (rest : list string) :
  stdin g = "3" :: rest ->
  0 <= Creature.difficulty (creature g) ->
  links_ok g = true ->
  let d6 := 1 + rng g (rng_pos g) mod 6 in
  let escape_roll := Player.agility (player g) + d6 in
  let adj := Room.adjacent (room_at g room) in
  let k1 := rng g (S (rng_pos g)) in
  let dmg :=
    Creature.attack_power (creature g) + k1 mod (Creature.difficulty (creature g) + 1) in
  let hp' := Z.max 0 (Player.hp (player g) - dmg) in
  (escape_roll > 10 + Creature.difficulty (creature g) -> adj <> [] ->
   let dest := nth (Z.to_nat (k1 mod Z.of_nat (length adj))) (values adj) 0%nat in
   let follows :=
     dyadic_ltb (mkDyadic (rng g (S (S (rng_pos g))) mod 2 ^ 53) 53) float_0_6 in
   exists g',
     encounter_round room creature_room g = Ret Break g' /\
     Player.current_room (player g') = dest /\
     In dest (values adj) /\
     Player.is_hiding (player g') = false /\
     Player.hp (player g') = Player.hp (player g) /\
     creature_room_index g' = (if follows then Some dest else creature_room_index g) /\
     stdout g' =
       (stdout g ++
        [MsgOptions; MsgTryMove escape_roll; MsgBolt (Room.name (room_at g dest))])%list) /\
  (escape_roll > 10 + Creature.difficulty (creature g) -> adj = [] ->
   exists g',
     encounter_round room creature_room g =
       Ret (if hp' <=? 0 then Return else Continue) g' /\
     Player.hp (player g') = hp' /\
     Player.current_room (player g') = Player.current_room (player g) /\
     creature_room_index g' = creature_room_index g /\
     stdout g' =
       (stdout g ++
        [MsgOptions; MsgTryMove escape_roll; MsgNowhereToRun; MsgAttackDeals dmg])%list) /\
  (escape_roll <= 10 + Creature.difficulty (creature g) ->
   exists g',
     encounter_round room creature_room g =
       Ret (if hp' <=? 0 then Return else Continue) g' /\
     Player.hp (player g') = hp' /\
     Player.current_room (player g') = Player.current_room (player g) /\
     creature_room_index g' = creature_room_index g /\
     stdout g' =
       (stdout g ++ [MsgOptions; MsgTryMove escape_roll; MsgFailEscape dmg])%list).
Proof.
  intros Hin Hd Hok d6 escape_roll adj k1 dmg hp'.
  unfold room_at in *.
  unfold encounter_round.
  rewrite bind_present.
  erewrite bind_step by (apply choose_head; [exact Hin|done|set_solver]).
  unfold encounter_tactic. pick_option.
  rewrite bind_gets.
  erewrite bind_step by (apply roll_dice_eq; lia).
  rewrite bind_present. unfold id. gsimpl.
  fold d6. fold escape_roll. fold adj.
  split; [|split].
  - intros Hroll Hadj.
    destruct (Z.gtb_spec escape_roll (10 + Creature.difficulty (creature g))); [|lia].
    destruct adj as [|x t] eqn:Eadj; [done|]. rewrite <- Eadj. clear Hadj.
    assert (Hv : values adj <> []) by (rewrite Eadj; done).
    erewrite bind_step by (apply (random_choice_eq _ 0%nat); done).
    gsimpl. fold k1. rewrite !length_values.
    set (dest := nth _ _ _).
    assert (Hdest : In dest (values adj)).
    { apply nth_In. rewrite length_values.
      pose proof (Z.mod_pos_bound k1 (Z.of_nat (length adj))).
      rewrite Eadj in *. cbn [length] in *. lia. }
    mstep.
    erewrite bind_step by apply random_random_eq.
    gsimpl. set (follows := dyadic_ltb _ _).
    destruct follows.
    + unfold when. rewrite bind_assoc.
      erewrite bind_step.
      2:{ apply rooms_index_eq. gsimpl.
          apply (links_ok_target g room); [exact Hok|exact Hdest]. }
      mstep.
      eexists. split; [reflexivity|]. gsimpl. cbn. rewrite <- !app_assoc.
      repeat split; auto.
    + unfold when. rewrite bind_ret.
      eexists. split; [reflexivity|]. gsimpl. cbn. rewrite <- !app_assoc.
      repeat split; auto.
  - intros Hroll Hadj.
    destruct (Z.gtb_spec escape_roll (10 + Creature.difficulty (creature g))); [|lia].
    rewrite Hadj.
    rewrite bind_present.
    erewrite bind_step by (apply Creature_attack_eq; gsimpl; lia).
    gsimpl. fold k1. fold dmg. fold hp'.
    rewrite bind_present, after_attack_eq. gsimpl. cbn [Player.hp Player_set_hp].
    eexists. split; [reflexivity|]. gsimpl. cbn. rewrite <- !app_assoc.
    repeat split; auto.
  - intros Hroll.
    destruct (Z.gtb_spec escape_roll (10 + Creature.difficulty (creature g))); [lia|].
    erewrite bind_step by (apply Creature_attack_eq; gsimpl; lia).
    gsimpl. fold k1. fold dmg. fold hp'.
    rewrite bind_present, after_attack_eq. gsimpl. cbn [Player.hp Player_set_hp].
    eexists. split; [reflexivity|]. gsimpl. cbn. rewrite <- !app_assoc.
    repeat split; auto.
Qed.

Lemma flee_tactic_witness :
  exists g',
    encounter_round 0 0 flee_game = Ret Break g' /\
    Player.current_room (player g') = 1%nat /\
    creature_room_index g' = Some 1%nat.
Proof.
  destruct (flee_tactic flee_game 0 0 [] eq_refl ltac:(vm_compute; discriminate) eq_refl)
    as [Hsuccess _].
  destruct Hsuccess as (g' & Hrun & Hroom & _ & _ & _ & Hcreature & _).
  - vm_compute. reflexivity.
  - vm_compute. discriminate.
  - exists g'. split; [exact Hrun|]. split; [exact Hroom|exact Hcreature].
Defined.

(** C6, the claim as stated fails: in a room without exits a Flee whose roll
    is too low is answered with the failed-escape line and an attack; the
    game never says that there is nowhere to run. *)
Lemma flee_low_roll_is_silent_about_exits :
  Room.adjacent (room_at cornered_low 0) = [] /\
  exists g',
    encounter_round 0 0 cornered_low = Ret Continue g' /\
    stdout g' = [MsgOptions; MsgTryMove 9; MsgFailEscape 2] /\
    ~ In MsgNowhereToRun (stdout g').
Proof.
  split; [reflexivity|].
  eexists. split; [vm_compute; reflexivity|]. split; [reflexivity|].
  cbn. intros [H|[H|[H|[]]]]; discriminate H.
Qed.

(** ** Empty resources *)

(** C9, as amended: in the encounter loop, picking Stun without a stun item
    and picking Use Item with an empty inventory are turned down for free:
    the round only reads the choice and prints, every other field of the game
    is as before, and the loop goes on. Picking Flee in a room without exits
    is not free: whatever the roll, the creature lands an ordinary attack. *)
Theorem empty_resource_guards (g : Game) (room creature_room : nat) (rest : list string) :
  (stdin g = "1" :: rest -> stun_items g = [] ->
   encounter_round room creature_room g =
     Ret Continue
       (set_stdout (stdout g ++ [MsgOptions; MsgNothingToStun]) (set_stdin rest g))) /\
  (stdin g = "4" :: rest -> Player.inventory (player g) = [] ->
   encounter_round room creature_room g =
     Ret Continue
       (set_stdout (stdout g ++ [MsgOptions; MsgNoItemsToUse]) (set_stdin rest g))) /\
  (stdin g = "3" :: rest -> 0 <= Creature.difficulty (creature g) ->
   Room.adjacent (room_at g room) = [] ->
   let dmg :=
     Creature.attack_power (creature g)
     + rng g (S (rng_pos g)) mod (Creature.difficulty (creature g) + 1) in
   exists ctl g',
     encounter_round room creature_room g = Ret ctl g' /\
     Player.hp (player g') = Z.max 0 (Player.hp (player g) - dmg) /\
     (0 < Player.hp (player g) -> 0 < Creature.attack_power (creature g) ->
      Player.hp (player g') < Player.hp (player g))).
Proof.
  split; [|split].
  - intros Hin Hnone. unfold encounter_round.
    rewrite bind_present.
    erewrite bind_step by (apply choose_head; [exact Hin|done|set_solver]).
    unfold encounter_tactic. pick_option. rewrite bind_gets. unfold id.
    change (stun_items (set_stdin rest (set_stdout (stdout g ++ [MsgOptions]) g)))
      with (stun_items g).
    rewrite Hnone. mstep. rewrite <- app_assoc. reflexivity.
  - intros Hin Hnone. unfold encounter_round.
    rewrite bind_present.
    erewrite bind_step by (apply choose_head; [exact Hin|done|set_solver]).
    unfold encounter_tactic. pick_option. unfold action_use_item. rewrite bind_assoc. mstep.
    rewrite Hnone. mstep. rewrite <- app_assoc. reflexivity.
  - intros Hin Hd Hadj dmg. unfold room_at in *. unfold encounter_round.
    rewrite bind_present.
    erewrite bind_step by (apply choose_head; [exact Hin|done|set_solver]).
    unfold encounter_tactic. pick_option. rewrite bind_gets.
    erewrite bind_step by (apply roll_dice_eq; lia).
    rewrite bind_present. unfold id. gsimpl. rewrite Hadj.
    assert (Hhit : forall hp, 0 < hp -> 0 < Creature.attack_power (creature g) ->
                     Z.max 0 (hp - dmg) < hp).
    { intros hp Hhp Hap.
      pose proof (Z.mod_pos_bound (rng g (S (rng_pos g)))
                    (Creature.difficulty (creature g) + 1)).
      subst dmg. lia. }
    destruct (_ >? _).
    + rewrite bind_present.
      erewrite bind_step by (apply Creature_attack_eq; gsimpl; lia).
      gsimpl. fold dmg. rewrite bind_present, after_attack_eq.
      do 2 eexists. split; [reflexivity|]. gsimpl. cbn. split; [done|apply Hhit].
    + erewrite bind_step by (apply Creature_attack_eq; gsimpl; lia).
      gsimpl. fold dmg. rewrite bind_present, after_attack_eq.
      do 2 eexists. split; [reflexivity|]. gsimpl. cbn. split; [done|apply Hhit].
Qed.

Lemma empty_resource_guards_witness :
  encounter_round 0 0 empty_handed_stun =
    Ret Continue
      (set_stdout (stdout empty_handed_stun ++ [MsgOptions; MsgNothingToStun])
         (set_stdin [] empty_handed_stun)) /\
  encounter_round 0 0 empty_handed_use =
    Ret Continue
      (set_stdout (stdout empty_handed_use ++ [MsgOptions; MsgNoItemsToUse])
         (set_stdin [] empty_handed_use)) /\
  exists ctl g',
    encounter_round 0 0 cornered_high = Ret ctl g' /\
    Player.hp (player g') < Player.hp (player cornered_high).
Proof.
  split; [|split].
  - apply (proj1 (empty_resource_guards empty_handed_stun 0 0 [])); reflexivity.
  - apply (proj1 (proj2 (empty_resource_guards empty_handed_use 0 0 []))); reflexivity.
  - destruct (proj2 (proj2 (empty_resource_guards cornered_high 0 0 [])) eq_refl)
      as (ctl & g' & Hrun & _ & Hless).
    + vm_compute. discriminate.
    + reflexivity.
    + exists ctl, g'. split; [exact Hrun|]. apply Hless; vm_compute; reflexivity.
Defined.

(** C9, the claim as stated fails: picking Flee in a room without exits is
    not turned down for free; the creature attacks and the player loses hit
    points. *)
Lemma flee_without_exits_costs_hp :
  Room.adjacent (room_at cornered_high 0) = [] /\
  Player.hp (player cornered_high) = 11 /\
  exists g',
    encounter_round 0 0 cornered_high = Ret Continue g' /\
    Player.hp (player g') = 9 /\
    stdout g' = [MsgOptions; MsgTryMove 13; MsgNowhereToRun; MsgAttackDeals 2].
Proof.
  split; [reflexivity|]. split; [reflexivity|].
  eexists. split; [vm_compute; reflexivity|]. split; reflexivity.
Qed.

(** ** Stun items *)

Lemma list_remove_None a l : list_remove a l = None <-> a ∉ l.
Proof.
  induction l as [|x t IH]; cbn.
  - split; [intros _; apply not_elem_of_nil|done].
  - destruct (decide (x = a)) as [->|Hne].
    + split; [done|]. intros H. exfalso. apply H. left.
    + destruct (list_remove a t) eqn:E; cbn.
      * split; [done|]. intros H. exfalso.
        assert (a ∉ t) as Ht by (intros ?; apply H; now right).
        apply IH in Ht. done.
      * split; [|done]. intros _ [->|H]%elem_of_cons; [done|].
        now apply IH in H.
Qed.

Lemma list_remove_Some a l l' :
  list_remove a l = Some l' -> NoDup l ->
  (a ∉ l') /\ (forall x, x ∈ l' <-> (x ∈ l) /\ x <> a).
Proof.
  revert l'. induction l as [|x t IH]; intros l'; cbn; [done|].
  destruct (decide (x = a)) as [->|Hne].
  - intros [= <-] [Hnotin Hnd]%NoDup_cons. split; [done|].
    intros y. rewrite elem_of_cons. split.
    + intros Hy. split; [now right|]. intros ->. done.
    + intros [[->|Hy] Hne]; done.
  - destruct (list_remove a t) as [t'|] eqn:E; cbn; [|done].
    intros [= <-] [Hnotin Hnd]%NoDup_cons.
    destruct (IH t' eq_refl Hnd) as [Ha Hiff]. split.
    + intros [->|H]%elem_of_cons; done.
    + intros y. rewrite !elem_of_cons, Hiff. split.
      * intros [->|[Hy Hya]]; [split; [now left|done]|split; [now right|done]].
      * intros [[->|Hy] Hya]; [now left|right; done].
Qed.

Lemma inventory_remove_eq a g :
  inventory_remove a g =
    match list_remove a (Player.inventory (player g)) with
    | Some l => Ret tt (set_player (Player_set_inventory l (player g)) g)
    | None => Stop (Raised ValueError) g
    end.
Proof. unfold inventory_remove. msimpl. now destruct (list_remove _ _). Qed.

Lemma tolerant_remove_eq a g :
  try_except (inventory_remove a) only_ValueError (ret tt) g =
    Ret tt (set_player (Player_set_inventory
                          (without a (Player.inventory (player g))) (player g)) g).
Proof.
  unfold try_except, without. rewrite inventory_remove_eq.
  destruct (list_remove _ _); cbn; [done|].
  now destruct g as [? ? ? []].
Qed.

Lemma remove_if_used_up_eq a g :
  remove_if_used_up a g =
    Ret tt (if durability (item_at g a) <=? 0
            then set_player (Player_set_inventory
                               (without a (Player.inventory (player g))) (player g)) g
            else g).
Proof.
  unfold remove_if_used_up, try_except, without. rewrite bind_gets. unfold id.
  destruct (_ <=? _); [|done].
  rewrite inventory_remove_eq.
  destruct (list_remove _ _); cbn; [done|].
  now destruct g as [? ? ? []].
Qed.

Lemma get_creature_location_eq g c :
  creature_room_index g = Some c -> (c < length (rooms g))%nat ->
  get_creature_location g = Ret c g.
Proof.
  intros Hc Hlt. apply Nat.ltb_lt in Hlt.
  unfold get_creature_location, rooms_getitem. msimpl. now rewrite Hc, Hlt.
Qed.

Lemma get_creature_location_placed g :
  creature_placed g = true ->
  exists c, creature_room_index g = Some c /\ (c < length (rooms g))%nat /\
            get_creature_location g = Ret c g.
Proof.
  unfold creature_placed. destruct (creature_room_index g) as [c|] eqn:Hc; [|done].
  intros Hlt. exists c. split; [done|]. split; [now apply Nat.ltb_lt|].
  unfold get_creature_location, rooms_getitem. msimpl. now rewrite Hc, Hlt.
Qed.

Lemma item_at_lookup g a it : heap g !! a = Some it -> item_at g a = it.
Proof. intros H. unfold item_at. now apply list_lookup_total_correct. Qed.

Lemma alter_const_lookup {A} (l : list A) i x y :
  l !! i = Some x -> alter (fun _ => y) i l = <[i:=y]> l.
Proof.
  revert i. induction l as [|z t IH]; intros [|i]; cbn; try done.
  intros H. f_equal. now apply IH.
Qed.

Lemma wander_target_valid g c t :
  links_ok g = true -> In t (values (Room.adjacent (rooms g !!! c))) ->
  (t < length (rooms g))%nat.
Proof. intros. now apply (links_ok_target g c). Qed.

Lemma random_choice_ex {A} (seq : list A) g :
  seq <> [] ->
  exists a, In a seq /\ random_choice seq g = Ret a (set_rng_pos (S (rng_pos g)) g).
Proof.
  intros Hne. destruct (random_choice seq g) as [a g'|h g'] eqn:Hc.
  - pose proof Hc as Hc'. apply random_choice_In in Hc' as [Hin ->]. eauto.
  - destruct seq; [done|discriminate Hc].
Qed.

Lemma attempt_stun_usable (g : Game) (a : nat) (it : Item.t) (s d : Z) :
  heap g !! a = Some it -> Item.kind it = Stun s d -> 1 <= d ->
  creature_placed g = true -> links_ok g = true ->
  let d20 := 1 + rng g (rng_pos g) mod 20 in
  let player_roll := d20 + s + Player.strength (player g) / 2 in
  let d6 := 1 + rng g (S (rng_pos g)) mod 6 in
  let creature_defense := 12 + Creature.difficulty (creature g) * 3 + d6 in
  let success := player_roll >=? creature_defense in
  let long := (player_roll >=? creature_defense + 8) || (Player.magic (player g) >? 6) in
  exists g',
    attempt_stun a g = Ret success g' /\
    heap g' = <[a := set_durability (d - 1) it]> (heap g) /\
    Player.inventory (player g') =
      (if d - 1 <=? 0 then without a (Player.inventory (player g))
       else Player.inventory (player g)) /\
    Player.hp (player g') = Player.hp (player g) /\
    Player.current_room (player g') = Player.current_room (player g) /\
    rooms g' = rooms g /\ creature g' = creature g /\ stdin g' = stdin g /\
    (success && long = false -> creature_room_index g' = creature_room_index g) /\
    (success && long = true ->
     forall c, creature_room_index g = Some c ->
       Room.adjacent (room_at g c) <> [] ->
       exists t, In t (values (Room.adjacent (room_at g c))) /\
                 creature_room_index g' = Some t).
Proof.
  intros Hit Hkind Hd Hplaced Hok d20 player_roll d6 creature_defense success long.
  unfold attempt_stun. rewrite bind_gets. unfold id.
  rewrite (item_at_lookup _ _ _ Hit).
  unfold StunItem_use, durability, strength_of, set_durability. rewrite Hkind.
  destruct (Z.leb_spec d 0); [lia|].
  unfold strength_of. cbn [Item.kind negb].
  mstep. rewrite (alter_const_lookup _ _ it) by done.
  erewrite bind_step by (apply roll_dice_eq; lia).
  erewrite bind_step by (apply roll_dice_eq; lia).
  mstep. fold d20. fold player_roll. fold d6. fold creature_defense. fold success.
  remember (Item.mk (Item.name it) (Item.desc it) (Stun s (d - 1))) as used eqn:Eused.
  assert (Hused : durability (item_at (set_heap (<[a:=used]> (heap g)) g) a) = d - 1).
  { unfold item_at. cbn [heap set_heap].
    rewrite list_lookup_total_insert_eq; [now rewrite Eused|].
    now apply lookup_lt_Some in Hit. }
  unfold item_at in Hused. cbn [heap set_heap] in Hused.
  destruct success eqn:Hsucc.
  - mstep. fold long. destruct long eqn:Hlong; cbn [andb].
    + mstep.
      destruct (get_creature_location_placed g Hplaced) as (c & Hc & Hclt & Hloc).
      erewrite bind_step by (apply (get_creature_location_eq _ c); gsimpl; done).
      mstep.
      destruct (Room.adjacent (rooms g !!! c)) as [|x t] eqn:Hadj.
      * mstep. rewrite ?bind_assoc. erewrite bind_step by apply remove_if_used_up_eq.
        mstep. gsimpl. rewrite Hused.
        eexists. split; [reflexivity|].
        destruct (d - 1 <=? 0); gsimpl; cbn; repeat split; try done.
        all: intros _ c' Hc'; rewrite Hc in Hc'; injection Hc' as <-;
          unfold room_at; rewrite Hadj; done.
      * mstep.
        erewrite bind_step by (apply (get_creature_location_eq _ c); gsimpl; done).
        mstep. rewrite Hadj.
        match goal with
        | |- context [bind (random_choice ?l) _ ?st] =>
            destruct (random_choice_ex l st) as (tg & Hin & Hch); [done|]
        end.
        assert (Htg : (tg < length (rooms g))%nat).
        { apply (wander_target_valid g c); [done|]. now rewrite Hadj. }
        erewrite bind_step by exact Hch.
        mstep.
        erewrite bind_step by (apply rooms_index_eq; gsimpl; done).
        mstep. rewrite ?bind_assoc. erewrite bind_step by apply remove_if_used_up_eq.
        mstep. gsimpl. rewrite Hused.
        eexists. split; [reflexivity|].
        destruct (d - 1 <=? 0); gsimpl; cbn; repeat split; try done.
        all: intros _ c' Hc' _; rewrite Hc in Hc'; injection Hc' as <-;
          exists tg; unfold room_at; rewrite Hadj; done.
    + rewrite bind_ret. rewrite ?bind_assoc.
      erewrite bind_step by apply remove_if_used_up_eq.
      mstep. gsimpl. rewrite Hused.
      eexists. split; [reflexivity|].
      destruct (d - 1 <=? 0); gsimpl; cbn; repeat split; done.
  - mstep. rewrite ?bind_assoc. erewrite bind_step by apply remove_if_used_up_eq.
    mstep. gsimpl. rewrite Hused.
    eexists. split; [reflexivity|].
    destruct (d - 1 <=? 0); gsimpl; cbn; repeat split; done.
Qed.

Lemma attempt_stun_depleted (g : Game) (a : nat) (it : Item.t) (s d : Z) :
  heap g !! a = Some it -> Item.kind it = Stun s d -> d <= 0 ->
  attempt_stun a g =
    Ret false
      (set_player (Player_set_inventory (without a (Player.inventory (player g)))
                     (player g))
         (set_stdout (stdout g ++ [MsgDepleted]) g)).
Proof.
  intros Hit Hkind Hd.
  unfold attempt_stun. rewrite bind_gets. unfold id.
  rewrite (item_at_lookup _ _ _ Hit).
  unfold StunItem_use, durability. rewrite Hkind.
  destruct (Z.leb_spec d 0); [|lia].
  cbn [negb]. mstep. rewrite (alter_const_lookup _ _ it) by done.
  rewrite list_insert_id by done.
  erewrite bind_step by apply tolerant_remove_eq.
  mstep. now destruct g.
Qed.

Lemma without_elem_of a l :
  NoDup l -> a ∉ without a l.
Proof.
  intros Hnd. unfold without. destruct (list_remove a l) as [l'|] eqn:E; cbn.
  - now apply (list_remove_Some a l l').
  - now apply list_remove_None.
Qed.

(** C5: a use attempt on a stun item whose counter [d] is not negative
    leaves a counter that is not negative; when [d] is at least 1 the
    counter becomes [d - 1], whether the stun roll succeeds or fails; after
    the attempt the item is in the inventory exactly when it was there and
    uses are left ([1 < d]); in particular an item with one use is gone from
    the inventory after that use and a further [use] returns False. *)
Theorem stunner_durability (g : Game) (a : nat) (it : Item.t) (s d : Z) :
  heap g !! a = Some it -> Item.kind it = Stun s d -> 0 <= d ->
  creature_placed g = true -> links_ok g = true ->
  NoDup (Player.inventory (player g)) ->
  exists b g' it',
    attempt_stun a g = Ret b g' /\
    heap g' !! a = Some it' /\
    0 <= durability it' /\
    (1 <= d ->
     durability it' = d - 1 /\
     b = (1 + rng g (rng_pos g) mod 20 + s + Player.strength (player g) / 2
          >=? 12 + Creature.difficulty (creature g) * 3
              + (1 + rng g (S (rng_pos g)) mod 6))) /\
    (a ∈ Player.inventory (player g') <-> a ∈ Player.inventory (player g) /\ 1 < d) /\
    (d = 1 -> (a ∉ Player.inventory (player g')) /\ StunItem_use it' = (it', false)).
Proof.
  intros Hit Hkind Hd Hplaced Hok Hnd.
  assert (Ha : (a < length (heap g))%nat) by (now apply lookup_lt_Some in Hit).
  destruct (Z.leb_spec d 0) as [Hz|Hpos].
  - exists false. eexists. exists it.
    split; [apply (attempt_stun_depleted g a it s d); done|].
    gsimpl. cbn. split; [done|].
    unfold durability. rewrite Hkind.
    split; [lia|]. split; [lia|]. split; [|lia].
    split; [intros Hin; now apply without_elem_of in Hin|lia].
  - destruct (attempt_stun_usable g a it s d Hit Hkind ltac:(lia) Hplaced Hok)
      as (g' & Hrun & Hheap & Hinv & _).
    eexists. exists g'. exists (set_durability (d - 1) it).
    split; [exact Hrun|]. rewrite Hheap, Hinv.
    split; [now apply list_lookup_insert_eq|].
    assert (Hdur : durability (set_durability (d - 1) it) = d - 1).
    { unfold set_durability, durability. now rewrite Hkind. }
    rewrite Hdur. split; [lia|]. split; [done|]. split.
    + destruct (Z.leb_spec (d - 1) 0).
      * split; [intros Hin; now apply without_elem_of in Hin|lia].
      * split; [intros Hin; split; [done|lia]|now intros [? _]].
    + intros ->. cbn. split; [now apply without_elem_of|].
      unfold StunItem_use. rewrite Hdur. reflexivity.
Qed.

Lemma stunner_durability_witness :
  exists b g' it',
    attempt_stun 0 armed_game = Ret b g' /\
    heap g' !! 0%nat = Some it' /\
    durability it' = 0 /\
    (0%nat ∉ Player.inventory (player g')) /\
    StunItem_use it' = (it', false).
Proof.
  destruct (stunner_durability armed_game 0
              (mkStunItem "Fire Extinguisher" "A heavy canister. A good blunt stun." 8 1)
              8 1)
    as (b & g' & it' & Hrun & Hheap & _ & Hdur & _ & Hgone).
  - vm_compute. reflexivity.
  - reflexivity.
  - lia.
  - vm_compute. reflexivity.
  - vm_compute. reflexivity.
  - vm_compute. apply NoDup_singleton.
  - exists b, g', it'. split; [exact Hrun|]. split; [exact Hheap|].
    split; [apply Hdur; lia|]. apply Hgone. reflexivity.
Defined.

(** C3, the code against the claim: the same successful stun (18 against
    a defense of 16, not a long stun) moves the creature to the next room
    when it is made with the Stun option of the encounter, and leaves the
    creature in the player's room, where the encounter then starts, when it
    is made with Use Item. *)
Theorem stun_by_use_item_leaves_creature :
  (let g := final (run stun_by_use_item) in
   Player.current_room (player g) = 0%nat /\
   creature_room_index g = Some 0%nat /\
   drop 11 (stdout g) =
     [MsgChooseAction; MsgWhichUse; MsgStunRolls 18 16; MsgStaggers;
      MsgCreatureHere; MsgRolls 22 5; MsgSpotsYou; MsgOptions]) /\
  (let g := final (loop 2 run_turn stun_by_tactic) in
   Player.current_room (player g) = 0%nat /\
   creature_room_index g = Some 1%nat /\
   drop 11 (stdout g) =
     [MsgChooseAction; MsgStatusHP 14 14; MsgStatusStats 7 3 2; MsgStatusKeys [];
      MsgCreatureHere; MsgRolls 22 5; MsgSpotsYou; MsgOptions; MsgWhichStun;
      MsgStunRolls 18 16; MsgStaggers; MsgStunned]).
Proof. vm_compute. repeat split. Qed.

(** ** The step relation *)

Lemma count_app f l l' : count f (l ++ l') = (count f l + count f l')%nat.
Proof. unfold count. now rewrite List.filter_app, length_app. Qed.

Lemma count_snoc f l m : count f (l ++ [m]) = (count f l + b2n (f m))%nat.
Proof. rewrite count_app. unfold count. cbn. now destruct (f m). Qed.

Lemma Step_refl g : Step g g.
Proof. constructor; try done; try lia; try congruence. Qed.

Lemma has_all_main_keys_mono g g' :
  part_ids g ⊆ part_ids g' -> has_all_main_keys g = true -> has_all_main_keys g' = true.
Proof.
  unfold has_all_main_keys. intros Hsub H.
  apply bool_decide_eq_true in H. apply bool_decide_eq_true. etrans; eassumption.
Qed.

Lemma Step_trans g1 g2 g3 : Step g1 g2 -> Step g2 g3 -> Step g1 g3.
Proof.
  intros [Si Sh Sp Sm Sf Su Se Sk Sd Sr Ss Sl Sq Sn Sw]
    [Ti Th Tp Tm Tf Tu Te Tk Td Tr Ts Tl Tq Tn Tw].
  constructor.
  - lia.
  - lia.
  - lia.
  - congruence.
  - auto.
  - destruct (secret_key_spawned g1), (secret_key_spawned g2), (secret_key_spawned g3);
      cbn in *; try lia; try (specialize (Sf eq_refl)); try (specialize (Tf eq_refl));
      discriminate.
  - intros Hf Ht. destruct (secret_key_spawned g2) eqn:E2.
    + apply (has_all_main_keys_mono g2); auto.
    + auto.
  - etrans; eassumption.
  - etrans; eassumption.
  - intros i. specialize (Sr i). specialize (Tr i). lia.
  - congruence.
  - lia.
  - intros i. now rewrite Tq.
  - intros i. specialize (Sn i). specialize (Tn i). lia.
  - intros i Hlt.
    destruct (decide (reveals i g2 < reveals i g3)%nat) as [H23|H23]; [now apply Tw|].
    destruct (Sw i) as (f & Hf & Hnz & Hin); [lia|].
    exists f. rewrite Tq. split; [done|]. split; [done|]. now apply Td.
Qed.

(** ** Rules of the judgement *)

Lemma post_ret {A} H g0 (a : A) g : Inv g -> Step g0 g -> post H g0 (ret a g).
Proof. intros. unfold post. cbn. auto. Qed.

Lemma post_Ret {A} H g0 (a : A) g : Inv g -> Step g0 g -> post H g0 (Ret a g).
Proof. intros. unfold post. cbn. auto. Qed.

Lemma post_stop {A} (H : Halt -> Prop) g0 h g :
  Inv g -> Step g0 g -> H h -> post (A:=A) H g0 (Stop h g).
Proof. intros. unfold post. cbn. auto. Qed.

Lemma post_bind {A B} H (m : M A) (k : A -> M B) g0 g :
  Step g0 g -> post H g (m g) ->
  (forall a g', m g = Ret a g' -> Inv g' -> Step g0 g' -> post H g0 (k a g')) ->
  post H g0 (bind m k g).
Proof.
  intros HS (HI' & HS' & HH) Hk. unfold bind.
  destruct (m g) as [a g'|h g'] eqn:E; cbn in *.
  - apply Hk; [done|done|]. now apply (Step_trans _ g).
  - unfold post. cbn. split; [done|]. split; [|done]. now apply (Step_trans _ g).
Qed.

Lemma post_weaken {A} (H H' : Halt -> Prop) g0 (o : Outcome A) :
  (forall h, H h -> H' h) -> post H g0 o -> post H' g0 o.
Proof. intros Hw (? & ? & ?). unfold post. destruct o; cbn in *; auto. Qed.

Lemma post_bind_w {A B} (H : Halt -> Prop) (m : M A) (k : A -> M B) g0 g :
  (forall h, nowin h -> H h) ->
  Step g0 g -> post nowin g (m g) ->
  (forall a g', m g = Ret a g' -> Inv g' -> Step g0 g' -> post H g0 (k a g')) ->
  post H g0 (bind m k g).
Proof.
  intros Hw HS Hm Hk. apply post_bind; [done| |done].
  now apply (post_weaken nowin).
Qed.

Lemma post_trans {A} H g0 g (o : Outcome A) :
  Step g0 g -> post H g o -> post H g0 o.
Proof.
  intros HS (? & ? & ?). unfold post. split; [done|]. split; [|done].
  now apply (Step_trans _ g).
Qed.

Lemma post_try_except {A} H (m handler : M A) catches g0 g :
  Step g0 g -> post H g (m g) ->
  (forall x g', m g = Stop (Raised x) g' -> Inv g' -> Step g0 g' ->
                post H g0 (handler g')) ->
  post H g0 (try_except m catches handler g).
Proof.
  intros HS Hm Hh. unfold try_except.
  destruct (m g) as [a g'|[e|x|] g'] eqn:E; try (now apply (post_trans _ _ g)).
  destruct (catches x); [|now apply (post_trans _ _ g)].
  destruct Hm as (HI' & HS' & _). cbn in *.
  apply (Hh x); [done|done|]. now apply (Step_trans _ g).
Qed.

(** ** Updates that leave the counted part of the state alone *)

Lemma part_ids_same g g' :
  heap g' = heap g -> Player.key_parts (player g') = Player.key_parts (player g) ->
  part_ids g' = part_ids g.
Proof. unfold part_ids, item_at. now intros -> ->. Qed.

Lemma frame g g' :
  Inv g -> same_core g g' -> (length (stdin g') <= length (stdin g))%nat ->
  Inv g' /\ Step g g'.
Proof.
  intros [I1 I2 I3 I4 I5 I6 I7] [E1 E2 E3 E4 E5 E6 E7 E8 E9 E10 E11 E12 E13] Hlen.
  assert (Hp : part_ids g' = part_ids g) by now apply part_ids_same.
  split.
  - constructor; unfold item_at, room_at in *;
      rewrite ?E1, ?E2, ?E3, ?E4, ?E5, ?E6, ?E7, ?E9; done.
  - constructor; unfold armed, room_at;
      rewrite ?E1, ?E2, ?E6, ?E7, ?E8, ?E9, ?E11, ?E12, ?Hp; try done; try lia.
    + congruence.
    + intros i. now rewrite E13.
    + intros i. rewrite E13. lia.
    + intros i. rewrite E13. lia.
Qed.

Lemma post_of_ok {A} H g (a : A) g' : ok g g' -> post H g (Ret a g').
Proof. intros [? ?]. now apply post_Ret. Qed.

Lemma post_modify H f g : ok g (f g) -> post H g (modify f g).
Proof. apply post_of_ok. Qed.

(** Solves the side conditions of [frame] for an explicit update. *)
Ltac by_frame :=
  apply frame;
  [ assumption
  | constructor; unfold pulls, potions, reveals; gsimpl; cbn;
    rewrite ?count_snoc; try reflexivity; try done
  | gsimpl; cbn; try lia ].

Lemma ok_present m g : plain m -> Inv g -> ok g (set_stdout (stdout g ++ [m]) g).
Proof.
  intros (H1 & H2 & H3) HI. by_frame.
  - rewrite H1. cbn. lia.
  - rewrite H2. cbn. lia.
  - intros i. rewrite count_snoc, H3. cbn. lia.
Qed.

Lemma present_post H m g : plain m -> Inv g -> post H g (present m g).
Proof. intros. apply post_modify. now apply ok_present. Qed.

Lemma choose_from_length options lines c rest :
  choose_from options lines = Some (c, rest) -> (length rest < length lines)%nat.
Proof.
  induction lines as [|x t IH]; cbn; [done|].
  destruct (decide (x = "")).
  - intros H%IH. lia.
  - destruct (decide (x ∈ options)).
    + intros [= <- <-]. lia.
    + intros H%IH. lia.
Qed.

Lemma ok_set_stdin l g :
  Inv g -> (length l <= length (stdin g))%nat -> ok g (set_stdin l g).
Proof. intros HI Hl. by_frame. Qed.

Lemma choose_post options g : Inv g -> post nowin g (choose options g).
Proof.
  intros HI. unfold choose.
  destruct (choose_from options (stdin g)) as [[c rest]|] eqn:E.
  - apply post_of_ok, ok_set_stdin; [done|].
    apply choose_from_length in E. lia.
  - destruct (ok_set_stdin [] g HI) as [? ?]; [cbn; lia|].
    apply post_stop; [done|done|split; discriminate].
Qed.

Lemma ok_set_rng_pos n g : Inv g -> ok g (set_rng_pos n g).
Proof. intros HI. by_frame. Qed.

Lemma next_random_post H g : Inv g -> post H g (next_random g).
Proof. intros. apply post_of_ok. now apply ok_set_rng_pos. Qed.

Lemma raise_post {A} x g : Inv g -> post (A:=A) nowin g (raise x g).
Proof. intros. apply post_stop; [done|apply Step_refl|split; discriminate]. Qed.

Lemma random_random_post H g : Inv g -> post H g (random_random g).
Proof. intros. apply post_of_ok. now apply ok_set_rng_pos. Qed.

Lemma randint_post a b g : Inv g -> post nowin g (randint a b g).
Proof.
  intros. unfold randint. destruct (b <? a); [now apply raise_post|].
  apply post_of_ok. now apply ok_set_rng_pos.
Qed.

Lemma random_choice_post {A} (l : list A) g : Inv g -> post nowin g (random_choice l g).
Proof.
  intros. destruct l; [now apply raise_post|].
  apply post_of_ok. now apply ok_set_rng_pos.
Qed.

Lemma roll_dice_post n g : Inv g -> post nowin g (roll_dice n g).
Proof.
  intros. unfold roll_dice. destruct (n <? 1); [|now apply randint_post].
  apply post_ret; [done|apply Step_refl].
Qed.

Lemma ok_set_player_frame p g :
  Inv g ->
  Player.hp p = Player.hp (player g) ->
  Player.max_hp p = Player.max_hp (player g) ->
  Player.key_parts p = Player.key_parts (player g) ->
  ok g (set_player p g).
Proof. intros HI ? ? ?. by_frame. Qed.

Lemma set_is_hiding_post H b g :
  Inv g -> post H g (modify_player (Player_set_is_hiding b) g).
Proof. intros. apply post_modify. now apply ok_set_player_frame. Qed.

Lemma set_current_room_post H r g :
  Inv g -> post H g (modify_player (Player_set_current_room r) g).
Proof. intros. apply post_modify. now apply ok_set_player_frame. Qed.

Lemma set_inventory_post H f g :
  Inv g -> post H g (modify_player (fun p => Player_set_inventory (f p) p) g).
Proof. intros. apply post_modify. now apply ok_set_player_frame. Qed.

Lemma set_creature_room_index_post H o g :
  Inv g -> post H g (modify (set_creature_room_index o) g).
Proof. intros HI. apply post_modify. by_frame. Qed.

Lemma creature_tick_state_post H g :
  Inv g -> post H g (modify_creature Creature_tick g).
Proof.
  intros HI. apply post_modify. unfold Creature_tick.
  destruct (0 <? _); by_frame.
Qed.

Lemma sys_exit_post {A} e g : e <> Won -> Inv g -> post (A:=A) nowin g (sys_exit e g).
Proof. intros. apply post_stop; [done|apply Step_refl|split; congruence]. Qed.

Create HintDb holds discriminated.

#[local] Hint Resolve present_post choose_post next_random_post raise_post
  random_random_post randint_post random_choice_post roll_dice_post
  set_is_hiding_post set_current_room_post set_inventory_post
  set_creature_room_index_post creature_tick_state_post sys_exit_post : holds.
#[local] Hint Extern 1 (plain _) => (repeat split) : holds.
#[local] Hint Extern 1 (_ <> Won) => discriminate : holds.

(** Walks through a computation, discharging each call with the lemmas of
    the hint database. *)
Ltac hwalk :=
  repeat first
    [ progress (rewrite ?bind_gets, ?bind_ret; unfold id)
    | match goal with
      | |- post _ _ (ret _ _) => apply post_ret; assumption
      | |- post _ _ (Ret _ _) => apply post_Ret; assumption
      | |- post _ _ (when ?b _ _) => unfold when; destruct b eqn:?
      | |- post _ _ (bind (when ?b _) _ _) => unfold when; destruct b eqn:?
      | |- post _ _ ((if ?c then _ else _) _) => destruct c eqn:?
      | |- post _ _ (bind (if ?c then _ else _) _ _) => destruct c eqn:?
      | |- post _ _ ((match ?x with _ => _ end) _) => destruct x eqn:?
      | |- post _ _ (bind (match ?x with _ => _ end) _ _) => destruct x eqn:?
      | |- post _ _ (bind (bind _ _) _ _) => rewrite bind_assoc
      | |- post _ _ (bind _ _ _) =>
          eapply post_bind_w;
          [ done
          | eassumption
          | solve [eauto with holds]
          | let a := fresh "a" in let g := fresh "g" in
            let E := fresh "E" in let HI := fresh "HI" in let HS := fresh "HS" in
            intros a g E HI HS ]
      | |- post _ _ (sys_exit _ _) => apply post_stop; [assumption|assumption|done]
      | |- post _ _ _ => eapply post_trans; [eassumption|solve [eauto with holds]]
      end ].

(** Steps over the call at the head with the given proof of its judgement. *)
Ltac hcall tac :=
  rewrite ?bind_assoc;
  eapply post_bind_w;
  [ done
  | eassumption
  | tac
  | let a := fresh "a" in let g := fresh "g" in
    let E := fresh "E" in let HI := fresh "HI" in let HS := fresh "HS" in
    intros a g E HI HS ].

(** The same without weakening the halt predicate. *)
Ltac hcall0 tac :=
  rewrite ?bind_assoc;
  eapply post_bind;
  [ eassumption
  | tac
  | let a := fresh "a" in let g := fresh "g" in
    let E := fresh "E" in let HI := fresh "HI" in let HS := fresh "HS" in
    intros a g E HI HS ].

Ltac hstart f :=
  let g := fresh "g" in let HI := fresh "HI" in
  intros g HI; pose proof (Step_refl g); unfold f.

Lemma show_status_post g : Inv g -> post nowin g (show_status g).
Proof. revert g. hstart show_status. hwalk. Qed.

Lemma show_inventory_post g : Inv g -> post nowin g (show_inventory g).
Proof. revert g. hstart show_inventory. hwalk. Qed.

Lemma action_hide_post g : Inv g -> post nowin g (action_hide g).
Proof. revert g. hstart action_hide. hwalk. Qed.

(** ** Updates that change the counted part *)

(** Splits [ok] into the fields of the invariant and of the step. *)
Ltac fields :=
  split; constructor;
  unfold pulls, potions, reveals, armed, item_at, room_at in *; gsimpl;
  cbn [Player.hp Player.max_hp Player.key_parts Player.inventory Player.current_room
       Player.is_hiding Player_set_hp Player_set_inventory Player_set_key_parts
       Player_set_current_room Player_set_is_hiding];
  try match goal with |- forall i : nat, @?P i => let j := fresh "j" in intros j end;
  rewrite ?count_snoc; cbn [is_pull is_potion is_reveal b2n];
  rewrite ?Nat.add_0_r.

Lemma ok_hit dmg g :
  Inv g -> 0 <= dmg ->
  ok g (set_player (Player_set_hp (Z.max 0 (Player.hp (player g) - dmg)) (player g)) g).
Proof.
  intros [I1 I2 I3 I4 I5 I6 I7] Hd.
  fields; try done; try lia; try (intros; congruence).
Qed.

Lemma ok_heal h g :
  Inv g -> 0 <= h ->
  ok g (set_stdout (stdout g ++ [MsgPotion h])
          (set_player
             (Player_set_hp (Z.min (Player.max_hp (player g)) (Player.hp (player g) + h))
                (player g)) g)).
Proof.
  intros [I1 I2 I3 I4 I5 I6 I7] Hd.
  fields; try done; try lia; try (intros; congruence).
Qed.

Lemma part_ids_ext g g' :
  Player.key_parts (player g') = Player.key_parts (player g) ->
  Forall (fun a => part_id_of (item_at g' a) = part_id_of (item_at g a))
    (Player.key_parts (player g)) ->
  part_ids g' = part_ids g.
Proof.
  unfold part_ids. intros ->. induction 1 as [|a l Ha _ IH]; [done|].
  cbn. rewrite Ha. destruct (part_id_of (item_at g a)) as [z|]; [|exact IH].
  cbn. f_equal. exact IH.
Qed.

Lemma ok_modify_room (f : Room.t -> Room.t) i g :
  Inv g ->
  (forall r, Forall (fun a => (a < length (heap g))%nat) (Room.items r) ->
             Forall (fun a => (a < length (heap g))%nat) (Room.items (f r))) ->
  (i = start_room g ->
   Forall (fun a => part_id_of (item_at g a) <> Some 4) (Room.items (room_at g i)) ->
   Forall (fun a => part_id_of (item_at g a) <> Some 4) (Room.items (f (room_at g i)))) ->
  (forall r, Room.reveal_text (f r) = Room.reveal_text r) ->
  (forall r, Room.required_unlock_part (f r) = Room.required_unlock_part r) ->
  ok g (set_rooms (alter f i (rooms g)) g).
Proof.
  intros [I1 I2 I3 I4 I5 I6 I7] Hvalid Hstart Hreveal Hrequired.
  fields; try done; try lia; try (intros; congruence).
  - apply Forall_alter; [done|]. intros r _. apply Hvalid.
  - rewrite list_lookup_total_alter. case_decide as Hc; [|done].
    destruct Hc as [-> _]. now apply Hstart.
  - rewrite list_lookup_total_alter. case_decide as Hc; [|done].
    destruct Hc as [-> _]. now rewrite Hreveal.
  - rewrite list_lookup_total_alter. case_decide as Hc; [|done].
    destruct Hc as [-> _]. now rewrite Hrequired.
Qed.

Lemma ok_remove_item a i g :
  Inv g -> ok g (set_rooms (alter (Room_remove_item a) i (rooms g)) g).
Proof.
  intros HI.
  assert (Hsub : forall r x, x ∈ Room.items (Room_remove_item a r) -> x ∈ Room.items r).
  { intros r x. unfold Room_remove_item.
    destruct (list_remove a (Room.items r)) as [l|] eqn:E; [|done]. cbn.
    clear -E. revert l E. induction (Room.items r) as [|y t IH]; intros l; cbn; [done|].
    destruct (decide (y = a)).
    - intros [= <-] Hx. now right.
    - destruct (list_remove a t); cbn; [|done]. intros [= <-] [->|Hx]%elem_of_cons.
      + left.
      + right. now apply (IH l0). }
  apply ok_modify_room; try done.
  - intros r Hr. rewrite Forall_forall in *. intros x Hx. apply Hr, Hsub, Hx.
  - intros _ Hr. rewrite Forall_forall in *. intros x Hx. apply Hr, Hsub, Hx.
  - intros r. unfold Room_remove_item. now destruct (list_remove _ _).
  - intros r. unfold Room_remove_item. now destruct (list_remove _ _).
Qed.

Lemma ok_add_item a i g :
  Inv g -> (a < length (heap g))%nat ->
  (i = start_room g -> part_id_of (item_at g a) <> Some 4) ->
  ok g (set_rooms (alter (Room_add_item a) i (rooms g)) g).
Proof.
  intros HI Ha Hs. apply ok_modify_room; try done.
  - intros r Hr. cbn. apply Forall_app. split; [done|]. now constructor.
  - intros E Hr. cbn. apply Forall_app. split; [done|]. constructor; [auto|constructor].
Qed.

Lemma Room_set_reveal_text_same r : Room_set_reveal_text (Room.reveal_text r) r = r.
Proof. now destruct r. Qed.

Lemma ok_reveal_kept i g :
  Inv g ->
  ok g (set_rooms (alter (fun r => Room_set_reveal_text (Room.reveal_text r) r) i (rooms g)) g).
Proof. intros HI. apply ok_modify_room; done. Qed.

Lemma ok_reveal i t f g :
  Inv g -> truthy_text (Room.reveal_text (room_at g i)) = true ->
  Room.required_unlock_part (room_at g i) = Some f -> f <> 0 -> f ∈ found_parts g ->
  ok g (set_rooms (alter (Room_set_reveal_text None) i (rooms g))
          (set_stdout (stdout g ++ [MsgReveal i t]) g)).
Proof.
  intros [I1 I2 I3 I4 I5 I6 I7] Harmed Hreq Hnz Hfound.
  assert (Hi : (i < length (rooms g))%nat).
  { destruct (decide (i < length (rooms g))%nat) as [|Hge]; [done|].
    unfold room_at in Harmed. rewrite list_lookup_total_alt in Harmed.
    rewrite lookup_ge_None_2 in Harmed by lia. done. }
  fields; try done; try lia; try (intros; congruence).
  - apply Forall_alter; [done|]. now intros r _.
  - rewrite list_lookup_total_alter. case_decide as Hc; [|done].
    destruct Hc as [-> _]. exact I7.
  - rewrite list_lookup_total_alter.
    destruct (Nat.eqb_spec j i) as [->|Hne].
    + rewrite decide_True by done. cbn. unfold room_at in Harmed. rewrite Harmed.
      cbn. lia.
    + rewrite decide_False by (intros [? _]; done). cbn. lia.
  - rewrite list_lookup_total_alter. case_decide as Hc; [|done]. now destruct Hc as [-> _].
  - rewrite list_lookup_total_alter.
    destruct (Nat.eqb_spec j i) as [->|Hne]; cbn; [intros _|lia].
    exists f. rewrite decide_True by done. cbn. now unfold room_at in Hreq.
Qed.

Lemma ok_alloc it g :
  Inv g -> 0 <= durability it -> ok g (set_heap (heap g ++ [it])%list g).
Proof.
  intros [I1 I2 I3 I4 I5 I6 I7] Hd.
  assert (Hold : forall a, (a < length (heap g))%nat ->
                   (heap g ++ [it])%list !!! a = heap g !!! a).
  { intros a Ha. now apply lookup_total_app_l. }
  assert (Hp : part_ids (set_heap (heap g ++ [it])%list g) = part_ids g).
  { apply part_ids_ext; [done|]. unfold item_at. gsimpl.
    eapply Forall_impl; [exact I6|]. intros a Ha. cbn in Ha. now rewrite Hold. }
  fields; rewrite ?length_app; cbn [length]; try done; try lia; try (intros; congruence).
  - apply Forall_app. split; [done|]. now constructor.
  - eapply Forall_impl; [exact I5|]. intros r Hr.
    eapply Forall_impl; [exact Hr|]. cbn. intros; lia.
  - eapply Forall_impl; [exact I6|]. cbn. intros; lia.
  - unfold room_at in *.
    assert (Hv : Forall (fun a => (a < length (heap g))%nat)
                   (Room.items (rooms g !!! start_room g))).
    { destruct (rooms g !! start_room g) as [r|] eqn:E.
      - rewrite (list_lookup_total_correct _ _ _ E).
        rewrite Forall_lookup in I5. apply (I5 _ _ E).
      - rewrite list_lookup_total_alt, E. constructor. }
    rewrite Forall_forall in *. intros a Ha. rewrite Hold by auto. auto.
Qed.

Lemma ok_use a g :
  Inv g -> ok g (set_heap (alter (fun _ => (StunItem_use (item_at g a)).1) a (heap g)) g).
Proof.
  intros [I1 I2 I3 I4 I5 I6 I7].
  set (used := (StunItem_use (item_at g a)).1).
  assert (Hused : forall it, heap g !! a = Some it ->
            0 <= durability it -> 0 <= durability used /\ part_id_of used = part_id_of it).
  { intros it Hit Hd. subst used. unfold item_at.
    rewrite (list_lookup_total_correct _ _ _ Hit).
    unfold StunItem_use. destruct (Z.leb_spec (durability it) 0); cbn; [done|].
    unfold set_durability, durability, part_id_of in *.
    destruct (Item.kind it); cbn; [done| |done]. split; [lia|done]. }
  assert (Hpid : forall b, part_id_of (alter (fun _ => used) a (heap g) !!! b)
                           = part_id_of (heap g !!! b)).
  { intros b. rewrite list_lookup_total_alter. case_decide as Hc; [|done].
    destruct Hc as [-> Hlt]. apply lookup_lt_is_Some_2 in Hlt as [it Hit].
    rewrite (list_lookup_total_correct _ _ _ Hit).
    apply Hused; [done|]. rewrite Forall_lookup in I4. apply (I4 _ _ Hit). }
  assert (Hp : part_ids (set_heap (alter (fun _ => used) a (heap g)) g) = part_ids g).
  { apply part_ids_ext; [done|]. unfold item_at. gsimpl.
    apply Forall_forall. intros b _. apply Hpid. }
  fields; rewrite ?length_alter; try done; try lia; try (intros; congruence).
  - apply Forall_alter; [done|]. intros it Hit Hd. now apply (Hused it).
  - eapply Forall_impl; [exact I7|]. cbn. intros b Hb. now rewrite Hpid.
Qed.

Lemma ok_key_parts a g :
  Inv g -> (a < length (heap g))%nat ->
  ok g (set_player (Player_set_key_parts (Player.key_parts (player g) ++ [a]) (player g)) g).
Proof.
  intros [I1 I2 I3 I4 I5 I6 I7] Ha.
  fields; try done; try lia; try (intros; congruence).
  - apply Forall_app. split; [done|]. now constructor.
  - unfold part_ids. gsimpl. cbn. rewrite omap_app, list_to_set_app_L.
    apply union_subseteq_l.
Qed.

Lemma ok_found p g : Inv g -> ok g (set_found_parts ({[p]} ∪ found_parts g) g).
Proof. intros HI. by_frame. set_solver. Qed.

Lemma ok_spawn_flag g :
  Inv g -> has_all_main_keys g = true -> secret_key_spawned g = false ->
  ok g (set_stdout (stdout g ++ [MsgStrangePull]) (set_secret_key_spawned true g)).
Proof.
  intros [I1 I2 I3 I4 I5 I6 I7] Hall Hflag.
  fields; try done; try lia; try (intros; congruence).
  rewrite Hflag. cbn. lia.
Qed.

(** ** The methods keep the invariant *)

Lemma end_game_lost_post g : Inv g -> post nowin g (end_game true g).
Proof. revert g. hstart end_game. hwalk. Qed.

Lemma end_game_post lost g : Inv g -> post (fun _ => True) g (end_game lost g).
Proof. revert g. hstart end_game. hwalk. Qed.

Lemma rooms_getitem_post i g : Inv g -> post nowin g (rooms_getitem i g).
Proof. revert g. hstart rooms_getitem. hwalk. Qed.

Lemma rooms_index_post i g : Inv g -> post nowin g (rooms_index i g).
Proof. revert g. hstart rooms_index. hwalk. Qed.

Lemma inventory_remove_post a g : Inv g -> post nowin g (inventory_remove a g).
Proof.
  revert g. hstart inventory_remove. hwalk.
Qed.

#[local] Hint Resolve end_game_lost_post rooms_getitem_post rooms_index_post
  inventory_remove_post : holds.

Lemma get_creature_location_post g : Inv g -> post nowin g (get_creature_location g).
Proof. revert g. hstart get_creature_location. hwalk. Qed.

#[local] Hint Resolve get_creature_location_post : holds.

Lemma wander_from_post room g : Inv g -> post nowin g (wander_from room g).
Proof. revert g. hstart wander_from. hwalk. Qed.

#[local] Hint Resolve wander_from_post : holds.

Lemma creature_tick_post g : Inv g -> post nowin g (creature_tick g).
Proof. revert g. hstart creature_tick. hwalk. Qed.

Lemma Creature_detect_player_post room g :
  Inv g -> post nowin g (Creature_detect_player room g).
Proof. revert g. hstart Creature_detect_player. hwalk. Qed.

Lemma randint_range a b g r g' : randint a b g = Ret r g' -> a <= r <= b.
Proof.
  unfold randint. destruct (Z.ltb_spec b a); [done|].
  msimpl. unfold next_random. intros [= <- _].
  pose proof (Z.mod_pos_bound (rng g (rng_pos g)) (b - a + 1)). lia.
Qed.

Lemma Creature_attack_post g : Inv g -> post nowin g (Creature_attack g).
Proof.
  revert g. hstart Creature_attack. rewrite bind_gets.
  hcall ltac:(now apply randint_post).
  apply randint_range in E.
  hcall ltac:(apply post_modify, ok_hit; [done|destruct HI; lia]).
  hwalk.
Qed.

Lemma after_attack_post g : Inv g -> post nowin g (after_attack g).
Proof. revert g. hstart after_attack. hwalk. Qed.

#[local] Hint Resolve creature_tick_post Creature_detect_player_post
  Creature_attack_post after_attack_post : holds.

Lemma Creature_special_move_post g : Inv g -> post nowin g (Creature_special_move g).
Proof.
  revert g. hstart Creature_special_move. rewrite bind_gets.
  destruct (0 <? _); [hwalk|].
  hcall ltac:(apply post_modify; by_frame).
  hcall ltac:(apply post_modify, ok_hit; [done|lia]).
  hwalk.
Qed.

Lemma post_jump {A} H g0 g g1 (o : Outcome A) :
  Step g0 g -> ok g g1 -> (Inv g1 -> Step g0 g1 -> post H g0 o) -> post H g0 o.
Proof. intros HS [HI1 HS1] Ho. apply Ho; [done|]. now apply (Step_trans _ g). Qed.

Lemma describe_current_room_post g : Inv g -> post nowin g (describe_current_room g).
Proof.
  revert g. hstart describe_current_room. rewrite bind_gets. unfold id.
  set (room := Player.current_room (player g)).
  destruct (Room.required_unlock_part (room_at g room)) as [p|] eqn:Ereq;
    [|hwalk].
  destruct (Room.reveal_text (room_at g room)) as [t|] eqn:Etext; [|hwalk].
  destruct (_ && _) eqn:Econd; [|hwalk].
  apply andb_true_iff in Econd as [[Hpart Hfound]%andb_true_iff Htext].
  rewrite bind_assoc, bind_present. unfold modify_room. rewrite bind_modify.
  eapply (post_jump _ _ g); [eassumption| |intros HI1 HS1].
  { apply (ok_reveal room t p); [done| |done| |].
    - now rewrite Etext.
    - cbn in Hpart. apply negb_true_iff, Z.eqb_neq in Hpart. exact Hpart.
    - now apply bool_decide_eq_true in Hfound. }
  hwalk.
Qed.

Lemma action_move_post g : Inv g -> post nowin g (action_move g).
Proof. revert g. hstart action_move. hwalk. Qed.

Lemma for_each_post {A} H (f : A -> M unit) (l : list A) :
  (forall x g, Inv g -> post H g (f x g)) ->
  forall g, Inv g -> post H g (for_each l f g).
Proof.
  intros Hf. induction l as [|x t IH]; intros g HI; cbn.
  - apply post_ret; [done|apply Step_refl].
  - apply post_bind; [apply Step_refl|now apply Hf|]. intros _ g' _ HI' HS'.
    eapply post_trans; [eassumption|]. now apply IH.
Qed.

Lemma alloc_inv it g a g' :
  alloc it g = Ret a g' -> a = length (heap g) /\ g' = set_heap (heap g ++ [it]) g.
Proof. unfold alloc. now intros [= <- <-]. Qed.

Lemma alloc_post H it g : Inv g -> 0 <= durability it -> post H g (alloc it g).
Proof. intros. apply post_of_ok. now apply ok_alloc. Qed.

Lemma dict_get_imap_elem_of {A} (f : nat -> string) (l : list A) c x :
  dict_get c (imap (fun i y => (f i, y)) l) = Some x -> x ∈ l.
Proof.
  revert f. induction l as [|y t IH]; intros f; cbn; [done|].
  destruct (decide (f 0%nat = c)).
  - intros [= <-]. left.
  - intros H. right. apply (IH (f ∘ S)). exact H.
Qed.

Lemma room_item_valid g room a :
  Inv g -> a ∈ Room.items (room_at g room) -> (a < length (heap g))%nat.
Proof.
  intros [_ _ _ _ I5 _ _] Ha. unfold room_at in Ha.
  destruct (rooms g !! room) as [r|] eqn:E.
  - rewrite (list_lookup_total_correct _ _ _ E) in Ha.
    rewrite Forall_lookup in I5. specialize (I5 _ _ E).
    rewrite Forall_forall in I5. auto.
  - rewrite list_lookup_total_alt, E in Ha. cbn in Ha. now apply elem_of_nil in Ha.
Qed.

Lemma action_search_post g : Inv g -> post nowin g (action_search g).
Proof.
  revert g. hstart action_search. rewrite bind_gets. unfold id.
  set (room := Player.current_room (player g)).
  destruct (Room.items (room_at g room)) as [|x its] eqn:Eitems.
  - hcall ltac:(now apply random_random_post).
    destruct (dyadic_ltb _ _); [|hwalk].
    hcall ltac:(now apply alloc_post).
    apply alloc_inv in E0 as [-> ->].
    hcall ltac:(apply post_modify, ok_add_item;
                [ done
                | gsimpl; rewrite length_app; cbn; lia
                | intros _; unfold item_at; gsimpl;
                  rewrite lookup_total_app_r by lia; now rewrite Nat.sub_diag ]).
    hwalk.
  - rewrite <- Eitems.
    hcall ltac:(apply present_post; [repeat split|done]).
    hcall ltac:(now apply choose_post).
    destruct (decide (a0 = "0")); [hwalk|].
    destruct (dict_get _ _) as [item|] eqn:Eget; [|hwalk].
    apply dict_get_imap_elem_of in Eget.
    apply (room_item_valid g room item HI) in Eget.
    assert (Hitem : forall g2, Step g g2 -> (item < length (heap g2))%nat).
    { intros g2 []. lia. }
    assert (Hremove : forall g2, Inv g2 -> Step g g2 ->
              post nowin g (modify_room room (Room_remove_item item) g2)).
    { intros g2 HI2 HS2. eapply post_trans; [eassumption|].
      apply post_modify. now apply ok_remove_item. }
    destruct (Item.kind (item_at g item)) as [|s d|part_id backstory].
    + unfold Player_pickup. hwalk. now apply Hremove.
    + unfold Player_pickup. hwalk. now apply Hremove.
    + unfold Player_pickup. hcall ltac:(now apply set_inventory_post).
      hcall ltac:(apply post_modify, ok_key_parts; [done|now apply Hitem]).
      hcall ltac:(apply post_modify; now apply ok_found).
      hcall ltac:(apply present_post; [repeat split|done]).
      hcall ltac:(apply present_post; [repeat split|done]).
      hcall ltac:(apply post_modify; now apply ok_remove_item).
      eapply post_trans; [eassumption|].
      apply for_each_post; [|done]. clear. intros i g HI.
      pose proof (Step_refl g). rewrite bind_gets. unfold id.
      destruct (bool_decide _); [|hwalk].
      hcall ltac:(apply post_modify; now apply ok_reveal_kept).
      hwalk.
Qed.

#[local] Hint Resolve describe_current_room_post action_move_post action_search_post
  show_status_post show_inventory_post action_hide_post : holds.

Lemma tolerant_remove_post a g :
  Inv g -> post nowin g (try_except (inventory_remove a) only_ValueError (ret tt) g).
Proof.
  intros HI. rewrite tolerant_remove_eq.
  apply post_of_ok. now apply ok_set_player_frame.
Qed.

Lemma remove_if_used_up_post a g : Inv g -> post nowin g (remove_if_used_up a g).
Proof.
  intros HI. rewrite remove_if_used_up_eq. apply post_of_ok.
  destruct (_ <=? _); [now apply ok_set_player_frame|].
  split; [done|apply Step_refl].
Qed.

#[local] Hint Resolve tolerant_remove_post remove_if_used_up_post : holds.

Lemma attempt_stun_post a g : Inv g -> post nowin g (attempt_stun a g).
Proof.
  revert g. hstart attempt_stun. rewrite bind_gets. unfold id.
  destruct (StunItem_use (item_at g a)) as [used usable] eqn:Euse.
  hcall ltac:(apply post_modify;
              replace used with (StunItem_use (item_at g a)).1 by (now rewrite Euse);
              now apply ok_use).
  hwalk.
Qed.

#[local] Hint Resolve attempt_stun_post : holds.

Lemma action_use_item_post g : Inv g -> post nowin g (action_use_item g).
Proof.
  revert g. hstart action_use_item. hwalk.
  match goal with
  | E : roll_dice 4 _ = Ret ?d _ |- post _ _ (bind _ _ ?st) =>
      apply roll_dice_range in E; [|lia];
      unfold modify_player; rewrite bind_modify, bind_present;
      eapply (post_jump _ _ st); [eassumption| |intros HI' HS'];
      [apply (ok_heal (3 + d)); [done|lia]|]
  end.
  hwalk.
Qed.

#[local] Hint Resolve action_use_item_post : holds.

Lemma player_action_post choice g : Inv g -> post nowin g (player_action choice g).
Proof. revert g. hstart player_action. hwalk. Qed.

Lemma player_turn_post g : Inv g -> post nowin g (player_turn g).
Proof.
  revert g. hstart player_turn. hwalk.
  eapply post_try_except; [eassumption|now apply player_action_post|].
  intros x g' _ HI' HS'. hwalk.
Qed.

Lemma encounter_tactic_post room creature_room choice g :
  Inv g -> post nowin g (encounter_tactic room creature_room choice g).
Proof. revert g. hstart encounter_tactic. hwalk. Qed.

#[local] Hint Resolve player_turn_post encounter_tactic_post : holds.

Lemma encounter_round_post room creature_room g :
  Inv g -> post nowin g (encounter_round room creature_room g).
Proof. revert g. hstart encounter_round. hwalk. Qed.

Lemma loop_post (H : Halt -> Prop) body :
  H Starved ->
  (forall g, Inv g -> post H g (body g)) ->
  forall n g, Inv g -> post H g (loop n body g).
Proof.
  intros Hs Hbody. induction n as [|n IH]; intros g HI; cbn.
  - apply post_stop; [done|apply Step_refl|done].
  - apply post_bind; [apply Step_refl|now apply Hbody|].
    intros c g' _ HI' HS'. destruct c.
    + eapply post_trans; [eassumption|]. now apply IH.
    + now apply post_ret.
    + now apply post_ret.
Qed.

Lemma while_true_post (H : Halt -> Prop) body g :
  H Starved -> (forall g, Inv g -> post H g (body g)) ->
  Inv g -> post H g (while_true body g).
Proof. intros. unfold while_true. now apply loop_post. Qed.

(** A loop whose body reads a line each time round has fuel enough when it
    starts with more fuel than there are lines. *)
Lemma loop_fed (H : Halt -> Prop) body :
  (forall g, Inv g -> post H g (body g)) ->
  (forall g c g', Inv g -> body g = Ret c g' ->
     (length (stdin g') < length (stdin g))%nat) ->
  forall n g, Inv g -> (length (stdin g) < n)%nat -> post H g (loop n body g).
Proof.
  intros Hbody Hreads. induction n as [|n IH]; intros g HI Hn; [lia|]. cbn.
  apply post_bind; [apply Step_refl|now apply Hbody|].
  intros c g' E HI' HS'. destruct c.
  - eapply post_trans; [eassumption|]. apply IH; [done|].
    specialize (Hreads g Continue g' HI E). lia.
  - now apply post_ret.
  - now apply post_ret.
Qed.

Lemma while_true_fed (H : Halt -> Prop) body g :
  (forall g, Inv g -> post H g (body g)) ->
  (forall g c g', Inv g -> body g = Ret c g' ->
     (length (stdin g') < length (stdin g))%nat) ->
  Inv g -> post H g (while_true body g).
Proof. intros. unfold while_true. apply loop_fed; [done|done|done|lia]. Qed.

(** A computation that first prints and chooses reads a line. *)
Lemma choose_then_reads {A} m options (k : string -> M A) g a g' :
  Inv g -> (forall c g1, Inv g1 -> post nowin g1 (k c g1)) ->
  (present m ;; c <- choose options ;; k c) g = Ret a g' ->
  (length (stdin g') < length (stdin g))%nat.
Proof.
  intros HI Hk. rewrite bind_present. unfold bind at 1, choose at 1. gsimpl.
  destruct (choose_from options (stdin g)) as [[c rest]|] eqn:E; [|done].
  apply choose_from_length in E.
  match goal with |- k c ?g1 = _ -> _ => assert (HI1 : Inv g1) end.
  { destruct HI. constructor; done. }
  intros Hrun. pose proof (Hk c _ HI1) as (_ & HS & _). rewrite Hrun in HS.
  apply step_stdin in HS. cbn in HS. lia.
Qed.

Lemma encounter_round_reads room creature_room g c g' :
  Inv g -> encounter_round room creature_room g = Ret c g' ->
  (length (stdin g') < length (stdin g))%nat.
Proof.
  intros HI. unfold encounter_round. apply choose_then_reads; [done|].
  intros. now apply encounter_tactic_post.
Qed.

Lemma encounter_loop_post room creature_room g :
  Inv g -> post nowin g (while_true (encounter_round room creature_room) g).
Proof.
  intros. apply while_true_fed; [| |done].
  - intros. now apply encounter_round_post.
  - intros. now apply (encounter_round_reads room creature_room _ c).
Qed.

#[local] Hint Resolve encounter_loop_post : holds.

Lemma handle_encounter_post g : Inv g -> post nowin g (handle_encounter g).
Proof. revert g. hstart handle_encounter. hwalk. Qed.

#[local] Hint Resolve handle_encounter_post : holds.

Lemma spawn_secret_key_post g :
  Inv g -> has_all_main_keys g = true -> secret_key_spawned g = false ->
  post nowin g (spawn_secret_key g).
Proof.
  intros HI Hall Hflag. pose proof (Step_refl g) as HS. unfold spawn_secret_key.
  rewrite bind_gets. unfold id.
  set (candidate_rooms := List.filter _ _).
  destruct (random_choice candidate_rooms g) as [room g1|h g1] eqn:Ec.
  2:{ erewrite bind_stop by exact Ec.
      pose proof (random_choice_post candidate_rooms g HI) as Hp.
      now rewrite Ec in Hp. }
  erewrite bind_step by exact Ec.
  apply random_choice_In in Ec as [Hin ->].
  apply filter_In in Hin as [_ Hroom].
  apply negb_true_iff, Nat.eqb_neq in Hroom.
  unfold alloc at 1. unfold bind at 1. unfold modify_room.
  rewrite !bind_modify. unfold present, modify. gsimpl.
  set (secret := mkKeyPart 4 _ _).
  assert (H1 : ok g (set_rng_pos (S (rng_pos g)) g)) by now apply ok_set_rng_pos.
  destruct H1 as [HI1 HS1].
  assert (H2 : ok (set_rng_pos (S (rng_pos g)) g)
                 (set_heap (heap g ++ [secret]) (set_rng_pos (S (rng_pos g)) g))).
  { now apply (ok_alloc secret (set_rng_pos (S (rng_pos g)) g)). }
  destruct H2 as [HI2 HS2].
  pose proof (ok_add_item (length (heap g)) room _ HI2) as H3.
  destruct H3 as [HI3 HS3].
  { gsimpl. rewrite length_app. cbn. lia. }
  { gsimpl. intros ->. done. }
  pose proof (ok_spawn_flag _ HI3) as H4.
  destruct H4 as [HI4 HS4].
  { apply (has_all_main_keys_mono g); [|done].
    destruct HS1, HS2, HS3. etrans; [eassumption|]. etrans; eassumption. }
  { gsimpl. exact Hflag. }
  apply post_Ret; [exact HI4|].
  eapply Step_trans; [exact HS1|]. eapply Step_trans; [exact HS2|].
  eapply Step_trans; [exact HS3|]. exact HS4.
Qed.

Lemma secret_key_check_post g : Inv g -> post nowin g (secret_key_check g).
Proof.
  revert g. hstart secret_key_check. rewrite bind_gets. unfold id.
  destruct (has_all_main_keys g && negb (secret_key_spawned g)) eqn:Ec; [|hwalk].
  apply andb_true_iff in Ec as [Hall Hflag]. apply negb_true_iff in Hflag.
  hcall ltac:(now apply random_random_post).
  apply (f_equal final) in E. cbn in E. subst g0.
  unfold when. destruct (dyadic_ltb _ _); [|hwalk].
  eapply post_trans; [eassumption|].
  apply spawn_secret_key_post; [done| |]; gsimpl; done.
Qed.

#[local] Hint Resolve secret_key_check_post : holds.

Lemma play_turn_post g : Inv g -> post nowin g (play_turn g).
Proof. revert g. hstart play_turn. hwalk. Qed.

Lemma win_check_post g : Inv g -> post (fun _ => True) g (win_check g).
Proof.
  revert g. hstart win_check. hwalk.
  hcall0 ltac:(now apply end_game_post). hwalk.
Qed.

Lemma run_turn_post g : Inv g -> post (fun _ => True) g (run_turn g).
Proof.
  revert g. hstart run_turn. hwalk.
  hcall0 ltac:(now apply win_check_post).
  destruct a; hwalk.
  hcall ltac:(now apply play_turn_post). hwalk.
Qed.

Lemma run_turns_post n g : Inv g -> post (fun _ => True) g (loop n run_turn g).
Proof. intros. apply loop_post; [done| |done]. intros. now apply run_turn_post. Qed.

(** ** New games *)

Lemma Game_init_Inv name chosen_class lines tape :
  Inv (Game_init name chosen_class lines tape).
Proof.
  unfold Game_init, mkPlayer, class_stats.
  repeat (destruct (decide _)); constructor; cbn; try done; try lia;
    repeat constructor.
Qed.

Lemma set_difficulty_post H d g :
  Inv g -> 0 <= d -> post H g (modify_creature (Creature_set_difficulty d) g).
Proof.
  intros [I1 I2 I3 I4 I5 I6 I7] Hd. apply post_modify.
  fields; try done; try lia; try (intros; congruence).
Qed.

Lemma place_post it room g :
  Inv g -> 0 <= durability it -> part_id_of it <> Some 4 ->
  post nowin g ((a <- alloc it ;; modify_room room (Room_add_item a)) g).
Proof.
  intros HI Hd Hp. pose proof (Step_refl g).
  hcall ltac:(now apply alloc_post).
  apply alloc_inv in E as [-> ->].
  eapply post_trans; [eassumption|].
  apply post_modify, ok_add_item;
    [ done
    | gsimpl; rewrite length_app; cbn; lia
    | intros _; unfold item_at; gsimpl;
      rewrite lookup_total_app_r by lia; now rewrite Nat.sub_diag ].
Qed.

Lemma place_keys_post (l : list nat) (k : nat) :
  (k + length l <= 3)%nat ->
  forall g, Inv g ->
    post nowin g
      (for_each (imap (fun i x => ((k + i)%nat, x)) l)
         (fun '(i, room) =>
            let idx := Z.of_nat (S i) in
            kp <- alloc (mkKeyPart idx ("A tarnished key fragment (" ++ pretty idx ++ ")")
                           (BACKSTORIES idx)) ;;
            modify_room room (Room_add_item kp)) g).
Proof.
  revert k. induction l as [|x t IH]; intros k Hk g HI; cbn [imap for_each].
  - apply post_ret; [done|apply Step_refl].
  - apply post_bind; [apply Step_refl| |].
    + apply place_post; [done|done|]. cbn. intros [= E]. cbn [length] in Hk. lia.
    + intros _ g' _ HI' HS'. eapply post_trans; [eassumption|].
      specialize (IH (S k)). cbn [length] in Hk.
      erewrite imap_ext; [apply IH; [lia|done]|].
      intros i y _. cbn. f_equal. lia.
Qed.

Lemma for_each_post_Forall {A} H (f : A -> M unit) (l : list A) :
  Forall (fun x => forall g, Inv g -> post H g (f x g)) l ->
  forall g, Inv g -> post H g (for_each l f g).
Proof.
  induction 1 as [|x t Hx _ IH]; intros g HI; cbn.
  - apply post_ret; [done|apply Step_refl].
  - apply post_bind; [apply Step_refl|now apply Hx|]. intros _ g' _ HI' HS'.
    eapply post_trans; [eassumption|]. now apply IH.
Qed.

Lemma new_game_post name chosen_class rooms_copy potion_room candidate_rooms lines tape :
  (length candidate_rooms <= 3)%nat ->
  let g := Game_init name chosen_class lines tape in
  post nowin g (new_game chosen_class rooms_copy potion_room candidate_rooms g).
Proof.
  intros Hlen g.
  assert (HI : Inv g) by apply Game_init_Inv.
  { pose proof (Step_refl g). unfold new_game.
    hcall ltac:(repeat (destruct (decide _));
                first [ apply set_difficulty_post; [done|lia]
                      | apply post_ret; [done|apply Step_refl] ]).
    clear E. unfold scatter_items_and_keys.
    hcall ltac:(apply for_each_post_Forall; [|done];
                unfold stun_item_defs; cbn [imap];
                repeat (apply Forall_cons_2;
                        [ intros g1 HI1; cbn;
                          destruct (rooms_copy !! _);
                          [apply place_post; [done|cbn; lia|done]|now apply raise_post]
                        | ]);
                apply Forall_nil_2).
    clear E. hcall ltac:(now apply alloc_post).
    apply alloc_inv in E as [-> ->].
    hcall ltac:(apply post_modify, ok_add_item;
                [ done
                | gsimpl; rewrite length_app; cbn; lia
                | intros _; unfold item_at; gsimpl;
                  rewrite lookup_total_app_r by lia; now rewrite Nat.sub_diag ]).
    eapply post_trans; [eassumption|].
    apply (place_keys_post candidate_rooms 0); [cbn; lia|done]. }
Qed.

Lemma new_game_Inv name chosen_class rooms_copy potion_room candidate_rooms lines tape :
  (length candidate_rooms <= 3)%nat ->
  Inv (final (new_game chosen_class rooms_copy potion_room candidate_rooms
                (Game_init name chosen_class lines tape))).
Proof. intros Hlen. now apply new_game_post. Qed.

(** ** Hit points *)

Lemma list_getitem_nat {A} (l : list A) (i : nat) x :
  l !! i = Some x -> list_getitem l (Z.of_nat i) = Some x.
Proof.
  intros H. unfold list_getitem. pose proof (lookup_lt_Some _ _ _ H).
  destruct (Z.leb_spec 0 (Z.of_nat i)); [|lia].
  destruct (Z.ltb_spec (Z.of_nat i) (Z.of_nat (length l))); [|lia].
  cbn. now rewrite Nat2Z.id.
Qed.

(** Using a health potion from the Use Item menu rolls a d4, sets the hit
    points to min(max_hp, hp + 3 + d4), prints the amount and takes the
    potion (its first occurrence) out of the inventory. *)
Theorem potion_restores (g : Game) (choice : string) (rest : list string) (idx item : nat) :
  stdin g = choice :: rest ->
  choice <> "" -> choice <> "0" ->
  choice ∈ (str <$> seq 0 (length (Player.inventory (player g)) + 1)) ->
  int choice = Some (S idx) ->
  Player.inventory (player g) !! idx = Some item ->
  is_StunItem (item_at g item) = false ->
  startswith (lower (Item.name (item_at g item))) "health" = true ->
  let d4 := 1 + rng g (rng_pos g) mod 4 in
  exists g',
    action_use_item g = Ret tt g' /\
    1 <= d4 <= 4 /\
    Player.hp (player g') =
      Z.min (Player.max_hp (player g)) (Player.hp (player g) + (3 + d4)) /\
    Player.inventory (player g') = without item (Player.inventory (player g)) /\
    stdout g' = (stdout g ++ [MsgWhichUse; MsgPotion (3 + d4)])%list.
Proof.
  intros Hin Hne H0 Hvalid Hint Hidx Hstun Hname d4.
  assert (Hd4 : 1 <= d4 <= 4).
  { subst d4. pose proof (Z.mod_pos_bound (rng g (rng_pos g)) 4). lia. }
  unfold action_use_item. rewrite bind_gets. unfold id.
  destruct (Player.inventory (player g)) as [|x inv] eqn:Einv; [done|].
  rewrite <- Einv in *.
  rewrite bind_present.
  erewrite bind_step by (apply choose_head; [exact Hin|done|gsimpl; exact Hvalid]).
  destruct (decide (choice = "0")); [done|].
  rewrite Hint.
  replace (Z.of_nat (S idx) - 1) with (Z.of_nat idx) by lia.
  pose proof (lookup_lt_Some _ _ _ Hidx) as Hlt.
  destruct (Z.ltb_spec (Z.of_nat idx) 0); [lia|].
  destruct (Z.geb_spec (Z.of_nat idx) (Z.of_nat (length (Player.inventory (player g)))));
    [lia|].
  cbn [orb]. rewrite (list_getitem_nat _ _ _ Hidx).
  rewrite Hstun, Hname.
  erewrite bind_step by (apply roll_dice_eq; lia).
  mstep. fold d4.
  rewrite inventory_remove_eq. gsimpl. cbn [Player.inventory Player_set_hp].
  assert (Hmem : item ∈ Player.inventory (player g)).
  { apply list_elem_of_lookup. eauto. }
  destruct (list_remove item (Player.inventory (player g))) as [l|] eqn:Erem.
  - eexists. split; [reflexivity|]. gsimpl. cbn.
    unfold without. rewrite Erem. cbn. rewrite <- !app_assoc. done.
  - apply list_remove_None in Erem. done.
Qed.


Lemma potion_restores_witness :
  exists g',
    action_use_item potion_game = Ret tt g' /\
    Player.hp (player g') = 11 /\ Player.inventory (player g') = [].
Proof.
  destruct (potion_restores potion_game "1" [] 0%nat 4%nat) as (g' & Hg' & _ & Hhp & Hinv & _);
    try (vm_compute; reflexivity); try discriminate.
  - apply list_elem_of_In. vm_compute. right. left. reflexivity.
  - exists g'. split; [exact Hg'|]. rewrite Hhp, Hinv. split; vm_compute; reflexivity.
Defined.
(** A run of [n] turns from an invariant state. *)
Lemma run_turns_ok n g : Inv g -> ok g (final (loop n run_turn g)).
Proof. intros HI. destruct (run_turns_post n g HI) as (? & ? & _). now split. Qed.

(** ** Hit points over a run *)

(** Every new game satisfies the state invariant; and from any state that
    satisfies it, after any number of turns of the main loop the hit points
    are between 0 and max_hp, max_hp is what it was, and the hit points have
    not gone up unless a potion was drunk in between. The same holds across a
    single player turn and across a single encounter. *)
Theorem hp_bounds_over_turns :
  (forall name chosen_class rooms_copy potion_room candidate_rooms lines tape,
     (length candidate_rooms <= 3)%nat ->
     Inv (final (new_game chosen_class rooms_copy potion_room candidate_rooms
                   (Game_init name chosen_class lines tape)))) /\
  (forall n g, Inv g ->
     let g' := final (loop n run_turn g) in
     0 <= Player.hp (player g') <= Player.max_hp (player g') /\
     Player.max_hp (player g') = Player.max_hp (player g) /\
     (Player.hp (player g') <= Player.hp (player g) \/ (potions g < potions g')%nat)) /\
  (forall g, Inv g ->
     let g' := final (player_turn g) in
     0 <= Player.hp (player g') <= Player.max_hp (player g') /\
     (Player.hp (player g') <= Player.hp (player g) \/ (potions g < potions g')%nat)) /\
  (forall g, Inv g ->
     let g' := final (handle_encounter g) in
     0 <= Player.hp (player g') <= Player.max_hp (player g') /\
     (Player.hp (player g') <= Player.hp (player g) \/ (potions g < potions g')%nat)).
Proof.
  split; [|split; [|split]].
  - intros. now apply new_game_Inv.
  - intros n g HI g'. destruct (run_turns_ok n g HI) as [[] []]. auto.
  - intros g HI g'. destruct (player_turn_post g HI) as ([] & [] & _). auto.
  - intros g HI g'. destruct (handle_encounter_post g HI) as ([] & [] & _). auto.
Qed.

Lemma hp_bounds_over_turns_witness :
  Inv potion_game /\
  (let g' := final (loop 3 run_turn potion_game) in
   0 <= Player.hp (player g') <= Player.max_hp (player g')) /\
  (let g' := final (player_turn potion_game) in
   0 <= Player.hp (player g') <= Player.max_hp (player g')) /\
  (let g' := final (handle_encounter potion_game) in
   0 <= Player.hp (player g') <= Player.max_hp (player g')).
Proof.
  destruct hp_bounds_over_turns as (Hnew & Hrun & Hturn & Henc).
  assert (HI : Inv potion_game).
  { apply (run_turns_ok 2%nat), (Hnew "Ada" "Rogue"). cbn. lia. }
  split; [exact HI|]. split; [apply (Hrun 3%nat potion_game HI)|].
  split; [apply (Hturn potion_game HI)|apply (Henc potion_game HI)].
Defined.

Lemma randint_empty_range a b g : b < a -> randint a b g = Stop (Raised ValueError) g.
Proof. intros H. unfold randint. now destruct (Z.ltb_spec b a); [|lia]. Qed.

(** [Creature.attack] with a difficulty that is not negative reads one cell
    of the random tape, deals attack_power + r with 0 <= r <= difficulty, and
    leaves the hit points at max(0, hp - damage); nothing else changes. With
    a negative difficulty the range of [random.randint] is empty and the
    attack raises ValueError before anything has changed. *)
Theorem attack_deals_bounded_damage (g : Game) :
  (0 <= Creature.difficulty (creature g) ->
   exists r,
     0 <= r <= Creature.difficulty (creature g) /\
     let dmg := Creature.attack_power (creature g) + r in
     Creature_attack g =
       Ret dmg
         (set_player (Player_set_hp (Z.max 0 (Player.hp (player g) - dmg)) (player g))
            (set_rng_pos (S (rng_pos g)) g)) /\
     0 <= Player.hp (player (final (Creature_attack g)))) /\
  (Creature.difficulty (creature g) < 0 ->
   Creature_attack g = Stop (Raised ValueError) g).
Proof.
  split.
  - intros Hd.
    exists (rng g (rng_pos g) mod (Creature.difficulty (creature g) + 1)).
    pose proof (Z.mod_pos_bound (rng g (rng_pos g)) (Creature.difficulty (creature g) + 1)).
    split; [lia|]. rewrite Creature_attack_eq by done. cbn. split; [reflexivity|lia].
  - intros Hd. unfold Creature_attack. rewrite bind_gets.
    erewrite bind_stop; [reflexivity|]. apply randint_empty_range. lia.
Qed.

Lemma attack_deals_bounded_damage_witness :
  (exists r, 0 <= r <= 2 /\
     Player.hp (player (final (Creature_attack fresh_game))) = Z.max 0 (11 - (2 + r))) /\
  Creature_attack (set_creature (Creature_set_difficulty (-1) (creature fresh_game)) fresh_game)
  = Stop (Raised ValueError)
      (set_creature (Creature_set_difficulty (-1) (creature fresh_game)) fresh_game).
Proof.
  split.
  - destruct (proj1 (attack_deals_bounded_damage fresh_game)) as (r & Hr & Heq & _).
    + vm_compute. discriminate.
    + exists r. split; [exact Hr|]. cbv zeta in Heq. rewrite Heq. reflexivity.
  - apply (proj2 (attack_deals_bounded_damage
                    (set_creature (Creature_set_difficulty (-1) (creature fresh_game))
                       fresh_game))).
    vm_compute. reflexivity.
Defined.

Lemma ticks_cooldown (n : nat) (c : Creature.t) :
  0 <= Creature.cooldown c ->
  Creature.cooldown (Nat.iter n Creature_tick c)
  = Z.max 0 (Creature.cooldown c - Z.of_nat n) /\
  Creature.difficulty (Nat.iter n Creature_tick c) = Creature.difficulty c /\
  Creature.attack_power (Nat.iter n Creature_tick c) = Creature.attack_power c.
Proof.
  intros Hc. induction n as [|n (IH1 & IH2 & IH3)]; [cbn; split; [lia|done]|].
  rewrite Nat.iter_succ. unfold Creature_tick at 1 3 5.
  destruct (Z.ltb_spec 0 (Creature.cooldown (Nat.iter n Creature_tick c))); cbn; lia.
Qed.

(** [Creature.special_move] does nothing at all while the cooldown is
    positive. Otherwise it sets the cooldown to 3 + difficulty, takes
    max(1, attack_power // 2) hit points, never below zero, and reports the
    pounce. [Creature.tick] counts a cooldown down by one and stops at zero,
    so after a pounce the next one is held back for exactly 3 + difficulty
    ticks. *)
Theorem special_move_cooldown :
  (forall g, 0 < Creature.cooldown (creature g) -> Creature_special_move g = Ret None g) /\
  (forall g, Creature.cooldown (creature g) <= 0 ->
     let damage := Z.max 1 (Creature.attack_power (creature g) / 2) in
     Creature_special_move g =
       Ret (Some ("pounce", damage))
         (set_player (Player_set_hp (Z.max 0 (Player.hp (player g) - damage)) (player g))
            (set_creature
               (Creature_set_cooldown (3 + Creature.difficulty (creature g)) (creature g))
               g))) /\
  (forall n c, 0 <= Creature.cooldown c ->
     Creature.cooldown (Nat.iter n Creature_tick c)
     = Z.max 0 (Creature.cooldown c - Z.of_nat n)) /\
  (forall g n, Creature.cooldown (creature g) <= 0 ->
     0 <= 3 + Creature.difficulty (creature g) ->
     let c' := Nat.iter n Creature_tick (creature (final (Creature_special_move g))) in
     (0 <? Creature.cooldown c') = (Z.of_nat n <? 3 + Creature.difficulty (creature g))).
Proof.
  assert (Hpounce : forall g, Creature.cooldown (creature g) <= 0 ->
     Creature_special_move g =
       Ret (Some ("pounce", Z.max 1 (Creature.attack_power (creature g) / 2)))
         (set_player
            (Player_set_hp
               (Z.max 0 (Player.hp (player g)
                         - Z.max 1 (Creature.attack_power (creature g) / 2))) (player g))
            (set_creature
               (Creature_set_cooldown (3 + Creature.difficulty (creature g)) (creature g))
               g))).
  { intros g Hc. unfold Creature_special_move. rewrite bind_gets.
    destruct (Z.ltb_spec 0 (Creature.cooldown (creature g))); [lia|]. reflexivity. }
  split; [|split; [|split]].
  - intros g Hc. unfold Creature_special_move. rewrite bind_gets.
    now destruct (Z.ltb_spec 0 (Creature.cooldown (creature g))); [|lia].
  - intros g Hc damage. now apply Hpounce.
  - intros n c Hc. now apply ticks_cooldown.
  - intros g n Hc Hd c'. subst c'. rewrite (Hpounce g Hc). cbn [final]. gsimpl.
    destruct (ticks_cooldown n
                (Creature_set_cooldown (3 + Creature.difficulty (creature g)) (creature g)))
      as (-> & _ & _); [cbn; lia|].
    cbn. destruct (Z.ltb_spec 0 (Z.max 0 (3 + Creature.difficulty (creature g) - Z.of_nat n))),
           (Z.ltb_spec (Z.of_nat n) (3 + Creature.difficulty (creature g))); lia.
Qed.

Lemma special_move_cooldown_witness :
  Creature_special_move
    (set_creature (Creature_set_cooldown 2 (creature fresh_game)) fresh_game)
  = Ret None (set_creature (Creature_set_cooldown 2 (creature fresh_game)) fresh_game) /\
  Player.hp (player (final (Creature_special_move fresh_game))) = 10 /\
  Creature.cooldown (Nat.iter 2 Creature_tick (mkCreature 1)) = 0 /\
  (0 <? Creature.cooldown
          (Nat.iter 5 Creature_tick (creature (final (Creature_special_move fresh_game)))))
  = false.
Proof.
  destruct special_move_cooldown as (Hheld & Hpounce & Hticks & Hagain).
  split; [|split; [|split]].
  - apply Hheld. vm_compute. reflexivity.
  - rewrite Hpounce by (vm_compute; discriminate). vm_compute. reflexivity.
  - rewrite Hticks by (vm_compute; discriminate). vm_compute. reflexivity.
  - rewrite Hagain; [vm_compute; reflexivity|vm_compute; discriminate|vm_compute; discriminate].
Defined.
(** ** The secret key *)

Lemma secret_key_check_idle g :
  secret_key_spawned g = true \/ has_all_main_keys g = false ->
  secret_key_check g = Ret tt g.
Proof.
  intros H. unfold secret_key_check. rewrite bind_gets. unfold id.
  destruct H as [-> | ->]; [|done]. now rewrite andb_false_r.
Qed.

Lemma spawn_secret_key_eq g :
  (2 <= length (rooms g))%nat ->
  exists room,
    room <> start_room g /\ (room < length (rooms g))%nat /\
    spawn_secret_key g =
      Ret tt
        (set_stdout (stdout g ++ [MsgStrangePull])
           (set_secret_key_spawned true
              (set_rooms (alter (Room_add_item (length (heap g))) room (rooms g))
                 (set_heap
                    (heap g ++ [mkKeyPart 4 "A cold, ornate key that hums faintly."
                                  (BACKSTORIES 4)])
                    (set_rng_pos (S (rng_pos g)) g))))).
Proof.
  intros Hlen. unfold spawn_secret_key. rewrite bind_gets. unfold id.
  set (candidate_rooms := List.filter _ _).
  destruct (random_choice_ex candidate_rooms g) as (room & Hin & Hc).
  { now apply possible_nonempty. }
  apply filter_In in Hin as [Hseq Hroom].
  apply in_seq in Hseq. apply negb_true_iff, Nat.eqb_neq in Hroom.
  exists room. split; [done|]. split; [lia|].
  erewrite bind_step by exact Hc.
  unfold alloc at 1. unfold bind at 1. mstep. reflexivity.
Qed.


(** From a state that satisfies the invariant, after any number of turns: a
    flag that was set is still set and nothing more has been announced; at
    most one secret key has been announced; if one has, the flag is set and
    the player holds parts 1, 2 and 3; and the start room holds no part 4. *)
Theorem secret_key_announced_once (n : nat) (g : Game) :
  Inv g ->
  let g' := final (loop n run_turn g) in
  (secret_key_spawned g = true ->
   secret_key_spawned g' = true /\ pulls g' = pulls g) /\
  (pulls g' <= pulls g + 1)%nat /\
  ((pulls g < pulls g')%nat ->
   secret_key_spawned g' = true /\ has_all_main_keys g' = true) /\
  Forall (fun a => part_id_of (item_at g' a) <> Some 4)
    (Room.items (room_at g' (start_room g'))).
Proof.
  intros HI g'. destruct (run_turns_ok n g HI) as [HI' HS]. subst g'.
  pose proof (step_flag _ _ HS) as Sf. pose proof (step_pulls _ _ HS) as Su.
  pose proof (step_earned _ _ HS) as Se. pose proof (inv_start_room _ HI') as I7.
  split; [|split; [|split]].
  - intros Hf. specialize (Sf Hf). rewrite Hf, Sf in Su. cbn in Su. split; [done|lia].
  - destruct (secret_key_spawned g), (secret_key_spawned (final _)); cbn in Su; lia.
  - intros Hlt. destruct (secret_key_spawned g) eqn:Hf.
    + specialize (Sf eq_refl). rewrite Sf in Su. cbn in Su. lia.
    + destruct (secret_key_spawned (final _)) eqn:Hf'; cbn in Su; [|lia].
      split; [done|]. now apply Se.
  - exact I7.
Qed.

Lemma secret_key_announced_once_witness :
  let g' := final (loop 7 run_turn key_hunt) in
  Inv key_hunt /\
  (pulls g' <= pulls key_hunt + 1)%nat /\
  (secret_key_spawned g' = true /\ has_all_main_keys g' = true) /\
  Forall (fun a => part_id_of (item_at g' a) <> Some 4)
    (Room.items (room_at g' (start_room g'))).
Proof.
  assert (HI : Inv key_hunt) by (apply (new_game_Inv "Ada" "Rogue"); cbn; lia).
  destruct (secret_key_announced_once 7 key_hunt HI) as (_ & Hle & Hearned & Hstart).
  split; [exact HI|]. split; [exact Hle|]. split; [|exact Hstart].
  apply Hearned. vm_compute. lia.
Defined.

(** The check at the end of a turn does nothing, and draws nothing, once the
    flag is set or while a main part is missing. The spawn itself, in a house
    of two rooms or more, reads one cell of the random tape, puts a new part
    4 into a room that is not the start room, sets the flag and announces
    once; in a house of the start room alone it raises IndexError. *)
Theorem secret_key_spawn :
  (forall g, secret_key_spawned g = true \/ has_all_main_keys g = false ->
     secret_key_check g = Ret tt g) /\
  (forall g, (2 <= length (rooms g))%nat ->
     exists room,
       room <> start_room g /\ (room < length (rooms g))%nat /\
       spawn_secret_key g =
         Ret tt
           (set_stdout (stdout g ++ [MsgStrangePull])
              (set_secret_key_spawned true
                 (set_rooms (alter (Room_add_item (length (heap g))) room (rooms g))
                    (set_heap
                       (heap g ++ [mkKeyPart 4 "A cold, ornate key that hums faintly."
                                     (BACKSTORIES 4)])
                       (set_rng_pos (S (rng_pos g)) g)))))) /\
  (forall g, length (rooms g) = 1%nat -> start_room g = 0%nat ->
     spawn_secret_key g = Stop (Raised IndexError) g).
Proof.
  split; [exact secret_key_check_idle|]. split; [exact spawn_secret_key_eq|].
  intros g Hlen Hstart. unfold spawn_secret_key. rewrite bind_gets. unfold id.
  rewrite Hlen, Hstart. reflexivity.
Qed.

Lemma secret_key_spawn_witness :
  secret_key_check fresh_game = Ret tt fresh_game /\
  (exists room g',
     spawn_secret_key fresh_game = Ret tt g' /\ room <> 0%nat /\
     Room.items (room_at g' room)
     = (Room.items (room_at fresh_game room) ++ [8%nat])%list) /\
  (let lonely := set_rooms [mkRoom "Cell" "A bare cell." "Four walls." 1] fresh_game in
   spawn_secret_key lonely = Stop (Raised IndexError) lonely).
Proof.
  destruct secret_key_spawn as (Hidle & Hspawn & Hlonely).
  split; [|split].
  - apply Hidle. right. vm_compute. reflexivity.
  - destruct (Hspawn fresh_game) as (room & Hne & Hlt & Heq).
    + vm_compute. lia.
    + exists room. eexists. split; [exact Heq|]. split; [exact Hne|].
      unfold room_at. cbn [rooms set_stdout set_secret_key_spawned set_rooms].
      rewrite list_lookup_total_alter. rewrite decide_True by done. reflexivity.
  - apply Hlonely; reflexivity.
Defined.
(** ** Winning *)

Lemma end_game_won g :
  exists msgs,
    end_game false g = Stop (SystemExit Won) (set_stdout (stdout g ++ msgs) g).
Proof.
  unfold end_game. mstep. unfold when.
  destruct (existsb _ _); mstep; unfold sys_exit; rewrite <- ?app_assoc; eauto.
Qed.

Lemma win_check_spec g :
  match at_exit_with_keys g, choose_from ["1"; "2"] (stdin g) with
  | false, _ => win_check g = Ret Continue g
  | true, None => exists g', win_check g = Stop (SystemExit Quit) g'
  | true, Some (c, rest) =>
      if decide (c = "1") then
        exists msgs,
          win_check g =
            Stop (SystemExit Won) (set_stdout (stdout g ++ msgs) (set_stdin rest g))
      else
        win_check g =
          Ret Continue
            (set_stdout (stdout g ++ [MsgAtFrontDoor; MsgUseKeyQuestion; MsgStayLonger])
               (set_stdin rest g))
  end.
Proof.
  unfold at_exit_with_keys, win_check. rewrite bind_gets. unfold id.
  destruct (has_all_main_keys g); cbn [andb]; [|done].
  destruct (_ =? _)%nat; [|done].
  mstep.
  destruct (choose_from ["1"; "2"] (stdin g)) as [[c rest]|] eqn:Ech.
  2:{ erewrite bind_stop by (unfold choose; gsimpl; rewrite Ech; reflexivity). eauto. }
  erewrite bind_step by (unfold choose; gsimpl; rewrite Ech; reflexivity).
  destruct (decide (c = "1")).
  - mstep.
    match goal with
    | |- context [bind (end_game false) _ ?st] =>
        destruct (end_game_won st) as [msgs Hend]
    end.
    erewrite bind_stop by exact Hend. gsimpl.
    exists ([MsgAtFrontDoor; MsgUseKeyQuestion; MsgLockClicks] ++ msgs)%list.
    rewrite <- !app_assoc. reflexivity.
  - mstep. unfold ret. rewrite <- !app_assoc. reflexivity.
Qed.

Lemma run_turn_won g g' :
  Inv g -> run_turn g = Stop (SystemExit Won) g' ->
  at_exit_with_keys g = true /\ 0 < Player.hp (player g) /\
  exists rest msgs,
    choose_from ["1"; "2"] (stdin g) = Some ("1", rest) /\
    g' = set_stdout (stdout g ++ msgs) (set_stdin rest g).
Proof.
  intros HI. unfold run_turn. rewrite bind_gets. unfold id.
  destruct (Z.leb_spec (Player.hp (player g)) 0) as [Hhp|Hhp].
  - intros Hrun. exfalso.
    assert (Hp : post nowin g ((present MsgCaught ;; end_game true ;; ret Break) g)).
    { pose proof (Step_refl g). hwalk. }
    rewrite Hrun in Hp. destruct Hp as (_ & _ & [Hnw _]). now apply Hnw.
  - pose proof (win_check_spec g) as Hspec.
    pose proof (win_check_post g HI) as (HI1 & _ & _).
    assert (Hplay : forall g1, Inv g1 ->
              (play_turn ;; ret Continue) g1 <> Stop (SystemExit Won) g').
    { intros g1 HIg Hrun.
      assert (Hp : post nowin g1 ((play_turn ;; ret Continue) g1)).
      { pose proof (Step_refl g1). hcall ltac:(now apply play_turn_post). hwalk. }
      rewrite Hrun in Hp. destruct Hp as (_ & _ & [Hnw _]). now apply Hnw. }
    destruct (at_exit_with_keys g).
    + destruct (choose_from _ _) as [[c rest]|].
      * destruct (decide (c = "1")) as [->|Hc].
        -- destruct Hspec as [msgs Hw]. unfold bind. rewrite Hw.
           intros [= <-]. split; [done|]. split; [done|]. eauto.
        -- unfold bind at 1. rewrite Hspec in *. cbn in HI1.
           intros Hrun. now apply Hplay in Hrun.
      * destruct Hspec as [gq Hq]. unfold bind. rewrite Hq. done.
    + unfold bind at 1. rewrite Hspec in *. cbn in HI1.
      intros Hrun. now apply Hplay in Hrun.
Qed.


(** A turn of the main loop ends the game as won only if at its start the
    player holds parts 1, 2 and 3, stands in the start room, is alive, and the
    next valid answer to the question at the door is "1"; the player's fields
    are then as they were. So a run of any number of turns that ends as won
    ends with the player in the start room holding parts 1, 2 and 3, in a
    turn that began with the answer "1". *)
Theorem win_only_at_door_with_keys :
  (forall g g', Inv g -> run_turn g = Stop (SystemExit Won) g' ->
     has_all_main_keys g = true /\
     Player.current_room (player g) = start_room g /\
     0 < Player.hp (player g) /\
     (exists rest, choose_from ["1"; "2"] (stdin g) = Some ("1", rest)) /\
     player g' = player g) /\
  (forall n g g', Inv g -> loop n run_turn g = Stop (SystemExit Won) g' ->
     has_all_main_keys g' = true /\
     Player.current_room (player g') = start_room g' /\
     exists g0 rest,
       Inv g0 /\ run_turn g0 = Stop (SystemExit Won) g' /\
       choose_from ["1"; "2"] (stdin g0) = Some ("1", rest)).
Proof.
  assert (Hturn : forall g g', Inv g -> run_turn g = Stop (SystemExit Won) g' ->
            has_all_main_keys g = true /\
            Player.current_room (player g) = start_room g /\
            0 < Player.hp (player g) /\
            (exists rest, choose_from ["1"; "2"] (stdin g) = Some ("1", rest)) /\
            player g' = player g /\ heap g' = heap g /\ start_room g' = start_room g).
  { intros g g' HI Hrun.
    destruct (run_turn_won g g' HI Hrun) as (Hat & Hhp & rest & msgs & Hch & ->).
    apply andb_true_iff in Hat as [Hall Hroom]. apply Nat.eqb_eq in Hroom.
    repeat split; eauto. }
  split.
  - intros g g' HI Hrun.
    destruct (Hturn g g' HI Hrun) as (? & ? & ? & ? & ? & _). auto.
  - induction n as [|n IH]; intros g g' HI; cbn; [done|].
    unfold bind. destruct (run_turn g) as [c g1|h g1] eqn:Hrun.
    + pose proof (run_turn_post g HI) as Hp. rewrite Hrun in Hp.
      destruct Hp as (HI1 & _ & _). cbn in HI1.
      destruct c; [now apply IH|done|done].
    + intros [= -> ->].
      destruct (Hturn g g' HI Hrun) as (Hall & Hroom & _ & [rest Hch] & Hpl & Hheap & Hst).
      split.
      { unfold has_all_main_keys, part_ids, item_at in *. now rewrite Hpl, Hheap. }
      split; [now rewrite Hpl, Hst|]. eauto.
Qed.

Lemma win_only_at_door_with_keys_witness :
  Inv (at_the_door "1") /\
  run_turn (at_the_door "1") =
    Stop (SystemExit Won) (final (run_turn (at_the_door "1"))) /\
  has_all_main_keys (at_the_door "1") = true /\
  Player.current_room (player (at_the_door "1")) = start_room (at_the_door "1") /\
  has_all_main_keys (final (loop 3 run_turn (at_the_door "1"))) = true.
Proof.
  destruct win_only_at_door_with_keys as (Hturn & Hrun).
  assert (HI : Inv (at_the_door "1")).
  { apply (run_turns_ok 7%nat), new_game_Inv. cbn. lia. }
  assert (Hwon : run_turn (at_the_door "1") =
                 Stop (SystemExit Won) (final (run_turn (at_the_door "1")))).
  { vm_compute. reflexivity. }
  split; [exact HI|]. split; [exact Hwon|].
  destruct (Hturn _ _ HI Hwon) as (Hall & Hroom & _).
  split; [exact Hall|]. split; [exact Hroom|].
  apply (Hrun 3%nat (at_the_door "1") (final (loop 3 run_turn (at_the_door "1"))) HI).
  vm_compute. reflexivity.
Defined.

(** With the three parts in the start room and alive, the answer "2" to the
    question at the door costs nothing: the win check reads the answer and
    prints three lines, the turn goes on with the room description, and the
    player, the found parts and the key parts are what they were. *)
Theorem declining_escape_keeps_parts (g : Game) (rest : list string) :
  has_all_main_keys g = true ->
  Player.current_room (player g) = start_room g ->
  0 < Player.hp (player g) ->
  choose_from ["1"; "2"] (stdin g) = Some ("2", rest) ->
  let g1 :=
    set_stdout (stdout g ++ [MsgAtFrontDoor; MsgUseKeyQuestion; MsgStayLonger])
      (set_stdin rest g) in
  win_check g = Ret Continue g1 /\
  run_turn g = (play_turn ;; ret Continue) g1 /\
  player g1 = player g /\ found_parts g1 = found_parts g /\
  has_all_main_keys g1 = true.
Proof.
  intros Hall Hroom Hhp Hch g1.
  pose proof (win_check_spec g) as Hspec.
  unfold at_exit_with_keys in Hspec. apply Nat.eqb_eq in Hroom.
  rewrite Hall, Hroom, Hch in Hspec. cbn [andb] in Hspec.
  destruct (decide ("2" = "1")) as [[=]|_].
  split; [exact Hspec|]. split; [|done].
  unfold run_turn. rewrite bind_gets. unfold id.
  destruct (Z.leb_spec (Player.hp (player g)) 0); [lia|].
  unfold bind at 1. now rewrite Hspec.
Qed.

Lemma declining_escape_keeps_parts_witness :
  win_check (at_the_door "2") =
    Ret Continue
      (set_stdout
         (stdout (at_the_door "2") ++ [MsgAtFrontDoor; MsgUseKeyQuestion; MsgStayLonger])
         (set_stdin [] (at_the_door "2"))).
Proof.
  apply (declining_escape_keeps_parts (at_the_door "2") []); vm_compute; reflexivity.
Defined.
(** ** Locked rooms and their reveal texts *)

Lemma for_each_inv {A} (P : Game -> Prop) (f : A -> M unit) (l : list A) :
  (forall x g, P g -> exists g', f x g = Ret tt g' /\ P g') ->
  forall g, P g -> exists g', for_each l f g = Ret tt g' /\ P g'.
Proof.
  intros Hf. induction l as [|x l IH]; intros g HP; cbn.
  - now exists g.
  - destruct (Hf x g HP) as (g1 & Hx & HP1).
    destruct (IH g1 HP1) as (g2 & Hl & HP2).
    exists g2. split; [|done]. now rewrite (bind_step _ _ _ _ _ Hx).
Qed.

Lemma required_alter (f : Room.t -> Room.t) (i j : nat) (l : list Room.t) :
  (forall r, Room.required_unlock_part (f r) = Room.required_unlock_part r) ->
  Room.required_unlock_part (alter f i l !!! j) = Room.required_unlock_part (l !!! j).
Proof.
  intros Hf. rewrite list_lookup_total_alter. case_decide as Hc; [|done].
  destruct Hc as [-> _]. apply Hf.
Qed.

Lemma reveal_text_alter (f : Room.t -> Room.t) (i j : nat) (l : list Room.t) :
  (forall r, Room.reveal_text (f r) = Room.reveal_text r) ->
  Room.reveal_text (alter f i l !!! j) = Room.reveal_text (l !!! j).
Proof.
  intros Hf. rewrite list_lookup_total_alter. case_decide as Hc; [|done].
  destruct Hc as [-> _]. apply Hf.
Qed.

(** Picking up a key part by a search. *)
Lemma action_search_key g c rest item p b :
  let room := Player.current_room (player g) in
  let options := imap (fun i it => (str (S i), it)) (Room.items (room_at g room)) in
  choose_from (keys options ++ ["0"]) (stdin g) = Some (c, rest) ->
  c <> "0" -> dict_get c options = Some item ->
  Item.kind (item_at g item) = Key p b ->
  exists g',
    action_search g = Ret tt g' /\
    found_parts g' = {[p]} ∪ found_parts g /\
    Player.key_parts (player g') = (Player.key_parts (player g) ++ [item])%list /\
    Player.current_room (player g') = room /\
    (forall i, Room.required_unlock_part (room_at g' i)
               = Room.required_unlock_part (room_at g i)) /\
    (forall i, Room.reveal_text (room_at g' i) = Room.reveal_text (room_at g i)).
Proof.
  intros room options Hch Hc Hget Hkind.
  unfold action_search. rewrite bind_gets. unfold id.
  subst room options.
  destruct (Room.items (room_at g (Player.current_room (player g)))) as [|a0 its] eqn:Eitems.
  { done. }
  set (options := imap (fun i it => (str (S i), it)) (a0 :: its)) in *.
  rewrite bind_present.
  erewrite bind_step by (unfold choose; gsimpl; rewrite Hch; reflexivity).
  destruct (decide (c = "0")) as [|_]; [done|].
  rewrite Hget, Hkind.
  unfold Player_pickup. mstep.
  match goal with |- exists g', for_each ?l ?f ?g1 = _ /\ _ =>
    destruct (for_each_inv
                (fun g' => found_parts g' = found_parts g1 /\ player g' = player g1 /\
                           (forall i, Room.required_unlock_part (room_at g' i)
                                      = Room.required_unlock_part (room_at g1 i)) /\
                           (forall i, Room.reveal_text (room_at g' i)
                                      = Room.reveal_text (room_at g1 i)))
                f l) with (g := g1) as (g' & Hrun & Hf & Hp & Hq & Ht)
  end.
  - intros x g2 (Hf & Hp & Hq & Ht). rewrite bind_gets. unfold id.
    case_bool_decide.
    + mstep. eexists. split; [reflexivity|]. unfold room_at in *. gsimpl.
      split; [done|]. split; [done|]. split; intros i.
      * rewrite required_alter by done. apply Hq.
      * rewrite reveal_text_alter by done. apply Ht.
    + now exists g2.
  - done.
  - exists g'. split; [exact Hrun|]. unfold room_at in *.
    rewrite Hf, Hp. gsimpl. cbn.
    split; [done|]. split; [done|]. split; [done|]. split; intros i.
    + rewrite Hq. gsimpl. apply required_alter. intros r. unfold Room_remove_item.
      now destruct (list_remove _ _).
    + rewrite Ht. gsimpl. apply reveal_text_alter. intros r. unfold Room_remove_item.
      now destruct (list_remove _ _).
Qed.

Lemma describe_current_room_spec g :
  let room := Player.current_room (player g) in
  exists g',
    describe_current_room g = Ret tt g' /\
    player g' = player g /\ found_parts g' = found_parts g /\
    (forall i, Room.required_unlock_part (room_at g' i)
               = Room.required_unlock_part (room_at g i)) /\
    (forall i, i <> room ->
       reveals i g' = reveals i g /\
       Room.reveal_text (room_at g' i) = Room.reveal_text (room_at g i)) /\
    (if reveal_due g then
       reveals room g' = S (reveals room g) /\
       Room.reveal_text (room_at g' room) = None
     else
       reveals room g' = reveals room g /\
       Room.reveal_text (room_at g' room) = Room.reveal_text (room_at g room)).
Proof.
  intros room.
  assert (Htail : forall g1 : Game,
    player g1 = player g ->
    exists g',
      (present (MsgYouAreIn (Room.name (room_at g room)) (Room.short_desc (room_at g room))) ;;
       present (MsgLongDesc (Room.long_desc (room_at g room))) ;;
       (match Room.items (room_at g room) with
        | [] => present MsgNoItems
        | _ :: _ => present MsgNoticeItems
        end) ;;
       match keys (Room.adjacent (room_at g room)) with
       | [] => present MsgNoExits
       | exits => present (MsgExits exits)
       end) g1 = Ret tt g' /\
      player g' = player g /\ found_parts g' = found_parts g1 /\
      rooms g' = rooms g1 /\
      forall i, reveals i g' = reveals i g1).
  { intros g1 Hp. mstep.
    destruct (Room.items _), (keys _); mstep;
      (eexists; split; [reflexivity|]); unfold reveals; gsimpl;
      (split; [exact Hp|]); (split; [reflexivity|]); (split; [reflexivity|]);
      intros i; rewrite !count_snoc; cbn [is_reveal b2n]; lia. }
  unfold describe_current_room. rewrite bind_gets. unfold id. fold room.
  unfold reveal_due. fold room.
  destruct (Room.required_unlock_part (room_at g room)) as [p|] eqn:Ereq.
  - destruct (Room.reveal_text (room_at g room)) as [t|] eqn:Etext.
    + destruct (truthy_part (Some p) && bool_decide (p ∈ found_parts g)
                && truthy_text (Some t)) eqn:Econd.
      * rewrite bind_assoc, bind_present. unfold modify_room. rewrite bind_modify.
        match goal with |- exists g', bind _ _ ?g1 = _ /\ _ =>
          destruct (Htail g1) as (g' & Hrun & Hp & Hf & Hr & Hv); [done|]
        end.
        assert (Hroom : (room < length (rooms g))%nat).
        { destruct (decide (room < length (rooms g))%nat) as [|Hge]; [done|].
          unfold room_at in Etext. rewrite list_lookup_total_alt in Etext.
          rewrite lookup_ge_None_2 in Etext by lia. done. }
        exists g'. rewrite ?bind_assoc in *. split; [exact Hrun|].
        unfold room_at in *. rewrite Hr. unfold reveals in *. gsimpl.
        split; [done|]. split; [done|]. split; [|split].
        -- intros i. now apply required_alter.
        -- intros i Hi. rewrite Hv. gsimpl. rewrite count_snoc. cbn.
           destruct (Nat.eqb_spec i room); [done|]. cbn.
           split; [lia|]. rewrite list_lookup_total_alter.
           rewrite decide_False by (intros [? _]; done). done.
        -- rewrite Hv. gsimpl. rewrite count_snoc. cbn. rewrite Nat.eqb_refl. cbn.
           split; [lia|]. rewrite list_lookup_total_alter.
           now rewrite decide_True by done.
      * rewrite bind_ret.
        destruct (Htail g) as (g' & Hrun & Hp & Hf & Hr & Hv); [done|].
        exists g'. rewrite ?bind_assoc in *. split; [exact Hrun|].
        unfold room_at in *. rewrite Hr. repeat split; try done; try apply Hv.
    + rewrite bind_ret.
      destruct (Htail g) as (g' & Hrun & Hp & Hf & Hr & Hv); [done|].
      exists g'. rewrite ?bind_assoc in *. split; [exact Hrun|].
      unfold room_at in *. rewrite Hr.
      replace (_ && _ && _) with false by (cbn; now rewrite andb_false_r).
      repeat split; try done; try apply Hv.
  - rewrite bind_ret.
    destruct (Htail g) as (g' & Hrun & Hp & Hf & Hr & Hv); [done|].
    exists g'. rewrite ?bind_assoc in *. split; [exact Hrun|].
    unfold room_at in *. rewrite Hr. repeat split; try done; apply Hv.
Qed.

Lemma armed_le_1 i g : (armed i g <= 1)%nat.
Proof. unfold armed. destruct (truthy_text _); cbn; lia. Qed.

Lemma is_accessible_iff r (S : gset Z) f :
  Room.required_unlock_part r = Some f -> (is_accessible r S = true <-> f ∈ S).
Proof. unfold is_accessible. intros ->. apply bool_decide_eq_true. Qed.

Lemma newly_accessible r (S : gset Z) p :
  is_accessible r S = false /\ is_accessible r ({[p]} ∪ S) = true <->
  Room.required_unlock_part r = Some p /\ p ∉ S.
Proof.
  unfold is_accessible. destruct (Room.required_unlock_part r) as [f|].
  - rewrite bool_decide_eq_false, bool_decide_eq_true. split.
    + intros [Hn [Hp%elem_of_singleton|Hs]%elem_of_union]; [|done]. now subst.
    + intros [[= ->] Hn]. split; [done|]. apply elem_of_union_l. now apply elem_of_singleton.
  - split; [now intros [? _]|now intros [? _]].
Qed.


(** A room that requires part f is accessible iff f is among the found
    parts, and adding p to the found parts makes exactly the rooms that
    require p and were locked accessible. Picking up key part p by a search
    adds p to the found parts and the part to the player's key parts, so that
    exactly those rooms open; no requirement and no reveal text changes. *)
Theorem key_part_unlocks_rooms :
  (forall r (S : gset Z) f,
     Room.required_unlock_part r = Some f -> (is_accessible r S = true <-> f ∈ S)) /\
  (forall r (S : gset Z) p,
     is_accessible r S = false /\ is_accessible r ({[p]} ∪ S) = true <->
     Room.required_unlock_part r = Some p /\ p ∉ S) /\
  (forall g c rest item p b,
     let room := Player.current_room (player g) in
     let options := imap (fun i it => (str (S i), it)) (Room.items (room_at g room)) in
     choose_from (keys options ++ ["0"]) (stdin g) = Some (c, rest) ->
     c <> "0" -> dict_get c options = Some item ->
     Item.kind (item_at g item) = Key p b ->
     exists g',
       action_search g = Ret tt g' /\
       found_parts g' = {[p]} ∪ found_parts g /\
       Player.key_parts (player g') = (Player.key_parts (player g) ++ [item])%list /\
       forall i,
         (is_accessible (room_at g i) (found_parts g) = false /\
          is_accessible (room_at g' i) (found_parts g') = true <->
          Room.required_unlock_part (room_at g i) = Some p /\ p ∉ found_parts g) /\
         Room.required_unlock_part (room_at g' i)
         = Room.required_unlock_part (room_at g i) /\
         Room.reveal_text (room_at g' i) = Room.reveal_text (room_at g i)).
Proof.
  split; [exact is_accessible_iff|]. split; [exact newly_accessible|].
  intros g c rest item p b room options Hch Hc Hget Hkind.
  destruct (action_search_key g c rest item p b Hch Hc Hget Hkind)
    as (g' & Hrun & Hf & Hk & _ & Hq & Ht).
  exists g'. split; [exact Hrun|]. split; [exact Hf|]. split; [exact Hk|].
  intros i. split; [|split; [apply Hq|apply Ht]].
  rewrite Hf. unfold is_accessible at 2. rewrite Hq.
  fold (is_accessible (room_at g i) ({[p]} ∪ found_parts g)).
  apply newly_accessible.
Qed.

Lemma key_part_unlocks_rooms_witness :
  is_accessible (room_at search_game 3) {[1]} = true /\
  (is_accessible (room_at search_game 3) ∅ = false /\
   is_accessible (room_at search_game 3) ({[1]} ∪ ∅) = true) /\
  exists g',
    action_search search_game = Ret tt g' /\
    found_parts g' = {[1]} ∪ found_parts search_game /\
    is_accessible (room_at search_game 3) (found_parts search_game) = false /\
    is_accessible (room_at g' 3) (found_parts g') = true.
Proof.
  destruct key_part_unlocks_rooms as (Hiff & Hnew & Hsearch).
  split; [|split].
  - apply (Hiff _ _ 1); [reflexivity|]. now apply elem_of_singleton.
  - apply Hnew. split; [reflexivity|]. apply not_elem_of_empty.
  - destruct (Hsearch search_game "2" [] 5%nat 1
                "Key Part 1: A smeared drawing of the creature. It was once someone you knew.")
      as (g' & Hrun & Hf & _ & Hacc); try (vm_compute; reflexivity); try discriminate.
    exists g'. split; [exact Hrun|]. split; [exact Hf|].
    destruct (Hacc 3%nat) as (Hopen & _). apply Hopen. split; [reflexivity|].
    replace (found_parts search_game) with (∅ : gset Z) by (vm_compute; reflexivity).
    apply not_elem_of_empty.
Defined.

(** [describe_current_room] always returns, leaving the player and the
    found parts alone. It shows the reveal text of the room the player is in
    iff that room has a nonzero requirement that is among the found parts and
    still has a nonempty text, and then clears that text; otherwise it shows
    none and keeps the text. No other room's text or count changes. *)
Theorem room_description_reveal (g : Game) :
  let room := Player.current_room (player g) in
  exists g',
    describe_current_room g = Ret tt g' /\
    player g' = player g /\ found_parts g' = found_parts g /\
    (forall i, i <> room ->
       reveals i g' = reveals i g /\
       Room.reveal_text (room_at g' i) = Room.reveal_text (room_at g i)) /\
    (if reveal_due g then
       reveals room g' = S (reveals room g) /\
       Room.reveal_text (room_at g' room) = None
     else
       reveals room g' = reveals room g /\
       Room.reveal_text (room_at g' room) = Room.reveal_text (room_at g room)).
Proof.
  intros room.
  destruct (describe_current_room_spec g) as (g' & Hrun & Hp & Hf & _ & Ho & Hd).
  exists g'. auto.
Qed.

(** From a state that satisfies the invariant, over any number of turns, the
    number of times the reveal text of a room was shown plus one if the room
    still has a text stays the same: the text is shown at most once more,
    never again once it is gone, it is kept until it is shown, and it is
    shown only if the room requires a nonzero part that has been found by
    then. In a game that starts as a new game no text is ever shown twice. *)
Theorem reveal_at_most_once :
  (forall n g i,
     Inv g ->
     let g' := final (loop n run_turn g) in
     (reveals i g' + armed i g' = reveals i g + armed i g)%nat /\
     (reveals i g <= reveals i g' <= reveals i g + 1)%nat /\
     (armed i g = 0%nat -> reveals i g' = reveals i g) /\
     (reveals i g' = reveals i g -> armed i g' = armed i g) /\
     ((reveals i g < reveals i g')%nat ->
      exists f, Room.required_unlock_part (room_at g i) = Some f /\
                f <> 0 /\ f ∈ found_parts g')) /\
  (forall name chosen_class rooms_copy potion_room candidate_rooms lines tape n i,
     (length candidate_rooms <= 3)%nat ->
     let g := final (new_game chosen_class rooms_copy potion_room candidate_rooms
                       (Game_init name chosen_class lines tape)) in
     (reveals i (final (loop n run_turn g)) <= 1)%nat).
Proof.
  split.
  - intros n g i HI g'.
    destruct (run_turns_post n g HI) as (_ & HS & _). fold g' in HS.
    pose proof (step_reveals _ _ HS i) as Sr.
    pose proof (step_reveals_mono _ _ HS i) as Sn.
    pose proof (step_required _ _ HS) as Sq.
    pose proof (step_shown _ _ HS i) as Sw. clearbody g'.
    pose proof (armed_le_1 i g'). pose proof (armed_le_1 i g).
    split; [done|]. split; [lia|]. split; [lia|]. split; [lia|].
    intros Hlt. destruct (Sw Hlt) as (f & Hf & Hnz & Hin).
    exists f. now rewrite <- Sq.
  - intros name chosen_class rooms_copy potion_room candidate_rooms lines tape n i Hlen g.
    pose proof (new_game_post name chosen_class rooms_copy potion_room candidate_rooms
                  lines tape Hlen) as (HI & HS0 & _).
    fold g in HI, HS0.
    destruct (run_turns_post n g HI) as (_ & HS & _).
    pose proof (step_reveals _ _ (Step_trans _ _ _ HS0 HS) i) as Hr.
    pose proof (armed_le_1 i (Game_init name chosen_class lines tape)).
    unfold reveals at 2 in Hr. cbn [Game_init stdout] in Hr.
    unfold count in Hr. cbn [List.filter length] in Hr. lia.
Qed.

Lemma reveal_at_most_once_witness :
  Inv hasty_visit /\
  reveals 3 (final (loop 6 run_turn hasty_visit)) = 1%nat /\
  armed 3 (final (loop 6 run_turn hasty_visit)) = 0%nat /\
  (exists f, Room.required_unlock_part (room_at hasty_visit 3) = Some f /\
             f <> 0 /\ f ∈ found_parts (final (loop 6 run_turn hasty_visit))) /\
  (reveals 3 (final (loop 9 run_turn hasty_visit)) <= 1)%nat.
Proof.
  destruct reveal_at_most_once as (Hrun & Hnew).
  assert (HI : Inv hasty_visit) by (apply (new_game_Inv "Ada" "Rogue"); cbn; lia).
  split; [exact HI|].
  destruct (Hrun 6%nat hasty_visit 3%nat HI) as (_ & _ & _ & _ & Hshown).
  split; [vm_compute; reflexivity|]. split; [vm_compute; reflexivity|].
  split; [apply Hshown; vm_compute; lia|].
  apply (Hnew "Ada" "Rogue"). cbn. lia.
Defined.

(** The reveal text waits for a room description: the rogue of [hasty_visit]
    holds part 1 after three turns; in the fourth turn the rogue walks into
    the Basement and bolts out of it again, and no text is shown; in the
    fifth the rogue walks in a second time, and the text comes with the room
    description that opens the sixth turn. *)
Lemma reveal_waits_for_room_description :
  let g3 := final (loop 3 run_turn hasty_visit) in
  let g4 := final (loop 4 run_turn hasty_visit) in
  let g5 := final (loop 5 run_turn hasty_visit) in
  let g6 := final (loop 6 run_turn hasty_visit) in
  1 ∈ found_parts g3 /\
  Room.required_unlock_part (room_at g3 3) = Some 1 /\
  drop (length (stdout g3)) (stdout g4)
  = [ MsgYouAreIn "Kitchen" "A tiled kitchen with broken plates.";
      MsgLongDesc
        "Cabinets hang open; a faint trail of dried liquid leads under the sink.";
      MsgNoticeItems; MsgExits ["west"; "down"]; MsgChooseAction; MsgWhereTo;
      MsgYouMoveTo "Basement"; MsgCreatureHere; MsgRolls 24 11; MsgSpotsYou;
      MsgOptions; MsgTryMove 13; MsgBolt "Kitchen" ] /\
  reveals 3 g4 = 0%nat /\
  Player.current_room (player g5) = 3%nat /\ reveals 3 g5 = 0%nat /\
  take 2 (drop (length (stdout g5)) (stdout g6))
  = [ MsgReveal 3
        "You discover a hatch in the kitchen floor that leads down. The keypart you found whispers the way.";
      MsgYouAreIn "Basement" "A cold basement with a humming furnace." ] /\
  reveals 3 g6 = 1%nat.
Proof.
  cbv zeta. split; [|vm_compute; repeat split; reflexivity].
  assert (H : elements (found_parts (final (loop 3 run_turn hasty_visit))) = [1])
    by (vm_compute; reflexivity).
  apply elem_of_elements. rewrite H. left.
Qed.

(** ** The loops end *)

Lemma bind_Ret_inv {A B} (m : M A) (k : A -> M B) g b g' :
  bind m k g = Ret b g' -> exists a g1, m g = Ret a g1 /\ k a g1 = Ret b g'.
Proof. unfold bind. destruct (m g) as [a g1|]; [eauto|done]. Qed.

Lemma end_game_stops lost g :
  exists g', end_game lost g = Stop (SystemExit (if lost then Lost else Won)) g'.
Proof.
  destruct lost.
  - unfold end_game. mstep. unfold sys_exit. eauto.
  - destruct (end_game_won g) as [msgs H]. eauto.
Qed.

Lemma player_turn_reads g g' :
  Inv g -> player_turn g = Ret tt g' -> (length (stdin g') < length (stdin g))%nat.
Proof.
  intros HI. unfold player_turn. apply choose_then_reads; [done|].
  intros c g1 HI1. pose proof (Step_refl g1).
  eapply post_try_except; [eassumption|now apply player_action_post|].
  intros x g2 _ HI2 HS2. hwalk.
Qed.

Lemma play_turn_reads g g' :
  Inv g -> play_turn g = Ret tt g' -> (length (stdin g') < length (stdin g))%nat.
Proof.
  intros HI Hrun. unfold play_turn in Hrun.
  apply bind_Ret_inv in Hrun as ([] & g1 & H1 & Hrun).
  pose proof (describe_current_room_post g HI) as (HI1 & HS1 & _).
  rewrite H1 in HI1, HS1. cbn in HI1, HS1.
  apply bind_Ret_inv in Hrun as ([] & g2 & H2 & Hrun).
  pose proof (creature_tick_post g1 HI1) as (HI2 & HS2 & _).
  rewrite H2 in HI2, HS2. cbn in HI2, HS2.
  apply bind_Ret_inv in Hrun as ([] & g3 & H3 & Hrun).
  pose proof (player_turn_reads g2 g3 HI2 H3) as Hread.
  pose proof (player_turn_post g2 HI2) as (HI3 & _ & _).
  rewrite H3 in HI3. cbn in HI3.
  match type of Hrun with
  | ?t = _ => assert (Hp : post nowin g3 t) by (pose proof (Step_refl g3); hwalk)
  end.
  rewrite Hrun in Hp. destruct Hp as (_ & HS4 & _). cbn in HS4.
  apply step_stdin in HS1, HS2, HS4. lia.
Qed.

(** What a turn of the main loop can come to: it goes on, with a line less
    to read, or it halts, and not for want of fuel. *)
Lemma run_turn_kinds g :
  Inv g ->
  match run_turn g with
  | Ret c g' => c = Continue /\ (length (stdin g') < length (stdin g))%nat
  | Stop h _ => h <> Starved
  end.
Proof.
  intros HI.
  assert (Hplay : forall g1, Inv g1 ->
            (length (stdin g1) <= length (stdin g))%nat ->
            match (play_turn ;; ret Continue) g1 with
            | Ret c g' => c = Continue /\ (length (stdin g') < length (stdin g))%nat
            | Stop h _ => h <> Starved
            end).
  { intros g1 HI1 Hle. unfold bind.
    pose proof (play_turn_post g1 HI1) as Hp.
    destruct (play_turn g1) as [[] g2|h g2] eqn:E.
    - cbn. split; [done|]. apply play_turn_reads in E; [lia|done].
    - destruct Hp as (_ & _ & [_ Hs]). exact Hs. }
  unfold run_turn. rewrite bind_gets. unfold id.
  destruct (Z.leb_spec (Player.hp (player g)) 0) as [Hhp|Hhp].
  - rewrite bind_present.
    match goal with |- context [bind (end_game true) _ ?g1] =>
      destruct (end_game_stops true g1) as [g2 Hend]
    end.
    erewrite bind_stop by exact Hend. discriminate.
  - pose proof (win_check_spec g) as Hspec.
    pose proof (win_check_post g HI) as (HI1 & _ & _).
    destruct (at_exit_with_keys g).
    + destruct (choose_from _ _) as [[c rest]|] eqn:Ech.
      * destruct (decide (c = "1")) as [->|Hc].
        -- destruct Hspec as [msgs Hw]. unfold bind. rewrite Hw. discriminate.
        -- unfold bind at 1. rewrite Hspec in *. cbn in HI1.
           apply Hplay; [done|]. gsimpl. apply choose_from_length in Ech. lia.
      * destruct Hspec as [gq Hq]. unfold bind. rewrite Hq. discriminate.
    + unfold bind at 1. rewrite Hspec in *. cbn in HI1. now apply Hplay.
Qed.

Lemma run_turns_end n g :
  Inv g -> (length (stdin g) < n)%nat ->
  exists h g', loop n run_turn g = Stop h g' /\ h <> Starved.
Proof.
  revert g. induction n as [|n IH]; intros g HI Hn; [lia|]. cbn. unfold bind.
  pose proof (run_turn_kinds g HI) as Hk.
  pose proof (run_turn_post g HI) as (HI1 & _ & _).
  destruct (run_turn g) as [c g1|h g1].
  - destruct Hk as [-> Hlt]. cbn in HI1. apply IH; [done|lia].
  - eauto.
Qed.

(** Every pass through the main loop that does not end the game reads at
    least one line of input and goes on ([break] is never reached: the two
    calls of [end_game] before it exit). So on a finite input, from a state
    that satisfies the invariant, [run] never returns and never runs out of
    turns: it ends by [sys.exit] (a win, a loss, or the end of the input in
    [choose]) or by an exception that nothing catches. The same holds for the
    loop of an encounter: each round reads a line, and [handle_encounter]
    returns or ends in one of these ways. *)
Theorem run_ends_by_exit_or_exception (g : Game) :
  Inv g ->
  (forall c g', run_turn g = Ret c g' ->
     c = Continue /\ (length (stdin g') < length (stdin g))%nat) /\
  (forall room creature_room c g',
     encounter_round room creature_room g = Ret c g' ->
     (length (stdin g') < length (stdin g))%nat) /\
  (exists h g', run g = Stop h g' /\ h <> Starved) /\
  halt_of (handle_encounter g) <> Some Starved.
Proof.
  intros HI. split; [|split; [|split]].
  - intros c g' Hrun. pose proof (run_turn_kinds g HI) as Hk. now rewrite Hrun in Hk.
  - intros room creature_room c g'. now apply encounter_round_reads.
  - unfold run, while_true. apply run_turns_end; [done|lia].
  - pose proof (handle_encounter_post g HI) as (_ & _ & Hh).
    destruct (handle_encounter g); cbn; [done|]. destruct Hh as [_ Hs]. congruence.
Qed.

Lemma run_ends_by_exit_or_exception_witness :
  (exists h g', run hasty_visit = Stop h g' /\ h <> Starved) /\
  halt_of (run hasty_visit) = Some (SystemExit Quit) /\
  halt_of (run (at_the_door "1")) = Some (SystemExit Won).
Proof.
  assert (HI : Inv hasty_visit) by (apply (new_game_Inv "Ada" "Rogue"); cbn; lia).
  destruct (run_ends_by_exit_or_exception hasty_visit HI) as (_ & _ & Hrun & _).
  split; [exact Hrun|]. split; vm_compute; reflexivity.
Defined.

(** ** Use Item on a stun item *)

(** Use Item on a stun item with [d] uses left while the creature is in the
    room makes a stun attempt, which uses one up. With more than one use left
    the action returns and the item stays in the inventory. With the last use
    [attempt_stun] takes the item out of the inventory and [action_use_item]
    then removes it a second time: [list.remove] raises ValueError. As an
    action of the player's turn the error is caught and reported; as option 4
    of an encounter nothing catches it and it ends [handle_encounter]. *)
Theorem use_item_on_stun_item (g : Game) (choice : string) (rest : list string)
    (idx item : nat) (it : Item.t) (s d : Z) :
  stdin g = choice :: rest ->
  choice <> "" -> choice <> "0" ->
  choice ∈ (str <$> seq 0 (length (Player.inventory (player g)) + 1)) ->
  int choice = Some (S idx) ->
  Player.inventory (player g) !! idx = Some item ->
  NoDup (Player.inventory (player g)) ->
  heap g !! item = Some it -> Item.kind it = Stun s d -> 1 <= d ->
  creature_room_index g = Some (Player.current_room (player g)) ->
  (Player.current_room (player g) < length (rooms g))%nat ->
  links_ok g = true ->
  exists g',
    heap g' = <[item := set_durability (d - 1) it]> (heap g) /\
    Player.hp (player g') = Player.hp (player g) /\
    (1 < d ->
     action_use_item g = Ret tt g' /\
     Player.inventory (player g') = Player.inventory (player g)) /\
    (d = 1 ->
     action_use_item g = Stop (Raised ValueError) g' /\
     (item ∉ Player.inventory (player g')) /\
     try_except (player_action "5") Exception (present MsgActionError) g
     = Ret tt (set_stdout (stdout g' ++ [MsgActionError]) g') /\
     forall room creature_room,
       encounter_tactic room creature_room "4" g = Stop (Raised ValueError) g').
Proof.
  intros Hin Hne H0 Hvalid Hint Hidx Hnd Hit Hkind Hd Hcr Hlt Hok.
  set (g1 := set_stdin rest (set_stdout (stdout g ++ [MsgWhichUse]) g)).
  assert (Hplaced : creature_placed g1 = true).
  { unfold creature_placed. subst g1. gsimpl. rewrite Hcr. now apply Nat.ltb_lt. }
  destruct (attempt_stun_usable g1 item it s d) as (g' & Hrun & Hheap & Hinv & Hhp & _);
    [done|done|done|done|done|].
  assert (Hdur : durability (item_at g' item) = d - 1).
  { unfold item_at. rewrite Hheap.
    rewrite list_lookup_total_insert_eq by (now apply lookup_lt_Some in Hit).
    unfold durability, set_durability. now rewrite Hkind. }
  assert (Hact : action_use_item g =
                 if durability (item_at g' item) <=? 0 then inventory_remove item g'
                 else Ret tt g').
  { unfold action_use_item. rewrite bind_gets. unfold id.
    destruct (Player.inventory (player g)) as [|x inv] eqn:Einv; [done|].
    rewrite <- Einv in *.
    rewrite bind_present.
    erewrite bind_step by (apply choose_head; [exact Hin|done|gsimpl; exact Hvalid]).
    destruct (decide (choice = "0")); [done|].
    rewrite Hint.
    replace (Z.of_nat (S idx) - 1) with (Z.of_nat idx) by lia.
    pose proof (lookup_lt_Some _ _ _ Hidx) as Hlen.
    destruct (Z.ltb_spec (Z.of_nat idx) 0); [lia|].
    destruct (Z.geb_spec (Z.of_nat idx) (Z.of_nat (length (Player.inventory (player g)))));
      [lia|].
    cbn [orb]. rewrite (list_getitem_nat _ _ _ Hidx).
    rewrite (item_at_lookup _ _ _ Hit). unfold is_StunItem. rewrite Hkind.
    erewrite bind_step
      by (apply (get_creature_location_eq _ (Player.current_room (player g)));
          gsimpl; done).
    rewrite Nat.eqb_refl. fold g1.
    erewrite bind_step by exact Hrun. rewrite bind_gets. unfold id.
    destruct (durability (item_at g' item) <=? 0); reflexivity. }
  exists g'. split; [exact Hheap|]. split; [exact Hhp|]. rewrite Hdur in Hact. split.
  - intros Hd1. destruct (Z.leb_spec (d - 1) 0); [lia|]. split; [exact Hact|].
    rewrite Hinv. destruct (Z.leb_spec (d - 1) 0); [lia|]. reflexivity.
  - intros ->. destruct (Z.leb_spec (1 - 1) 0); [|lia].
    assert (Hgone : item ∉ Player.inventory (player g')).
    { rewrite Hinv. subst g1. gsimpl. now apply without_elem_of. }
    assert (Hraise : action_use_item g = Stop (Raised ValueError) g').
    { rewrite Hact, inventory_remove_eq.
      apply list_remove_None in Hgone. now rewrite Hgone. }
    split; [exact Hraise|]. split; [exact Hgone|]. split.
    + unfold try_except, player_action. pick_option. now rewrite Hraise.
    + intros room creature_room. unfold encounter_tactic. pick_option.
      now erewrite bind_stop by exact Hraise.
Qed.

Lemma use_item_on_stun_item_witness :
  (exists g',
     encounter_round 2 2 last_charge_game = Stop (Raised ValueError) g' /\
     (0%nat ∉ Player.inventory (player g'))) /\
  halt_of (run crash_game) = Some (Raised ValueError).
Proof.
  split; [|vm_compute; reflexivity].
  pose (g1 := set_stdin ["1"]
                (set_stdout (stdout last_charge_game ++ [MsgOptions]) last_charge_game)).
  destruct (use_item_on_stun_item g1 "1" [] 0 0
              (mkStunItem "Fire Extinguisher" "A heavy canister. A good blunt stun." 8 1)
              8 1)
    as (g' & _ & _ & _ & Hlast); try (vm_compute; reflexivity); try discriminate.
  - apply list_elem_of_In. vm_compute. right. left. reflexivity.
  - vm_compute. repeat constructor. intros H. inversion H.
  - vm_compute. lia.
  - destruct (Hlast eq_refl) as (_ & Hgone & _ & Henc).
    exists g'. split; [|exact Hgone].
    rewrite <- (Henc 2%nat 2%nat). reflexivity.
Defined.

(** ** Reading a choice *)

Lemma choose_from_Some options lines c rest :
  choose_from options lines = Some (c, rest) <->
  exists skipped,
    lines = (skipped ++ c :: rest)%list /\
    Forall (fun l => l = "" \/ l ∉ options) skipped /\ c <> "" /\ c ∈ options.
Proof.
  revert c rest. induction lines as [|x t IH]; intros c rest; cbn.
  - split; [done|]. intros (skipped & H & _). now destruct skipped.
  - destruct (decide (x = "")) as [->|Hx].
    + rewrite IH. split.
      * intros (sk & -> & Hsk & Hc & Hin). exists ("" :: sk).
        split; [done|]. split; [|done]. constructor; [now left|done].
      * intros ([|y sk] & Heq & Hsk & Hc & Hin); cbn in Heq.
        -- injection Heq as <- _. done.
        -- injection Heq as <- ->. apply Forall_cons in Hsk as [_ Hsk]. eauto.
    + destruct (decide (x ∈ options)) as [Hin|Hnin].
      * split.
        -- intros [= <- <-]. exists []. split; [done|]. split; [constructor|done].
        -- intros ([|y sk] & Heq & Hsk & Hc & Hin'); cbn in Heq.
           ++ now injection Heq as <- <-.
           ++ injection Heq as <- ->. apply Forall_cons in Hsk as [[?|?] _]; done.
      * rewrite IH. split.
        -- intros (sk & -> & Hsk & Hc & Hin). exists (x :: sk).
           split; [done|]. split; [|done]. constructor; [now right|done].
        -- intros ([|y sk] & Heq & Hsk & Hc & Hin); cbn in Heq.
           ++ injection Heq as <- _. done.
           ++ injection Heq as <- ->. apply Forall_cons in Hsk as [_ Hsk]. eauto.
Qed.

Lemma choose_from_None options lines :
  choose_from options lines = None <->
  Forall (fun l => l = "" \/ l ∉ options) lines.
Proof.
  induction lines as [|x t IH]; cbn; [split; [constructor|done]|].
  destruct (decide (x = "")) as [->|Hx].
  - rewrite IH. split; [intros; constructor; [now left|done]|].
    now intros [_ ?]%Forall_cons.
  - destruct (decide (x ∈ options)) as [Hin|Hnin].
    + split; [done|]. intros [[?|?] _]%Forall_cons; done.
    + rewrite IH. split; [intros; constructor; [now right|done]|].
      now intros [_ ?]%Forall_cons.
Qed.

(** [choose] returns the first line of the input that is not empty and is
    one of the options, having read and dropped the lines before it; an empty
    line is turned down even if the empty string is an option. It never
    raises: when no line of the input will do it ends the game by
    [sys.exit], having read all of it. Nothing but the input changes. *)
Theorem choose_first_valid_line (options : list string) (g : Game) :
  (forall c g',
     choose options g = Ret c g' <->
     exists skipped rest,
       stdin g = (skipped ++ c :: rest)%list /\
       Forall (fun l => l = "" \/ l ∉ options) skipped /\
       c <> "" /\ c ∈ options /\ g' = set_stdin rest g) /\
  (forall h g',
     choose options g = Stop h g' <->
     Forall (fun l => l = "" \/ l ∉ options) (stdin g) /\
     h = SystemExit Quit /\ g' = set_stdin [] g).
Proof.
  unfold choose. split.
  - intros c g'. destruct (choose_from options (stdin g)) as [[c0 rest0]|] eqn:E.
    + split.
      * intros [= <- <-]. apply choose_from_Some in E as (sk & ? & ? & ? & ?).
        exists sk, rest0. done.
      * intros (sk & rest & Hs & Hsk & Hc & Hin & ->).
        assert (E' : choose_from options (stdin g) = Some (c, rest)).
        { apply choose_from_Some. eauto. }
        rewrite E in E'. now injection E' as -> ->.
    + split; [done|]. intros (sk & rest & Hs & Hsk & Hc & Hin & ->).
      assert (E' : choose_from options (stdin g) = Some (c, rest)).
      { apply choose_from_Some. eauto. }
      rewrite E in E'. done.
  - intros h g'. destruct (choose_from options (stdin g)) as [[c0 rest0]|] eqn:E.
    + split; [done|]. intros (Hall & _). apply choose_from_None in Hall.
      rewrite E in Hall. done.
    + apply choose_from_None in E. split; [now intros [= <- <-]|].
      now intros (_ & -> & ->).
Qed.

(** ** Moving *)

Lemma dict_get_keys {V} (c : string) (d : list (string * V)) :
  c ∈ keys d -> exists v, dict_get c d = Some v /\ (c, v) ∈ d.
Proof.
  unfold keys. induction d as [|[k v] t IH]; cbn; [intros H; inversion H|].
  intros [->|Hin]%elem_of_cons.
  - exists v. rewrite decide_True by done. split; [done|left].
  - destruct (decide (k = c)) as [->|Hne].
    + exists v. split; [done|left].
    + destruct (IH Hin) as (v' & Hget & Hel). exists v'. split; [done|now right].
Qed.

(** [action_move] never raises and only ever takes the player through an
    exit of the current room into a room that is accessible with the parts
    found. When it does, the player is no longer hiding; the rooms, the found
    parts, the creature and the hit points are as before. When no exit is
    accessible it says so and reads nothing. At the end of the input it ends
    the game. *)
Theorem action_move_stays_legal (g : Game) :
  let room := Player.current_room (player g) in
  match action_move g with
  | Ret _ g' =>
      rooms g' = rooms g /\ found_parts g' = found_parts g /\
      creature_room_index g' = creature_room_index g /\
      Player.hp (player g') = Player.hp (player g) /\
      Player.inventory (player g') = Player.inventory (player g) /\
      ((accessible_exits g room = [] /\
        g' = set_stdout (stdout g ++ [MsgNoAccessibleExits]) g) \/
       (exists direction dest,
          (direction, dest) ∈ Room.adjacent (room_at g room) /\
          is_accessible (room_at g dest) (found_parts g) = true /\
          Player.current_room (player g') = dest /\
          Player.is_hiding (player g') = false /\
          (length (stdin g') < length (stdin g))%nat))
  | Stop h g' => h = SystemExit Quit /\ accessible_exits g room <> []
  end.
Proof.
  intros room. unfold action_move. rewrite bind_gets. unfold id. fold room.
  destruct (accessible_exits g room) as [|x0 acc] eqn:Eacc.
  { cbn. repeat split; try done. now left. }
  rewrite <- Eacc. rewrite bind_present. unfold bind at 1, choose at 1. gsimpl.
  destruct (choose_from (keys (accessible_exits g room)) (stdin g)) as [[c rest]|] eqn:Ech.
  2:{ split; [done|]. now rewrite Eacc. }
  pose proof (choose_from_length _ _ _ _ Ech) as Hlen.
  apply choose_from_Some in Ech as (_ & _ & _ & _ & Hin).
  destruct (dict_get_keys _ _ Hin) as ([direction dest] & Hget & Hel).
  rewrite Hget. mstep. cbn.
  repeat split; try done. right. exists direction, dest.
  unfold accessible_exits in Hel.
  apply list_elem_of_lookup in Hel as [i Hi].
  rewrite list_lookup_imap in Hi.
  destruct (List.filter _ _ !! i) as [y|] eqn:Ey; [|done].
  cbn in Hi. injection Hi as _ ->.
  assert (Hf : In (direction, dest)
                 (List.filter
                    (fun x => is_accessible (room_at g x.2) (found_parts g))
                    (Room.adjacent (room_at g room)))).
  { apply list_elem_of_In, list_elem_of_lookup. eauto. }
  apply filter_In in Hf as [Hadj Hacc].
  split; [now apply list_elem_of_In|]. split; [exact Hacc|]. split; [done|].
  split; [done|lia].
Qed.

(** ** The creature leaves a room *)

(** The step written out wherever the creature leaves [room]: without exits
    nothing happens and nothing is drawn; otherwise one cell of the tape
    picks one of the exits and the creature is put there. *)
Lemma wander_from_spec (room : nat) (g : Game) :
  links_ok g = true ->
  (Room.adjacent (room_at g room) = [] -> wander_from room g = Ret tt g) /\
  (Room.adjacent (room_at g room) <> [] ->
   exists t,
     In t (values (Room.adjacent (room_at g room))) /\
     wander_from room g =
       Ret tt (set_creature_room_index (Some t) (set_rng_pos (S (rng_pos g)) g))).
Proof.
  intros Hok. unfold wander_from. rewrite bind_gets. split.
  - now intros ->.
  - intros Hadj. destruct (Room.adjacent (room_at g room)) as [|x t] eqn:E; [done|].
    rewrite <- E.
    destruct (random_choice_ex (values (Room.adjacent (room_at g room))) g)
      as (tg & Hin & Hch); [now rewrite E|].
    exists tg. split; [done|].
    erewrite bind_step by exact Hch.
    erewrite bind_step; [reflexivity|].
    apply rooms_index_eq. gsimpl. now apply (links_ok_target g room).
Qed.

(** ** Hiding from the creature *)

(** When the player picks Hide in an encounter (option 2), the roll is
    agility + d6, plus 2 for a rogue, plus the hiding spots of the room,
    against 8 + 2 * difficulty. If the roll is at least that, the player is
    hiding, takes no damage, and the round leaves the loop; the creature
    leaves for a room next to the one it was met in exactly when the next
    draw is below 0.5 and that room has an exit. If the roll is lower, the
    creature lands an ordinary attack, the hiding flag is not touched, and the
    loop goes on unless the player is dead. *)
Theorem hide_tactic (g : Game) (room creature_room : nat) (rest : list string) :
  stdin g = "2" :: rest ->
  0 <= Creature.difficulty (creature g) ->
  links_ok g = true ->
  let d6 := 1 + rng g (rng_pos g) mod 6 in
  let bonus :=
    if decide (lower (Player.character_class (player g)) = "rogue") then 2 else 0 in
  let hide_roll :=
    Player.agility (player g) + d6 + bonus + Room.hiding_spots (room_at g room) in
  let k1 := rng g (S (rng_pos g)) in
  let adj := Room.adjacent (room_at g creature_room) in
  (hide_roll >= 8 + Creature.difficulty (creature g) * 2 ->
   let leaves := dyadic_ltb (mkDyadic (k1 mod 2 ^ 53) 53) float_0_5 in
   exists g',
     encounter_round room creature_room g = Ret Break g' /\
     Player.is_hiding (player g') = true /\
     Player.hp (player g') = Player.hp (player g) /\
     Player.current_room (player g') = Player.current_room (player g) /\
     (leaves = false \/ adj = [] -> creature_room_index g' = creature_room_index g) /\
     (leaves = true -> adj <> [] ->
      exists t, In t (values adj) /\ creature_room_index g' = Some t) /\
     stdout g' =
       (stdout g ++ [MsgOptions; MsgAttemptHide hide_roll; MsgHideSuccess])%list) /\
  (hide_roll < 8 + Creature.difficulty (creature g) * 2 ->
   let dmg :=
     Creature.attack_power (creature g)
     + k1 mod (Creature.difficulty (creature g) + 1) in
   let hp' := Z.max 0 (Player.hp (player g) - dmg) in
   exists g',
     encounter_round room creature_room g =
       Ret (if hp' <=? 0 then Return else Continue) g' /\
     Player.hp (player g') = hp' /\
     Player.is_hiding (player g') = Player.is_hiding (player g) /\
     Player.current_room (player g') = Player.current_room (player g) /\
     creature_room_index g' = creature_room_index g /\
     stdout g' =
       (stdout g ++
        [MsgOptions; MsgAttemptHide hide_roll; MsgHidingFails; MsgSlash dmg])%list).
Proof.
  intros Hin Hd Hok d6 bonus hide_roll k1 adj.
  unfold encounter_round.
  rewrite bind_present.
  erewrite bind_step by (apply choose_head; [exact Hin|done|right; left]).
  unfold encounter_tactic. pick_option.
  rewrite bind_gets.
  erewrite bind_step by (apply roll_dice_eq; lia).
  unfold id. gsimpl. fold d6.
  assert (Hroll :
    (if decide (lower (Player.character_class (player g)) = "rogue")
     then Player.agility (player g) + d6 + 2 else Player.agility (player g) + d6)
    + Room.hiding_spots (rooms g !!! room) = hide_roll).
  { subst hide_roll bonus. unfold room_at. destruct (decide _); lia. }
  rewrite Hroll. rewrite bind_present. gsimpl.
  split.
  - intros Hge. set (leaves := dyadic_ltb _ _).
    destruct (Z.geb_spec hide_roll (8 + Creature.difficulty (creature g) * 2)); [|lia].
    mstep.
    erewrite bind_step by apply random_random_eq.
    gsimpl. fold k1. fold leaves. unfold when.
    destruct leaves.
    + match goal with |- context [bind (wander_from creature_room) _ ?st] =>
        destruct (wander_from_spec creature_room st) as [Hnone Hsome]; [exact Hok|];
        change (Room.adjacent (room_at st creature_room)) with adj in Hnone, Hsome
      end.
      destruct adj as [|x t] eqn:Eadj.
      * erewrite bind_step by (now apply Hnone).
        eexists. split; [reflexivity|]. gsimpl. cbn. rewrite <- !app_assoc.
        repeat split; auto. intros _ Hne. done.
      * destruct Hsome as (tg & Htg & Hw); [done|].
        erewrite bind_step by exact Hw.
        eexists. split; [reflexivity|]. gsimpl. cbn. rewrite <- !app_assoc.
        repeat split; auto.
        -- intros [?|?]; done.
        -- intros _ _. exists tg. split; [exact Htg|done].
    + rewrite bind_ret.
      eexists. split; [reflexivity|]. gsimpl. cbn. rewrite <- !app_assoc.
      repeat split; auto. intros ?. done.
  - intros Hlt.
    set (dmg := Creature.attack_power (creature g)
                + k1 mod (Creature.difficulty (creature g) + 1)).
    set (hp' := Z.max 0 (Player.hp (player g) - dmg)).
    destruct (Z.geb_spec hide_roll (8 + Creature.difficulty (creature g) * 2)); [lia|].
    rewrite bind_present.
    erewrite bind_step by (apply Creature_attack_eq; gsimpl; lia).
    gsimpl. fold k1. fold dmg. fold hp'.
    rewrite bind_present, after_attack_eq. gsimpl. cbn [Player.hp Player_set_hp].
    eexists. split; [reflexivity|]. gsimpl. cbn. rewrite <- !app_assoc.
    repeat split; auto.
Qed.

(** ** Stunning the creature in an encounter *)

Lemma links_ok_same g g' : rooms g' = rooms g -> links_ok g' = links_ok g.
Proof. unfold links_ok. now intros ->. Qed.

(** When the player picks Stun in an encounter (option 1) and then a stun
    item with a use left, the attempt uses one up. If the stun roll reaches
    the creature's defense, the player takes no damage, the round leaves the
    loop, and the creature ends up in a room next to the one it was met in,
    if that room has an exit. If the roll falls short, the creature stays
    where it is and lands an ordinary attack, and the loop goes on unless the
    player is dead. *)
Theorem stun_tactic (g : Game) (room creature_room : nat) (pick : string)
    (rest : list string) (idx a : nat) (it : Item.t) (s d : Z) :
  stdin g = "1" :: pick :: rest ->
  pick <> "" -> pick ∈ (str <$> seq 1 (length (stun_items g))) ->
  int pick = Some (S idx) ->
  stun_items g !! idx = Some a ->
  heap g !! a = Some it -> Item.kind it = Stun s d -> 1 <= d ->
  creature_placed g = true -> links_ok g = true ->
  0 <= Creature.difficulty (creature g) ->
  let d20 := 1 + rng g (rng_pos g) mod 20 in
  let player_roll := d20 + s + Player.strength (player g) / 2 in
  let d6 := 1 + rng g (S (rng_pos g)) mod 6 in
  let creature_defense := 12 + Creature.difficulty (creature g) * 3 + d6 in
  let adj := Room.adjacent (room_at g creature_room) in
  (player_roll >= creature_defense ->
   exists g',
     encounter_round room creature_room g = Ret Break g' /\
     Player.hp (player g') = Player.hp (player g) /\
     Player.current_room (player g') = Player.current_room (player g) /\
     durability (item_at g' a) = d - 1 /\
     (adj <> [] -> exists t, In t (values adj) /\ creature_room_index g' = Some t)) /\
  (player_roll < creature_defense ->
   exists g' dmg,
     Creature.attack_power (creature g) <= dmg
       <= Creature.attack_power (creature g) + Creature.difficulty (creature g) /\
     let hp' := Z.max 0 (Player.hp (player g) - dmg) in
     encounter_round room creature_room g =
       Ret (if hp' <=? 0 then Return else Continue) g' /\
     Player.hp (player g') = hp' /\
     Player.current_room (player g') = Player.current_room (player g) /\
     durability (item_at g' a) = d - 1 /\
     creature_room_index g' = creature_room_index g).
Proof.
  intros Hin Hne Hvalid Hint Hidx Hit Hkind Hd Hplaced Hok Hdiff
    d20 player_roll d6 creature_defense adj.
  set (g1 := set_stdin rest
               (set_stdout ((stdout g ++ [MsgOptions]) ++ [MsgWhichStun])
                  (set_stdin (pick :: rest) (set_stdout (stdout g ++ [MsgOptions]) g)))).
  destruct (attempt_stun_usable g1 a it s d)
    as (g2 & Hrun & Hheap & _ & Hhp & Hroom & Hrooms & Hcreature & _ & Hstay & _);
    [done|done|done|done|done|].
  cbv zeta in Hrun, Hstay. subst g1. gsimpl. revert Hrun Hstay. gsimpl.
  fold d20 player_roll d6 creature_defense. intros Hrun Hstay.
  gsimpl. cbn [rooms set_stdin set_stdout] in Hrooms.
  cbn [player set_stdin set_stdout] in Hhp, Hroom.
  cbn [creature set_stdin set_stdout] in Hcreature.
  cbn [heap set_stdin set_stdout] in Hheap.
  assert (Hdur : forall g3, heap g3 = heap g2 -> durability (item_at g3 a) = d - 1).
  { intros g3 H3. unfold item_at. rewrite H3, Hheap.
    rewrite list_lookup_total_insert_eq by (now apply lookup_lt_Some in Hit).
    unfold durability, set_durability. now rewrite Hkind. }
  assert (Hround : encounter_round room creature_room g =
    (success <- ret (player_roll >=? creature_defense) ;;
     if success then present MsgStunned ;; wander_from creature_room ;; ret Break
     else dmg <- Creature_attack ;; present (MsgStunFailed dmg) ;; after_attack) g2).
  { unfold encounter_round. rewrite bind_present.
    erewrite bind_step by (apply choose_head; [exact Hin|done|left]).
    unfold encounter_tactic. pick_option. rewrite bind_gets. unfold id.
    assert (Hs : stun_items
                   (set_stdin (pick :: rest) (set_stdout (stdout g ++ [MsgOptions]) g))
                 = stun_items g) by reflexivity.
    rewrite Hs.
    destruct (stun_items g) as [|x l] eqn:Est; [done|]. rewrite <- Est in *.
    rewrite bind_present.
    erewrite bind_step by (apply choose_head; [reflexivity|done|exact Hvalid]).
    rewrite Hint. replace (Z.of_nat (S idx) - 1) with (Z.of_nat idx) by lia.
    rewrite (list_getitem_nat _ _ _ Hidx).
    gsimpl. erewrite bind_step by exact Hrun. now rewrite bind_ret. }
  rewrite Hround, bind_ret. split.
  - intros Hge.
    destruct (Z.geb_spec player_roll creature_defense); [|lia].
    rewrite bind_present.
    match goal with |- context [bind (wander_from creature_room) _ ?st] =>
      destruct (wander_from_spec creature_room st) as [Hnone Hsome];
        [rewrite <- Hok; now apply links_ok_same|];
      assert (Hadj : Room.adjacent (room_at st creature_room) = adj)
        by (unfold room_at, adj; gsimpl; now rewrite Hrooms);
      rewrite Hadj in Hnone, Hsome
    end.
    destruct adj as [|x t] eqn:Eadj.
    + erewrite bind_step by (now apply Hnone).
      eexists. split; [reflexivity|]. gsimpl.
      split; [done|]. split; [done|]. split; [now apply Hdur|done].
    + destruct Hsome as (tg & Htg & Hw); [done|].
      erewrite bind_step by exact Hw.
      eexists. split; [reflexivity|]. gsimpl.
      split; [done|]. split; [done|]. split; [now apply Hdur|].
      intros _. exists tg. split; [exact Htg|done].
  - intros Hlt.
    destruct (Z.geb_spec player_roll creature_defense); [lia|].
    erewrite bind_step by (apply Creature_attack_eq; rewrite Hcreature; lia).
    rewrite Hcreature.
    set (dmg := Creature.attack_power (creature g)
                + rng g2 (rng_pos g2) mod (Creature.difficulty (creature g) + 1)).
    rewrite bind_present, after_attack_eq. gsimpl. cbn [Player.hp Player_set_hp].
    rewrite Hhp.
    eexists. exists dmg. split.
    { subst dmg.
      pose proof (Z.mod_pos_bound (rng g2 (rng_pos g2))
                    (Creature.difficulty (creature g) + 1)). lia. }
    cbv zeta. split; [reflexivity|]. gsimpl. cbn [Player.hp Player.current_room
      Player_set_hp].
    split; [done|]. split; [done|]. split; [now apply Hdur|].
    apply Hstay. now destruct (_ || _).
Qed.

Lemma hide_tactic_witness :
  (exists g',
     encounter_round 2 2 (cornered_warrior ["2"] [5; 0]) = Ret Break g' /\
     Player.is_hiding (player g') = true) /\
  (exists g',
     encounter_round 2 2 (cornered_warrior ["2"] [0; 0]) = Ret Continue g' /\
     Player.hp (player g') = 12).
Proof.
  split.
  - destruct (proj1 (hide_tactic (cornered_warrior ["2"] [5; 0]) 2 2 []
                       eq_refl ltac:(vm_compute; discriminate) eq_refl))
      as (g' & Hrun & Hhid & _).
    + vm_compute. discriminate.
    + exists g'. split; [exact Hrun|exact Hhid].
  - destruct (proj2 (hide_tactic (cornered_warrior ["2"] [0; 0]) 2 2 []
                       eq_refl ltac:(vm_compute; discriminate) eq_refl))
      as (g' & Hrun & Hhp & _).
    + vm_compute. reflexivity.
    + exists g'. split; [exact Hrun|]. rewrite Hhp. vm_compute. reflexivity.
Defined.

Lemma stun_tactic_witness :
  (exists g',
     encounter_round 2 2 (cornered_warrior ["1"; "1"] [11; 0]) = Ret Break g' /\
     durability (item_at g' 0) = 0 /\
     exists t, In t [1%nat; 3%nat] /\ creature_room_index g' = Some t) /\
  (exists g' dmg,
     2 <= dmg <= 3 /\
     encounter_round 2 2 (cornered_warrior ["1"; "1"] [0; 5])
     = Ret (if Z.max 0 (14 - dmg) <=? 0 then Return else Continue) g' /\
     creature_room_index g' = Some 2%nat).
Proof.
  split.
  - destruct (proj1 (stun_tactic (cornered_warrior ["1"; "1"] [11; 0]) 2 2 "1" [] 0 0
                       (mkStunItem "Fire Extinguisher"
                          "A heavy canister. A good blunt stun." 8 1) 8 1
                       eq_refl ltac:(discriminate)
                       ltac:(apply list_elem_of_In; vm_compute; left; reflexivity)
                       eq_refl eq_refl eq_refl eq_refl ltac:(lia) eq_refl eq_refl
                       ltac:(vm_compute; discriminate)))
      as (g' & Hrun & _ & _ & Hdur & Hmoved).
    + vm_compute. discriminate.
    + exists g'. split; [exact Hrun|]. split; [exact Hdur|].
      apply Hmoved. vm_compute. discriminate.
  - destruct (proj2 (stun_tactic (cornered_warrior ["1"; "1"] [0; 5]) 2 2 "1" [] 0 0
                       (mkStunItem "Fire Extinguisher"
                          "A heavy canister. A good blunt stun." 8 1) 8 1
                       eq_refl ltac:(discriminate)
                       ltac:(apply list_elem_of_In; vm_compute; left; reflexivity)
                       eq_refl eq_refl eq_refl eq_refl ltac:(lia) eq_refl eq_refl
                       ltac:(vm_compute; discriminate)))
      as (g' & dmg & Hdmg & Hrun & _ & _ & _ & Hstay).
    + vm_compute. reflexivity.
    + exists g', dmg. split; [exact Hdmg|]. split; [exact Hrun|exact Hstay].
Defined.

(** ** The start of an encounter *)

(** [handle_encounter] with the creature placed in another room returns at
    once, and nothing has changed. With the creature in the player's room it
    rolls the d20 and the d6 of the detection; when the creature's roll is
    not above the hide score the player goes unnoticed: no option is offered,
    no line of input is read, no damage is done, and the creature leaves for
    a neighbouring room exactly when the next draw is below 0.2 and its room
    has an exit. *)
Theorem encounter_entry (g : Game) (c : nat) :
  creature_room_index g = Some c -> (c < length (rooms g))%nat ->
  links_ok g = true ->
  let room := Player.current_room (player g) in
  (room <> c -> handle_encounter g = Ret tt g) /\
  (room = c ->
   let d20 := 1 + rng g (rng_pos g) mod 20 in
   let d6 := 1 + rng g (S (rng_pos g)) mod 6 in
   let r := detect_player_with d20 d6 (creature g) (player g) (room_at g room) in
   r.1.1 = false ->
   let leaves :=
     dyadic_ltb (mkDyadic (rng g (S (S (rng_pos g))) mod 2 ^ 53) 53) float_0_2 in
   let adj := Room.adjacent (room_at g c) in
   exists g',
     handle_encounter g = Ret tt g' /\
     player g' = player g /\ stdin g' = stdin g /\
     stdout g' = (stdout g ++ [MsgCreatureHere; MsgRolls r.1.2 r.2; MsgNotNoticed])%list /\
     (leaves = false \/ adj = [] -> creature_room_index g' = Some c) /\
     (leaves = true -> adj <> [] ->
      exists t, In t (values adj) /\ creature_room_index g' = Some t)).
Proof.
  intros Hc Hlt Hok room.
  assert (Hloc : forall (k : nat -> M unit), bind get_creature_location k g = k c g).
  { intros k. apply bind_step. now apply get_creature_location_eq. }
  split.
  - intros Hne. unfold handle_encounter. rewrite bind_gets. unfold id. fold room.
    rewrite Hloc. now destruct (Nat.eqb_spec room c).
  - intros Hroom. subst room. rewrite Hroom. intros d20 d6 r Hr leaves adj.
    unfold handle_encounter. rewrite bind_gets. unfold id.
    rewrite Hloc, Hroom, Nat.eqb_refl. cbn [negb]. rewrite bind_present.
    unfold Creature_detect_player. rewrite ?bind_assoc.
    erewrite bind_step by (apply roll_dice_eq; lia).
    rewrite ?bind_assoc, bind_gets. unfold id. rewrite ?bind_assoc.
    erewrite bind_step by (apply roll_dice_eq; lia).
    rewrite ?bind_assoc, bind_ret. gsimpl. unfold room_at in r. fold d20 d6.
    change (detect_player_with d20 d6 (creature g) (player g) (rooms g !!! c)) with r.
    destruct r as [[detected c_roll] p_hide]. cbn in Hr. subst detected.
    rewrite bind_present. gsimpl. rewrite bind_present.
    erewrite bind_step by apply random_random_eq.
    gsimpl. fold leaves. unfold when.
    destruct leaves.
    + match goal with |- context [wander_from c ?st] =>
        destruct (wander_from_spec c st) as [Hnone Hsome]; [exact Hok|];
        change (Room.adjacent (room_at st c)) with adj in Hnone, Hsome
      end.
      destruct adj as [|x t] eqn:Eadj.
      * rewrite Hnone by done.
        eexists. split; [reflexivity|]. gsimpl. rewrite <- !app_assoc.
        repeat split; auto. intros _ ?. done.
      * destruct Hsome as (tg & Htg & Hw); [done|]. rewrite Hw.
        eexists. split; [reflexivity|]. gsimpl. rewrite <- !app_assoc.
        repeat split; auto.
        -- intros [?|?]; done.
        -- intros _ _. exists tg. split; [exact Htg|done].
    + eexists. split; [reflexivity|]. gsimpl. rewrite <- !app_assoc.
      repeat split; auto. intros ?. done.
Qed.

Lemma encounter_entry_witness :
  handle_encounter armed_game = Ret tt armed_game /\
  exists g',
    handle_encounter (cornered_warrior [] [0; 5; 0; 1]) = Ret tt g' /\
    Player.hp (player g') = 14 /\
    exists t, In t [1%nat; 3%nat] /\ creature_room_index g' = Some t.
Proof.
  split.
  - apply (proj1 (encounter_entry armed_game 0 eq_refl ltac:(vm_compute; lia) eq_refl)).
    vm_compute. discriminate.
  - destruct (proj2 (encounter_entry (cornered_warrior [] [0; 5; 0; 1]) 2
                       eq_refl ltac:(vm_compute; lia) eq_refl) eq_refl)
      as (g' & Hrun & Hp & _ & _ & _ & Hmoved).
    + vm_compute. reflexivity.
    + exists g'. split; [exact Hrun|]. rewrite Hp. split; [reflexivity|].
      apply Hmoved; [vm_compute; reflexivity|vm_compute; discriminate].
Defined.

(** ** Searching a room *)

(** A search of a room with items offers them by number, and 0 for none.
    With 0 nothing changes. With the number of an item that is not a key part
    the item is appended to the inventory and its first occurrence is taken
    out of the room; key parts and found parts stay as they are. A search of
    a room without items reads no input and draws once: below 0.2 a new Rusty
    Key is put into the room (not into the inventory), otherwise nothing is
    found. *)
Theorem search_moves_item (g : Game) :
  let room := Player.current_room (player g) in
  let items := Room.items (room_at g room) in
  let options := imap (fun i it => (str (S i), it)) items in
  (items = [] ->
   let found :=
     dyadic_ltb (mkDyadic (rng g (rng_pos g) mod 2 ^ 53) 53) float_0_2 in
   action_search g =
     Ret tt
       (if found then
          set_stdout (stdout g ++ [MsgFoundRustyKey])
            (set_rooms (alter (Room_add_item (length (heap g))) room (rooms g))
               (set_heap
                  (heap g ++ [mkItem "Rusty Key"
                                "Probably not the escape key, but something."])
                  (set_rng_pos (S (rng_pos g)) g)))
        else set_stdout (stdout g ++ [MsgFoundNothing]) (set_rng_pos (S (rng_pos g)) g))) /\
  (forall rest,
     items <> [] ->
     choose_from (keys options ++ ["0"]) (stdin g) = Some ("0", rest) ->
     action_search g =
       Ret tt (set_stdout (stdout g ++ [MsgWhichPickUp; MsgLeaveUntouched])
                 (set_stdin rest g))) /\
  (forall c rest item,
     choose_from (keys options ++ ["0"]) (stdin g) = Some (c, rest) ->
     c <> "0" -> dict_get c options = Some item ->
     part_id_of (item_at g item) = None ->
     In item items /\
     action_search g =
       Ret tt
         (set_rooms (alter (Room_remove_item item) room (rooms g))
            (set_stdout
               (stdout g ++ [MsgWhichPickUp; MsgPickUp (Item.name (item_at g item))])
               (set_player
                  (Player_set_inventory (Player.inventory (player g) ++ [item])
                     (player g))
                  (set_stdin rest g))))).
Proof.
  intros room items options. unfold action_search. rewrite bind_gets. unfold id.
  fold room. fold items. split; [|split].
  - intros ->. erewrite bind_step by apply random_random_eq.
    destruct (dyadic_ltb _ _); [|reflexivity].
    unfold alloc at 1. unfold bind at 1. mstep. reflexivity.
  - intros rest Hne Hch.
    destruct items as [|x its] eqn:Eitems; [done|]. subst options.
    rewrite bind_present.
    erewrite bind_step by (unfold choose; gsimpl; rewrite Hch; reflexivity).
    rewrite decide_True by done. mstep. unfold present, modify. gsimpl.
    now rewrite <- app_assoc.
  - intros c rest item Hch Hc Hget Hpart.
    destruct items as [|x its] eqn:Eitems; [done|]. subst options.
    assert (Hin : In item (x :: its)).
    { apply list_elem_of_In. now apply (dict_get_imap_elem_of (fun i => str (S i)) _ c). }
    split; [exact Hin|].
    rewrite bind_present.
    erewrite bind_step by (unfold choose; gsimpl; rewrite Hch; reflexivity).
    rewrite decide_False by done. rewrite Hget.
    unfold part_id_of in Hpart.
    destruct (Item.kind (item_at g item)) eqn:Ek; [| |done];
      unfold Player_pickup; mstep; unfold present, modify; gsimpl;
      rewrite <- app_assoc; reflexivity.
Qed.

Lemma search_moves_item_witness :
  (exists g',
     action_search (set_player (Player_set_current_room 6 (player fresh_game)) fresh_game)
     = Ret tt g' /\
     Room.items (room_at g' 6) = [8%nat] /\ Player.inventory (player g') = []) /\
  (exists g',
     action_search (rogue_game ["0"] []) = Ret tt g' /\
     rooms g' = rooms (rogue_game ["0"] [])) /\
  (exists g',
     action_search (rogue_game ["1"] []) = Ret tt g' /\
     Player.inventory (player g') = [3%nat] /\ Room.items (room_at g' 0) = [5%nat]).
Proof.
  split; [|split].
  - pose proof (proj1 (search_moves_item
                         (set_player (Player_set_current_room 6 (player fresh_game))
                            fresh_game)) eq_refl) as Hrun.
    eexists. split; [exact Hrun|]. split; vm_compute; reflexivity.
  - pose proof (proj1 (proj2 (search_moves_item (rogue_game ["0"] []))) []
                  ltac:(vm_compute; discriminate) eq_refl) as Hrun.
    eexists. split; [exact Hrun|]. reflexivity.
  - destruct (proj2 (proj2 (search_moves_item (rogue_game ["1"] []))) "1" [] 3%nat
                eq_refl ltac:(discriminate) eq_refl eq_refl) as [_ Hrun].
    eexists. split; [exact Hrun|]. split; vm_compute; reflexivity.
Defined.

(** ** The end of the game *)

(** [end_game] never returns: it prints and exits, as lost or as won. The
    line about the secret key is printed exactly when the game is won and one
    of the player's key parts has id 4. Nothing but the output changes. *)
Theorem end_game_always_exits (lost : bool) (g : Game) :
  let secret :=
    existsb (fun a => bool_decide (part_id_of (item_at g a) = Some 4))
      (Player.key_parts (player g)) in
  end_game lost g =
    Stop (SystemExit (if lost then Lost else Won))
      (set_stdout
         (stdout g ++
          (if lost then [MsgGameOver]
           else if secret then [MsgCongratulations; MsgSecretEnding]
                else [MsgCongratulations]) ++ [MsgThankYou])%list g) /\
  (In MsgSecretEnding
      (if lost then [MsgGameOver]
       else if secret then [MsgCongratulations; MsgSecretEnding]
            else [MsgCongratulations]) <->
   lost = false /\
   exists a, In a (Player.key_parts (player g)) /\ part_id_of (item_at g a) = Some 4).
Proof.
  intros secret. split.
  - unfold end_game. destruct lost.
    + mstep. unfold sys_exit. now rewrite <- !app_assoc.
    + mstep. unfold item_at in secret. fold secret. unfold when.
      destruct secret; mstep; unfold sys_exit; now rewrite <- !app_assoc.
  - destruct lost.
    + split; [intros [H|[]]; discriminate H|now intros [? _]].
    + destruct secret eqn:Es.
      * split; [intros _|intros _; right; now left]. split; [done|].
        apply existsb_exists in Es as (a & Ha & Hp).
        exists a. split; [done|]. now apply bool_decide_eq_true in Hp.
      * split; [intros [H|[]]; discriminate H|].
        intros (_ & a & Ha & Hp).
        assert (secret = true); [|congruence].
        apply existsb_exists. exists a. split; [done|]. now apply bool_decide_eq_true.
Qed.

(** ** Rooms *)

Lemma list_remove_app_new (a : nat) (l : list nat) :
  a ∉ l -> list_remove a (l ++ [a]) = Some l.
Proof.
  induction l as [|x t IH]; cbn; intros Hn.
  - now rewrite decide_True.
  - rewrite decide_False by (intros ->; apply Hn; left).
    rewrite IH; [done|]. intros ?. apply Hn. now right.
Qed.

(** The bookkeeping of a room. [remove_item] of an item that is not in the
    room changes nothing; of an item that is there it takes out one
    occurrence, the first, and keeps the order of the rest; adding an item
    that was not there and removing it again gives the room back. [link]
    makes the direction lead to the room given, replacing an earlier exit of
    that name in its place, and leaves every other direction alone. None of
    them touches the lock or the reveal text. *)
Theorem room_bookkeeping (r : Room.t) (a : nat) :
  (a ∉ Room.items r -> Room_remove_item a r = r) /\
  (forall l1 l2, Room.items r = (l1 ++ a :: l2)%list -> a ∉ l1 ->
     Room.items (Room_remove_item a r) = (l1 ++ l2)%list) /\
  (a ∉ Room.items r -> Room_remove_item a (Room_add_item a r) = r) /\
  (forall other direction,
     dict_get direction (Room.adjacent (Room_link other direction r)) = Some other /\
     (forall d, d <> direction ->
        dict_get d (Room.adjacent (Room_link other direction r))
        = dict_get d (Room.adjacent r)) /\
     (length (Room.adjacent (Room_link other direction r))
      = match dict_get direction (Room.adjacent r) with
        | Some _ => length (Room.adjacent r)
        | None => S (length (Room.adjacent r))
        end)) /\
  (forall f, f = Room_remove_item a \/ f = Room_add_item a \/
             (exists other direction, f = Room_link other direction) ->
     Room.required_unlock_part (f r) = Room.required_unlock_part r /\
     Room.reveal_text (f r) = Room.reveal_text r).
Proof.
  split; [|split; [|split; [|split]]].
  - intros Hn. unfold Room_remove_item.
    apply list_remove_None in Hn. now rewrite Hn.
  - intros l1 l2 Heq Hn. unfold Room_remove_item. rewrite Heq.
    assert (Hr : list_remove a (l1 ++ a :: l2) = Some (l1 ++ l2)%list).
    { clear Heq. induction l1 as [|x t IH]; cbn.
      - now rewrite decide_True.
      - rewrite decide_False by (intros ->; apply Hn; left).
        rewrite IH; [done|]. intros ?. apply Hn. now right. }
    now rewrite Hr.
  - intros Hn. unfold Room_remove_item, Room_add_item. cbn.
    rewrite list_remove_app_new by done. now destruct r.
  - intros other direction. unfold Room_link. cbn.
    induction (Room.adjacent r) as [|[k v] t (IH1 & IH2 & IH3)]; cbn.
    + rewrite decide_True by done. split; [done|]. split; [|done].
      intros d Hd. now rewrite decide_False.
    + destruct (decide (k = direction)) as [->|Hk]; cbn.
      * rewrite decide_True by done. split; [done|]. split; [|done].
        intros d Hd. now rewrite !decide_False by done.
      * rewrite decide_False by done. split; [done|]. split.
        -- intros d Hd. destruct (decide (k = d)); [done|]. now apply IH2.
        -- rewrite IH3. now destruct (dict_get direction t).
  - intros f [->|[->|(other & direction & ->)]].
    + unfold Room_remove_item. now destruct (list_remove _ _).
    + done.
    + done.
Qed.

Lemma room_bookkeeping_witness :
  Room_remove_item 7 (room_at fresh_game 0) = room_at fresh_game 0 /\
  Room.items (Room_remove_item 3 (room_at fresh_game 0)) = [5%nat] /\
  Room_remove_item 9 (Room_add_item 9 (room_at fresh_game 0)) = room_at fresh_game 0.
Proof.
  destruct (room_bookkeeping (room_at fresh_game 0) 7) as (Habsent & _).
  destruct (room_bookkeeping (room_at fresh_game 0) 3) as (_ & Hfirst & _).
  destruct (room_bookkeeping (room_at fresh_game 0) 9) as (_ & _ & Hround & _).
  split; [|split].
  - apply Habsent. vm_compute. intros H. inversion H as [|? ? ? H1]; subst.
    inversion H1 as [|? ? ? H2]; subst. inversion H2.
  - apply (Hfirst [] [5%nat]); [reflexivity|]. apply not_elem_of_nil.
  - apply Hround. vm_compute. intros H. inversion H as [|? ? ? H1]; subst.
    inversion H1 as [|? ? ? H2]; subst. inversion H2.
Defined.

(** ** Hiding as an action *)

(** [action_hide] toggles. A hiding player steps out, without a roll. A
    player who is not hiding, in a room without hiding spots, is told so and
    nothing else happens. Otherwise one d6 is rolled and the player hides
    exactly when agility + d6 (+ 2 for a rogue) is at least 6. With the stats
    that [assign_class_stats] gives, a rogue and a player of an unknown class
    never fail, a mage fails on a 1 and a warrior on a 1 or a 2. *)
Theorem hide_action :
  (forall g, Player.is_hiding (player g) = true ->
     action_hide g =
       Ret tt (set_stdout (stdout g ++ [MsgStepOut])
                 (set_player (Player_set_is_hiding false (player g)) g))) /\
  (forall g, Player.is_hiding (player g) = false ->
     Room.hiding_spots (room_at g (Player.current_room (player g))) <= 0 ->
     action_hide g = Ret tt (set_stdout (stdout g ++ [MsgNowhereToHide]) g)) /\
  (forall g, Player.is_hiding (player g) = false ->
     0 < Room.hiding_spots (room_at g (Player.current_room (player g))) ->
     let d6 := 1 + rng g (rng_pos g) mod 6 in
     let hide_roll :=
       Player.agility (player g) + d6
       + (if decide (lower (Player.character_class (player g)) = "rogue")
          then 2 else 0) in
     exists g',
       action_hide g = Ret tt g' /\
       Player.is_hiding (player g') = (hide_roll >=? 6) /\
       stdout g' = (stdout g ++ [if hide_roll >=? 6 then MsgHideOk else MsgHideFail])%list /\
       rng_pos g' = S (rng_pos g) /\ stdin g' = stdin g /\
       Player.hp (player g') = Player.hp (player g) /\
       Player.current_room (player g') = Player.current_room (player g)) /\
  (forall name character_class room d6,
     1 <= d6 <= 6 ->
     let p := mkPlayer name character_class room in
     let hide_roll :=
       Player.agility p + d6
       + (if decide (lower (Player.character_class p) = "rogue") then 2 else 0) in
     (hide_roll >=? 6) =
       if decide (lower character_class = "warrior") then 3 <=? d6
       else if decide (lower character_class = "mage") then 2 <=? d6
       else true).
Proof.
  split; [|split; [|split]].
  - intros g Hh. unfold action_hide. rewrite bind_gets. unfold id. now rewrite Hh.
  - intros g Hh Hs. unfold action_hide. rewrite bind_gets. unfold id. rewrite Hh.
    now destruct (Z.leb_spec (Room.hiding_spots
                                (room_at g (Player.current_room (player g)))) 0); [|lia].
  - intros g Hh Hs d6 hide_roll. unfold action_hide. rewrite bind_gets. unfold id.
    rewrite Hh.
    destruct (Z.leb_spec (Room.hiding_spots
                            (room_at g (Player.current_room (player g)))) 0); [lia|].
    erewrite bind_step by (apply roll_dice_eq; lia).
    fold d6.
    assert (Hr : (if decide (lower (Player.character_class (player g)) = "rogue")
                  then Player.agility (player g) + d6 + 2
                  else Player.agility (player g) + d6) = hide_roll).
    { subst hide_roll. destruct (decide _); lia. }
    rewrite Hr. destruct (hide_roll >=? 6); mstep;
      (eexists; split; [reflexivity|]); gsimpl; cbn; done.
  - intros name character_class room d6 Hd p hide_roll. subst hide_roll p.
    unfold mkPlayer, class_stats.
    destruct (decide (lower character_class = "warrior")) as [Hw|Hw];
      [|destruct (decide (lower character_class = "mage")) as [Hm|Hm];
        [|destruct (decide (lower character_class = "rogue")) as [Hr|Hr]]];
      cbn [Player.agility Player.character_class];
      repeat case_decide; try congruence;
      rewrite Z.geb_leb; apply Bool.eq_iff_eq_true; rewrite ?Z.leb_le;
      split; intros; try done; lia.
Qed.

Lemma hide_action_witness :
  (exists g',
     action_hide fresh_game = Ret tt g' /\ Player.is_hiding (player g') = true) /\
  (let p := mkPlayer "Bo" "Warrior" 0 in
   (Player.agility p + 2 + 0 >=? 6) = false).
Proof.
  destruct hide_action as (_ & _ & Hroll & Hclass).
  split.
  - destruct (Hroll fresh_game eq_refl ltac:(vm_compute; reflexivity))
      as (g' & Hrun & Hh & _).
    exists g'. split; [exact Hrun|]. rewrite Hh. vm_compute. reflexivity.
  - apply (Hclass "Bo" "Warrior" 0%nat 2). lia.
Defined.

(** ** The player's turn *)

(** [player_turn] never lets an exception out: whatever an action raises is
    caught and reported, and the turn returns. It reads at least one line
    whenever it returns, and it ends the game only by [sys.exit]: at the end
    of the input, or as lost when the player quits. Quit asks for
    confirmation: "y" ends the game as lost, "n" changes nothing. *)
Theorem player_turn_catches :
  (forall g, Inv g ->
     match player_turn g with
     | Ret _ g' => (length (stdin g') < length (stdin g))%nat
     | Stop h _ => h = SystemExit Lost \/ h = SystemExit Quit
     end) /\
  (forall g rest, stdin g = "7" :: "y" :: rest ->
     player_turn g =
       Stop (SystemExit Lost)
         (set_stdout
            (stdout g ++ [MsgChooseAction; MsgSureQuit; MsgGameOver; MsgThankYou])
            (set_stdin rest g))) /\
  (forall g rest, stdin g = "7" :: "n" :: rest ->
     player_turn g =
       Ret tt (set_stdout (stdout g ++ [MsgChooseAction; MsgSureQuit]) (set_stdin rest g))).
Proof.
  split; [|split].
  - intros g HI.
    pose proof (player_turn_post g HI) as Hp.
    destruct (player_turn g) as [[] g'|h g'] eqn:E.
    + now apply (player_turn_reads g g').
    + destruct Hp as (_ & _ & [Hw Hs]).
      revert E. unfold player_turn. rewrite bind_present. unfold bind at 1, choose at 1.
      destruct (choose_from _ _) as [[c rest]|]; [|intros [= <- _]; now right].
      unfold try_except.
      destruct (player_action c _) as [a g1|[e|x|] g1]; [done| | |].
      * intros [= <- _]. destruct e; [done|now left|now right].
      * done.
      * intros [= <- _]. done.
  - intros g rest Hin. unfold player_turn. rewrite bind_present.
    erewrite bind_step
      by (apply choose_head; [exact Hin|done|do 6 right; left]).
    unfold try_except, player_action. pick_option.
    rewrite bind_present.
    erewrite bind_step by (apply choose_head; [reflexivity|done|left]).
    rewrite decide_True by done.
    unfold end_game. mstep. unfold sys_exit. gsimpl. now rewrite <- !app_assoc.
  - intros g rest Hin. unfold player_turn. rewrite bind_present.
    erewrite bind_step
      by (apply choose_head; [exact Hin|done|do 6 right; left]).
    unfold try_except, player_action. pick_option.
    rewrite bind_present.
    erewrite bind_step by (apply choose_head; [reflexivity|done|right; left]).
    rewrite decide_False by done. unfold ret. gsimpl. now rewrite <- !app_assoc.
Qed.

Lemma player_turn_catches_witness :
  (exists g', player_turn (at_the_door "6") = Ret tt g' /\ stdin g' = []) /\
  halt_of (player_turn (set_stdin ["7"; "y"] fresh_game)) = Some (SystemExit Lost) /\
  halt_of (player_turn (set_stdin ["7"; "n"] fresh_game)) = None.
Proof.
  destruct player_turn_catches as (Hcatch & Hyes & Hno).
  split; [|split].
  - assert (HI : Inv (at_the_door "6")).
    { apply (run_turns_ok 7%nat), new_game_Inv. cbn. lia. }
    pose proof (Hcatch _ HI) as Hc.
    destruct (player_turn (at_the_door "6")) as [[] g'|h g'] eqn:E.
    + exists g'. split; [reflexivity|].
      assert (Hlen : length (stdin (at_the_door "6")) = 1%nat) by (vm_compute; reflexivity).
      rewrite Hlen in Hc. destruct (stdin g'); [done|cbn in Hc; lia].
    + exfalso. revert E. vm_compute. discriminate.
  - now rewrite (Hyes (set_stdin ["7"; "y"] fresh_game) [] eq_refl).
  - now rewrite (Hno (set_stdin ["7"; "n"] fresh_game) [] eq_refl).
Defined.

(** ** The creature's move *)

(** [creature_tick] with the creature placed in a house whose exits all lead
    to rooms of the house: one draw decides whether it moves. At 0.5 or above
    it stays. Below 0.5 it goes through one of the exits of its room, picked
    by the next draw, or stays if the room has none. The player is not
    touched and nothing is printed. *)
Theorem creature_tick_moves_to_neighbour (g : Game) (c : nat) :
  creature_room_index g = Some c -> (c < length (rooms g))%nat ->
  links_ok g = true ->
  let moves := dyadic_ltb (mkDyadic (rng g (rng_pos g) mod 2 ^ 53) 53) float_0_5 in
  let adj := Room.adjacent (room_at g c) in
  (moves = false \/ adj = [] -> creature_tick g = Ret tt (set_rng_pos (S (rng_pos g)) g)) /\
  (moves = true -> adj <> [] ->
   exists t,
     In t (values adj) /\ (t < length (rooms g))%nat /\
     creature_tick g =
       Ret tt (set_creature_room_index (Some t) (set_rng_pos (S (S (rng_pos g))) g))).
Proof.
  intros Hc Hlt Hok moves adj. unfold creature_tick.
  erewrite bind_step by apply random_random_eq. fold moves. unfold when.
  set (g1 := set_rng_pos (S (rng_pos g)) g).
  assert (Hloc : get_creature_location g1 = Ret c g1)
    by (now apply get_creature_location_eq).
  destruct (wander_from_spec c g1 Hok) as [Hnone Hsome].
  change (Room.adjacent (room_at g1 c)) with adj in Hnone, Hsome.
  split.
  - intros [Hm|Ha].
    + now rewrite Hm.
    + destruct moves; [|done]. erewrite bind_step by exact Hloc. now apply Hnone.
  - intros Hm Ha. rewrite Hm. erewrite bind_step by exact Hloc.
    destruct (Hsome Ha) as (t & Ht & Hw). exists t. split; [exact Ht|].
    split; [now apply (links_ok_target g c)|]. exact Hw.
Qed.

Lemma creature_tick_moves_to_neighbour_witness :
  creature_tick (cornered_warrior [] [half])
  = Ret tt (set_rng_pos 5 (cornered_warrior [] [half])) /\
  exists t,
    In t [1%nat; 3%nat] /\
    halt_of (creature_tick (cornered_warrior [] [0; 1])) = None /\
    creature_room_index (final (creature_tick (cornered_warrior [] [0; 1]))) = Some t.
Proof.
  split.
  - apply (proj1 (creature_tick_moves_to_neighbour (cornered_warrior [] [half]) 2
                    eq_refl ltac:(vm_compute; lia) eq_refl)).
    left. vm_compute. reflexivity.
  - destruct (proj2 (creature_tick_moves_to_neighbour (cornered_warrior [] [0; 1]) 2
                       eq_refl ltac:(vm_compute; lia) eq_refl))
      as (t & Ht & _ & Hrun); [vm_compute; reflexivity|vm_compute; discriminate|].
    exists t. split; [exact Ht|]. rewrite Hrun. split; reflexivity.
Defined.
